(** * semi.h: a semi-space copying collector with a large-object side space

    A shallow embedding of [semi.h] and a verification of the properties its
    specification states: the bump allocator, the Cheney collection loop
    (flip / copy / scan / forward / visit) and the page-budget negotiation
    with the large-object space.

    Memory is the flat, byte-addressed store the C code works on; pointers
    and sizes are 64-bit unsigned words whose wrap-around is written out.
    The collaborators that [semi.h] only includes ([large-object-space.h],
    the per-kind size and field-visitor functions behind
    [FOR_EACH_HEAP_OBJECT_KIND], [getpagesize]) are interfaces: the collector
    is verified against any implementation of them.

    What a collection does is proved for every heap that holds a well-formed
    object graph ([well_formed]) and every large-object space that keeps the
    contract of its interface ([large_object_space_contract]); the object
    kinds of the benchmark, a small large-object space and a sample heap
    with a cycle show that these hypotheses can be met. *)

From Stdlib Require Import ZArith List Lia Bool Permutation.
Import ListNotations.
Local Open Scope Z_scope.

(** ** 64-bit machine arithmetic ([uintptr_t], [size_t], [long]) *)

Module Word.
Definition modulus : Z := 2 ^ 64.
Definition wrap (x : Z) : Z := x mod modulus.
Definition add (a b : Z) : Z := wrap (a + b).
Definition sub (a b : Z) : Z := wrap (a - b).
Definition mul (a b : Z) : Z := wrap (a * b).
Definition not (a : Z) : Z := wrap (Z.lnot a).
Definition and (a b : Z) : Z := Z.land a b.
Definition shr (a n : Z) : Z := Z.shiftr a n.
(** two's complement reading of a word, for [long] *)
Definition signed (x : Z) : Z := (x + 2 ^ 63) mod modulus - 2 ^ 63.
End Word.

(** ** Outcomes

    Every path of [semi.h] either returns, or ends the process through
    [abort ()], two of them after printing a diagnostic, or makes a libc
    call outside its contract -- [memset] over a range that does not fit
    the address space, [memcpy] between ranges that overlap.  C gives such
    a run no meaning: in practice the process is killed by a signal or
    memory is overwritten, and the model stops there with
    [undefined_behaviour].  Loops and the recursion through large objects
    are driven by fuel; [Timeout] is the answer of a run that was given too
    little. *)

Inductive diagnostic :=
| plain_abort
| ran_out_of_space (heap_size : Z)
| weird_mmap_failure
| undefined_behaviour.

Inductive outcome (A : Type) :=
| Done (a : A)
| Fatal (d : diagnostic)
| Timeout.
Arguments Done {A} a.
Arguments Fatal {A} d.
Arguments Timeout {A}.

Definition bind {A B : Type} (x : outcome A) (k : A -> outcome B) : outcome B :=
  match x with
  | Done a => k a
  | Fatal d => Fatal d
  | Timeout => Timeout
  end.

(** the value of a run that returned, [default] otherwise *)
Definition result_of {A : Type} (x : outcome A) (default : A) : A :=
  match x with
  | Done a => a
  | _ => default
  end.

Notation "x <- c ;; k" := (bind c (fun x => k))
  (at level 61, c at next level, right associativity).
Notation "' p <- c ;; k" := (bind c (fun p => k))
  (at level 61, p pattern, c at next level, right associativity).

(** ** Byte-addressed memory and the libc / OS calls the collector makes *)

Definition mem := Z -> Z.

Definition byte_at (m : mem) (a : Z) : Z := m a mod 256.

(** [*(uintptr_t* )a], little endian *)
Definition load (m : mem) (a : Z) : Z :=
  byte_at m a
  + 2 ^ 8 * byte_at m (a + 1)
  + 2 ^ 16 * byte_at m (a + 2)
  + 2 ^ 24 * byte_at m (a + 3)
  + 2 ^ 32 * byte_at m (a + 4)
  + 2 ^ 40 * byte_at m (a + 5)
  + 2 ^ 48 * byte_at m (a + 6)
  + 2 ^ 56 * byte_at m (a + 7).

(** [*(uintptr_t* )a = v] *)
Definition store (m : mem) (a v : Z) : mem :=
  fun x => if (a <=? x) && (x <? a + 8)
           then (v / 2 ^ (8 * (x - a))) mod 256
           else m x.

(** the bytes of [src, src + n) written at [dst, dst + n) *)
Definition blit (m : mem) (dst src n : Z) : mem :=
  fun x => if (dst <=? x) && (x <? dst + n) then m (src + (x - dst)) else m x.

(** the byte [c] written at [addr, addr + n) *)
Definition fill (m : mem) (addr c n : Z) : mem :=
  fun x => if (addr <=? x) && (x <? addr + n) then c else m x.

(** a range of [n] bytes from [addr] that ends inside the address space *)
Definition in_address_space (addr n : Z) : bool := addr + n <=? Word.modulus.

(** [memcpy(dst, src, n)]: the two ranges must lie in the address space and
    must not overlap *)
Definition memcpy (m : mem) (dst src n : Z) : outcome mem :=
  if in_address_space dst n && in_address_space src n
     && ((dst + n <=? src) || (src + n <=? dst))
  then Done (blit m dst src n)
  else Fatal undefined_behaviour.

(** [memset(addr, c, n)]: the range must lie in the address space *)
Definition memset (m : mem) (addr c n : Z) : outcome mem :=
  if in_address_space addr n then Done (fill m addr c n)
  else Fatal undefined_behaviour.

Definition round_up_to (n unit : Z) : Z := ((n + unit - 1) / unit) * unit.

(** [madvise(addr, len, MADV_DONTNEED)] on a private anonymous mapping: the
    call is refused when [addr] is not page-aligned; otherwise the pages
    covering the range are dropped and read back as zero. *)
Definition madvise_dontneed (page_size : Z) (m : mem) (addr len : Z) : mem :=
  if addr mod page_size =? 0
  then fill m addr 0 (round_up_to len page_size)
  else m.

(** ** The semi-space *)

Record semi_space := mk_semi_space {
  hp : Z;
  limit : Z;
  base : Z;
  size : Z;
  count : Z
}.

Definition set_hp (space : semi_space) (v : Z) : semi_space :=
  mk_semi_space v (limit space) (base space) (size space) (count space).
Definition set_limit (space : semi_space) (v : Z) : semi_space :=
  mk_semi_space (hp space) v (base space) (size space) (count space).
Definition set_count (space : semi_space) (v : Z) : semi_space :=
  mk_semi_space (hp space) (limit space) (base space) (size space) v.

Definition ALIGNMENT : Z := 8.

Definition align_up (addr align : Z) : Z :=
  Word.and (Word.sub (Word.add addr align) 1) (Word.not (Word.sub align 1)).

Definition clear_memory (m : mem) (addr size : Z) : outcome mem :=
  memset m addr 0 size.

(** the even page count [semi_space_steal_pages] works with *)
Definition even_pages (npages : Z) : Z :=
  if negb (Z.land npages 1 =? 0) then Word.add npages 1 else npages.

Definition steal_half_size (page_size npages : Z) : Z :=
  Word.shr (Word.mul (even_pages npages) page_size) 1.

Definition semi_space_steal_pages (page_size : Z) (m : mem)
    (space : semi_space) (npages : Z) : bool * semi_space * mem :=
  let half_size := steal_half_size page_size npages in
  if Word.sub (limit space) (hp space) <? half_size
  then (false, space, m)
  else
    let space := set_limit space (Word.sub (limit space) half_size) in
    let tospace_offset := Word.sub (limit space) (base space) in
    let m := madvise_dontneed page_size m
               (Word.add (base space) tospace_offset) half_size in
    let fromspace_offset :=
      Word.and (Word.add tospace_offset (Word.shr (size space) 1))
               (Word.sub (size space) 1) in
    let m := madvise_dontneed page_size m
               (Word.add (base space) fromspace_offset) half_size in
    (true, space, m).

Definition flip (space : semi_space) : semi_space :=
  let split := Word.add (base space) (Word.shr (size space) 1) in
  let space :=
    if hp space <=? split
    then set_limit (set_hp space split) (Word.add (base space) (size space))
    else set_limit (set_hp space (base space)) split in
  set_count space (Word.signed (count space + 1)).

(** [initialize_semi_space]; [mapping] is what [mmap] answered, [None] for
    [MAP_FAILED]. *)
Definition initialize_semi_space (mapping : option Z) (space : semi_space)
    (heap_size : Z) : bool * semi_space :=
  match mapping with
  | None => (false, space)
  | Some addr =>
      let space := mk_semi_space addr (limit space) addr heap_size (-1) in
      (true, flip space)
  end.

(** free capacity of the active half, as the code computes it *)
Definition free_capacity (space : semi_space) : Z :=
  Word.sub (limit space) (hp space).

(** the capacity predicate of the data model *)
Definition capacity_ok (space : semi_space) : Prop :=
  base space <= hp space /\ hp space <= limit space
  /\ limit space <= base space + size space.

(** ** Interfaces of the collaborators *)

(** The heap object kinds of [FOR_EACH_HEAP_OBJECT_KIND]: which header words
    are [ALLOC_KIND_] tags, the per-kind [name##_size (obj)], and the slots
    that [visit_##name##_fields (obj, visit, heap)] hands to [visit], in
    order. *)
Class ObjectLayout := {
  is_kind : Z -> bool;
  object_size : Z -> mem -> Z -> Z;
  object_fields : Z -> mem -> Z -> list Z
}.

(** [large-object-space.h]: the calls [semi.h] makes on [struct
    large_object_space], and the one field of it that it reads.  Pointers
    are words, [0] is [NULL]. *)
Class LargeObjectSpace (los : Type) := {
  large_object_space_init : los -> bool * los;
  large_object_space_start_gc : los -> los;
  large_object_space_finish_gc : los -> los;
  large_object_space_contains : los -> Z -> bool;
  large_object_space_copy : los -> Z -> bool * los;
  large_object_space_npages : los -> Z -> Z;
  large_object_space_alloc : los -> Z -> Z * los;
  large_object_space_obtain_and_alloc : los -> Z -> Z * los;
  live_pages_at_last_collection : los -> Z
}.

Definition LARGE_OBJECT_THRESHOLD : Z := 8192.

Section Collector.

Context {layout : ObjectLayout}.
Context {los : Type} {large_objects : LargeObjectSpace los}.
(** [getpagesize ()] *)
Variable page_size : Z.

(** [struct heap], with the memory it manages *)
Record heap := mk_heap {
  memory : mem;
  heap_semi_space : semi_space;
  heap_large_object_space : los
}.

(** [struct mutator].  The chain of handles [mut->roots] is kept as the
    list of the addresses [&h->v] of its root slots, in chain order.  The
    handles themselves ([struct handle] of the including file) are not part
    of [memory]: they live in the frames of the mutator, which the
    collector does not write, so the [h->next] that [collect] reads while
    it walks the chain are taken to be the ones the chain had when the
    collection began. *)
Record mutator := mk_mutator {
  mutator_heap : heap;
  roots : list Z
}.

Definition mutator_semi_space (mut : mutator) : semi_space :=
  heap_semi_space (mutator_heap mut).

Definition set_memory (h : heap) (m : mem) : heap :=
  mk_heap m (heap_semi_space h) (heap_large_object_space h).
Definition set_semi_space (h : heap) (s : semi_space) : heap :=
  mk_heap (memory h) s (heap_large_object_space h).
Definition set_large_object_space (h : heap) (l : los) : heap :=
  mk_heap (memory h) (heap_semi_space h) l.

Definition copy (h : heap) (kind obj : Z) : outcome (Z * heap) :=
  if is_kind kind then
    let size := object_size kind (memory h) obj in
    let space := heap_semi_space h in
    let new_obj := hp space in
    m <- memcpy (memory h) new_obj obj size ;;
    let m := store m obj (hp space) in
    let space := set_hp space (Word.add (hp space) (align_up size ALIGNMENT)) in
    Done (new_obj, mk_heap m space (heap_large_object_space h))
  else Fatal plain_abort.

Definition forward (h : heap) (obj : Z) : outcome (Z * heap) :=
  let header_word := load (memory h) obj in
  if is_kind header_word then copy h header_word obj
  else Done (header_word, h).

Definition visit_semi_space (h : heap) (loc obj : Z) : outcome heap :=
  '(new_obj, h) <- forward h obj ;;
  Done (set_memory h (store (memory h) loc new_obj)).

Definition semi_space_contains (space : semi_space) (obj : Z) : bool :=
  Word.sub obj (base space) <? size space.

(** [scan] and [visit] call each other (a large object is scanned from
    inside [visit]); [scan_rec] is the recursive call. *)
Section Tracing.
Variable scan_rec : heap -> Z -> outcome (Z * heap).

Definition visit_large_object_space (h : heap) (loc obj : Z)
    : outcome heap :=
  let '(first_mark, l) :=
    large_object_space_copy (heap_large_object_space h) obj in
  let h := set_large_object_space h l in
  if first_mark then '(_, h) <- scan_rec h obj ;; Done h
  else Done h.

Definition visit_with (h : heap) (loc : Z) : outcome heap :=
  let obj := load (memory h) loc in
  if obj =? 0 then Done h
  else if semi_space_contains (heap_semi_space h) obj
  then visit_semi_space h loc obj
  else if large_object_space_contains (heap_large_object_space h) obj
  then visit_large_object_space h loc obj
  else Fatal plain_abort.

Fixpoint visit_each (h : heap) (locs : list Z) : outcome heap :=
  match locs with
  | [] => Done h
  | loc :: rest => h <- visit_with h loc ;; visit_each h rest
  end.

Definition scan_with (h : heap) (grey : Z) : outcome (Z * heap) :=
  let kind := load (memory h) grey in
  if is_kind kind then
    h <- visit_each h (object_fields kind (memory h) grey) ;;
    Done (Word.add grey
            (align_up (object_size kind (memory h) grey) ALIGNMENT), h)
  else Fatal plain_abort.
End Tracing.

Fixpoint scan (fuel : nat) (h : heap) (grey : Z) : outcome (Z * heap) :=
  match fuel with
  | O => Timeout
  | S fuel => scan_with (scan fuel) h grey
  end.

Definition visit (fuel : nat) : heap -> Z -> outcome heap :=
  visit_with (scan fuel).

Definition visit_roots (fuel : nat) : heap -> list Z -> outcome heap :=
  visit_each (scan fuel).

(** [while (grey < semi->hp) grey = scan (heap, grey);] *)
Fixpoint scan_loop (steps fuel : nat) (h : heap) (grey : Z) : outcome heap :=
  match steps with
  | O => Timeout
  | S steps =>
      if grey <? hp (heap_semi_space h)
      then '(grey, h) <- scan fuel h grey ;; scan_loop steps fuel h grey
      else Done h
  end.

Definition collect (fuel : nat) (mut : mutator) : outcome mutator :=
  let h := mutator_heap mut in
  let h := set_large_object_space h
             (large_object_space_start_gc (heap_large_object_space h)) in
  let h := set_semi_space h (flip (heap_semi_space h)) in
  let grey := hp (heap_semi_space h) in
  h <- visit_roots fuel h (roots mut) ;;
  h <- scan_loop fuel fuel h grey ;;
  let h := set_large_object_space h
             (large_object_space_finish_gc (heap_large_object_space h)) in
  let '(_, space, m) :=
    semi_space_steal_pages page_size (memory h) (heap_semi_space h)
      (live_pages_at_last_collection (heap_large_object_space h)) in
  Done (mk_mutator (mk_heap m space (heap_large_object_space h)) (roots mut)).

Definition collect_for_alloc (fuel : nat) (mut : mutator) (bytes : Z)
    : outcome mutator :=
  mut <- collect fuel mut ;;
  let space := mutator_semi_space mut in
  if Word.sub (limit space) (hp space) <? bytes
  then Fatal (ran_out_of_space (size space))
  else Done mut.

(** [semi_space_steal_pages] on the mutator's heap *)
Definition steal_from (mut : mutator) (npages : Z) : bool * mutator :=
  let h := mutator_heap mut in
  let '(ok, space, m) :=
    semi_space_steal_pages page_size (memory h) (heap_semi_space h) npages in
  (ok, mk_mutator (mk_heap m space (heap_large_object_space h)) (roots mut)).

(** the budget part of [allocate_large]: steal, or collect and steal once
    more *)
Definition reserve_large (fuel : nat) (mut : mutator) (npages : Z)
    : outcome mutator :=
  let '(ok, mut1) := steal_from mut npages in
  if ok then Done mut1
  else
    mut2 <- collect fuel mut1 ;;
    let '(ok, mut3) := steal_from mut2 npages in
    if ok then Done mut3
    else Fatal (ran_out_of_space (size (mutator_semi_space mut3))).

(** the page part of [allocate_large]: the fast path, then the slow one *)
Definition obtain_large (l : los) (npages : Z) : Z * los :=
  let '(ret, l) := large_object_space_alloc l npages in
  if ret =? 0 then large_object_space_obtain_and_alloc l npages
  else (ret, l).

(** the tail of [allocate_large], once the budget is reserved *)
Definition place_large (mut : mutator) (npages kind : Z)
    : outcome (Z * mutator) :=
  let h := mutator_heap mut in
  let '(ret, l) := obtain_large (heap_large_object_space h) npages in
  if ret =? 0 then Fatal weird_mmap_failure
  else
    Done (ret, mk_mutator
                 (mk_heap (store (memory h) ret kind) (heap_semi_space h) l)
                 (roots mut)).

Definition allocate_large (fuel : nat) (mut : mutator) (kind size : Z)
    : outcome (Z * mutator) :=
  let npages :=
    large_object_space_npages
      (heap_large_object_space (mutator_heap mut)) size in
  mut <- reserve_large fuel mut npages ;;
  place_large mut npages kind.

(** the [while (1)] of [allocate] *)
Fixpoint allocate_small (tries fuel : nat) (mut : mutator) (kind size : Z)
    : outcome (Z * mutator) :=
  match tries with
  | O => Timeout
  | S tries =>
      let h := mutator_heap mut in
      let space := heap_semi_space h in
      let addr := hp space in
      let new_hp := align_up (Word.add addr size) ALIGNMENT in
      if limit space <? new_hp then
        mut <- collect_for_alloc fuel mut size ;;
        allocate_small tries fuel mut kind size
      else
        let space := set_hp space new_hp in
        let m := store (memory h) addr kind in
        m <- clear_memory m (Word.add addr 8) (Word.sub size 8) ;;
        Done (addr, mk_mutator
                      (mk_heap m space (heap_large_object_space h))
                      (roots mut))
  end.

Definition allocate (fuel : nat) (mut : mutator) (kind size : Z)
    : outcome (Z * mutator) :=
  if LARGE_OBJECT_THRESHOLD <=? size
  then allocate_large fuel mut kind size
  else allocate_small fuel fuel mut kind size.

(** [initialize_gc]: [calloc] is what [calloc] answered -- the zeroed
    large-object space of the new mutator, [None] for [NULL], on which the
    code aborts --, [mapping] the answer of [mmap]; the result is the
    returned flag and the mutator left behind. *)
Definition initialize_gc (m : mem) (calloc : option los) (mapping : option Z)
    (heap_size : Z) : outcome (bool * mutator) :=
  match calloc with
  | None => Fatal plain_abort
  | Some zeroed =>
      let '(ok, space) :=
        initialize_semi_space mapping (mk_semi_space 0 0 0 0 0) heap_size in
      if ok then
        let '(ok, l) := large_object_space_init zeroed in
        Done (ok, mk_mutator (mk_heap m space l) [])
      else Done (false, mk_mutator (mk_heap m space zeroed) [])
  end.

End Collector.

(** ** A concrete heap: the object kinds of the benchmark and a small
    large-object space

    The examples below run the collector on the two kinds the benchmark
    allocates: a tree node (header, [left], [right], two [int]s) and an array
    of doubles (header, [length], the values). *)

Module Bench.

Definition ALLOC_KIND_NODE : Z := 0.
Definition ALLOC_KIND_DOUBLE_ARRAY : Z := 1.

Definition node_size (m : mem) (obj : Z) : Z := 32.
Definition double_array_size (m : mem) (obj : Z) : Z :=
  Word.add 16 (Word.mul (load m (obj + 8)) 8).

#[global] Instance layout : ObjectLayout := {|
  is_kind k := (k =? ALLOC_KIND_NODE) || (k =? ALLOC_KIND_DOUBLE_ARRAY);
  object_size k m obj :=
    if k =? ALLOC_KIND_NODE then node_size m obj
    else double_array_size m obj;
  object_fields k m obj :=
    if k =? ALLOC_KIND_NODE then [obj + 8; obj + 16] else []
|}.

(** A large-object space that keeps the list of its objects (address and
    page count), the marks of the running cycle, and hands out fresh pages
    from a cursor; it has no reuse list, so the fast path always answers
    [NULL]. *)
Record space := mk_space {
  objects : list (Z * Z);
  marked : list Z;
  live_pages : Z;
  cursor : Z
}.

Definition page_size : Z := 4096.

Definition is_marked (l : space) (a : Z) : bool :=
  existsb (Z.eqb a) (marked l).

Definition pages_of (objs : list (Z * Z)) : Z :=
  fold_right (fun o acc => snd o + acc) 0 objs.

#[global] Instance large_objects : LargeObjectSpace space := {|
  large_object_space_init l := (true, l);
  large_object_space_start_gc l :=
    mk_space (objects l) [] (live_pages l) (cursor l);
  large_object_space_finish_gc l :=
    let live := filter (fun o => is_marked l (fst o)) (objects l) in
    mk_space live (marked l) (pages_of live) (cursor l);
  large_object_space_contains l a :=
    existsb (fun o => Z.eqb a (fst o)) (objects l);
  large_object_space_copy l a :=
    if is_marked l a then (false, l)
    else (true, mk_space (objects l) (a :: marked l) (live_pages l) (cursor l));
  large_object_space_npages l bytes :=
    Word.shr (Word.sub (Word.add bytes page_size) 1) 12;
  large_object_space_alloc l npages := (0, l);
  large_object_space_obtain_and_alloc l npages :=
    (cursor l,
     mk_space ((cursor l, npages) :: objects l) (marked l) (live_pages l)
              (cursor l + npages * page_size));
  live_pages_at_last_collection l := live_pages l
|}.

Definition empty_space (cursor : Z) : space := mk_space [] [] 0 cursor.

Definition zero_memory : mem := fun _ => 0.

(** write the words [ws] at consecutive addresses from [a] *)
Fixpoint store_words (m : mem) (a : Z) (ws : list Z) : mem :=
  match ws with
  | [] => m
  | w :: rest => store_words (store m a w) (a + 8) rest
  end.

(** a fresh 64 KiB semi-space mapped at 65536, upper half active, and an
    empty large-object space whose pages start at 1 MiB *)
Definition fresh_space : semi_space :=
  mk_semi_space 98304 131072 65536 65536 0.

Definition fresh : mutator :=
  mk_mutator (mk_heap zero_memory fresh_space (empty_space 1048576)) [].

End Bench.

(** ** The page arithmetic in plain integers *)

(** the page count rounded up to even, and the bytes one half gives up for
    it, in plain integers *)
Definition round_even (n : Z) : Z := n + n mod 2.
Definition half_bytes (page_size n : Z) : Z := round_even n / 2 * page_size.

(** ** Object graphs laid out in memory

    What it takes for a memory to hold an object graph the collector can
    trace: the objects of the condemned half, the large objects and the root
    slots, as the allocator, the large-object space and the mutator leave
    them. *)

Section Shape.

Context {layout : ObjectLayout}.
(** the memory when the collection starts *)
Variable m0 : mem.

Definition kind_of (o : Z) : Z := load m0 o.
Definition size_of (o : Z) : Z := object_size (kind_of o) m0 o.
Definition aligned_size_of (o : Z) : Z := align_up (size_of o) ALIGNMENT.
Definition fields_of (o : Z) : list Z := object_fields (kind_of o) m0 o.

(** slots that do not overlap one another *)
Fixpoint slots_apart (slots : list Z) : Prop :=
  match slots with
  | [] => True
  | s :: rest =>
      Forall (fun s' => s + 8 <= s' \/ s' + 8 <= s) rest /\ slots_apart rest
  end.

(** the byte at offset [i] of [o] belongs to one of its reference fields *)
Definition in_field (o i : Z) : Prop :=
  exists f, In f (fields_of o) /\ f - o <= i < f - o + 8.

(** size and field offsets of [o] are read off its payload, and the same
    payload elsewhere describes the same object *)
Definition position_independent (o : Z) : Prop :=
  forall (m' : mem) (o' : Z),
    (forall i, 8 <= i < size_of o -> ~ in_field o i ->
       m' (o' + i) = m0 (o + i)) ->
    object_size (kind_of o) m' o' = size_of o
    /\ object_fields (kind_of o) m' o'
       = map (fun f => f - o + o') (fields_of o).

Record object_ok (refs : Z -> Prop) (o : Z) : Prop := {
  ok_kind : is_kind (kind_of o) = true;
  ok_size : 8 <= size_of o < 2 ^ 62;
  ok_fields_inside :
    Forall (fun f => o + 8 <= f /\ f + 8 <= o + size_of o) (fields_of o);
  ok_fields_apart : slots_apart (fields_of o);
  ok_fields_refs : Forall (fun f => refs (load m0 f)) (fields_of o);
  ok_layout : position_independent o
}.

(** objects laid out in address order between [lo] and [hi], each one
    taking its size rounded up to the alignment *)
Fixpoint tiled (lo : Z) (objs : list Z) (hi : Z) : Prop :=
  match objs with
  | [] => lo <= hi
  | o :: rest => lo <= o /\ tiled (o + aligned_size_of o) rest hi
  end.

(** the bytes a list of objects takes *)
Fixpoint total (objs : list Z) : Z :=
  match objs with
  | [] => 0
  | o :: rest => aligned_size_of o + total rest
  end.

(** large objects that do not overlap one another *)
Fixpoint extents_apart (objs : list Z) : Prop :=
  match objs with
  | [] => True
  | o :: rest =>
      Forall (fun o' => o + size_of o <= o' \/ o' + size_of o' <= o) rest
      /\ extents_apart rest
  end.

(** objects of a sensible size *)
Definition sized (objs : list Z) : Prop :=
  Forall (fun o => 8 <= size_of o < 2 ^ 62) objs.

End Shape.

(** a reference is null, a semi-space object or a large object *)
Definition reference (F L : list Z) (v : Z) : Prop :=
  v = 0 \/ In v F \/ In v L.

(** the objects the mutator can get at: the ones its root slots hold and
    the ones the fields of such objects hold *)
Inductive reachable {layout : ObjectLayout} (m0 : mem) (F L rts : list Z)
    : Z -> Prop :=
| reach_root r v :
    In r rts -> load m0 r = v -> In v F \/ In v L -> reachable m0 F L rts v
| reach_field o f v :
    reachable m0 F L rts o -> In f (fields_of m0 o) -> load m0 f = v ->
    In v F \/ In v L -> reachable m0 F L rts v.

(** the slots that are live after a collection, named by the address they
    had before it, and where they are then: a root slot, a field of the
    copy of a survivor, a field of a live large object *)
Inductive live_slot {layout : ObjectLayout} (m : mem) (rts : list Z)
    (survivors live : list Z) (fwd : Z -> Z) : Z -> Z -> Prop :=
| live_root r : In r rts -> live_slot m rts survivors live fwd r r
| live_field o f :
    In o survivors -> In f (fields_of m o) ->
    live_slot m rts survivors live fwd f (fwd o + (f - o))
| live_large_field o f :
    In o live -> In f (fields_of m o) ->
    live_slot m rts survivors live fwd f f.

(** Where a traceable object graph sits: the mapping [B, B + SZ), the
    tospace [T, T + HALF) and the condemned objects [F] between [FS] and
    [FE] in it; large objects [L] and root slots [rts] outside of it; no
    address of the mapping is a kind tag. *)
Record placement {layout : ObjectLayout} (m0 : mem) (F L rts : list Z)
    (B SZ HALF T FS FE : Z) : Prop := {
  pl_base : 0 < B;
  pl_top : B + SZ < Word.modulus;
  pl_to : B <= T /\ 0 <= HALF /\ T + HALF <= B + SZ;
  pl_from :
    B <= FS /\ FE <= B + SZ /\ FE - FS <= HALF
    /\ (FE <= T \/ T + HALF <= FS);
  pl_tiled : tiled m0 FS F FE;
  pl_small : Forall (object_ok m0 (reference F L)) F;
  pl_large : Forall (object_ok m0 (reference F L)) L;
  pl_large_outside :
    Forall (fun o => 0 < o /\ o + size_of m0 o < Word.modulus
                     /\ (o + size_of m0 o <= B \/ B + SZ <= o)) L;
  pl_large_apart : extents_apart m0 L;
  pl_tags : forall a, B <= a < B + SZ -> is_kind a = false;
  pl_roots_apart : slots_apart rts;
  pl_roots_outside :
    Forall (fun r => 0 <= r /\ r + 8 < Word.modulus
                     /\ (r + 8 <= B \/ B + SZ <= r)
                     /\ Forall (fun o => r + 8 <= o \/ o + size_of m0 o <= r)
                          L) rts;
  pl_roots_refs : Forall (fun r => reference F L (load m0 r)) rts
}.

(** the start of the half that [flip] condemns *)
Definition from_start (space : semi_space) : Z :=
  if hp space <=? base space + size space / 2
  then base space
  else base space + size space / 2.

(** the start of the half that [flip] makes the tospace *)
Definition to_start (space : semi_space) : Z :=
  if hp space <=? base space + size space / 2
  then base space + size space / 2
  else base space.

Section Contracts.

Context {layout : ObjectLayout}.
Context {los : Type} {large_objects : LargeObjectSpace los}.
Variable page_size : Z.

(** The contract of the large-object space, as far as a collection relies
    on it: [marked] observes the liveness marks of the running cycle, which
    [start_gc] resets and [copy] sets, answering whether the mark is the
    first; [contains] does not change during a cycle; [pages_ok] is the
    bookkeeping invariant that keeps the live-page count a sane page
    count. *)
Record large_object_space_contract (marked : los -> Z -> bool)
    (pages_ok : los -> Prop) : Prop := {
  copy_first : forall l a,
    fst (large_object_space_copy l a) = negb (marked l a);
  copy_marks : forall l a x,
    marked (snd (large_object_space_copy l a)) x = (x =? a) || marked l x;
  copy_contains : forall l a x,
    large_object_space_contains (snd (large_object_space_copy l a)) x
    = large_object_space_contains l x;
  copy_pages_ok : forall l a,
    pages_ok l -> pages_ok (snd (large_object_space_copy l a));
  start_gc_marks : forall l x, marked (large_object_space_start_gc l) x = false;
  start_gc_contains : forall l x,
    large_object_space_contains (large_object_space_start_gc l) x
    = large_object_space_contains l x;
  start_gc_pages_ok : forall l,
    pages_ok l -> pages_ok (large_object_space_start_gc l);
  finish_gc_pages : forall l,
    pages_ok l ->
    let n := live_pages_at_last_collection (large_object_space_finish_gc l) in
    0 <= n < Word.modulus /\ round_even n * page_size < Word.modulus
}.

(** [mut] holds a well-formed object graph: [F] are the objects of the
    active half, in address order, [L] the large objects. *)
Record well_formed (pages_ok : los -> Prop) (mut : mutator (los := los))
    (F L : list Z) : Prop := {
  wf_page_size : 0 < page_size /\ page_size mod 8 = 0;
  wf_base :
    0 < base (mutator_semi_space mut)
    /\ base (mutator_semi_space mut) mod 8 = 0;
  wf_top :
    base (mutator_semi_space mut) + size (mutator_semi_space mut)
    + LARGE_OBJECT_THRESHOLD + ALIGNMENT < Word.modulus;
  wf_power_of_two :
    exists k, 4 <= k /\ size (mutator_semi_space mut) = 2 ^ k;
  wf_capacity : capacity_ok (mutator_semi_space mut);
  wf_tags : forall a,
    base (mutator_semi_space mut) <= a
      < base (mutator_semi_space mut) + size (mutator_semi_space mut) ->
    is_kind a = false;
  wf_tiled :
    tiled (memory (mutator_heap mut)) (from_start (mutator_semi_space mut)) F
      (hp (mutator_semi_space mut));
  wf_small :
    Forall (object_ok (memory (mutator_heap mut)) (reference F L)) F;
  wf_large :
    Forall (object_ok (memory (mutator_heap mut)) (reference F L)) L;
  wf_large_outside :
    Forall (fun o =>
              0 < o /\ o + size_of (memory (mutator_heap mut)) o < Word.modulus
              /\ (o + size_of (memory (mutator_heap mut)) o
                    <= base (mutator_semi_space mut)
                  \/ base (mutator_semi_space mut)
                     + size (mutator_semi_space mut) <= o)) L;
  wf_large_apart : extents_apart (memory (mutator_heap mut)) L;
  wf_large_known :
    Forall (fun o =>
              large_object_space_contains
                (heap_large_object_space (mutator_heap mut)) o = true) L;
  wf_pages : pages_ok (heap_large_object_space (mutator_heap mut));
  wf_roots_apart : slots_apart (roots mut);
  wf_roots_outside :
    Forall (fun r =>
              0 <= r /\ r + 8 < Word.modulus
              /\ (r + 8 <= base (mutator_semi_space mut)
                  \/ base (mutator_semi_space mut)
                     + size (mutator_semi_space mut) <= r)
              /\ Forall (fun o =>
                           r + 8 <= o
                           \/ o + size_of (memory (mutator_heap mut)) o <= r) L)
           (roots mut);
  wf_roots_refs :
    Forall (fun r => reference F L (load (memory (mutator_heap mut)) r))
           (roots mut)
}.

(** What a collection does to the object graph: [survivors] are the
    semi-space objects it copied, in the order of their copies, [live] the
    large objects it marked, [fwd] maps a reference to what replaces it.
    [m] is the memory before, [m'] the memory after, [T] the start of the
    tospace and [top] its allocation pointer after the collection. *)
Definition kept_by (F L survivors live : list Z) (v : Z) : Prop :=
  (In v F -> In v survivors) /\ (In v L -> In v live).

Record relocated (m m' : mem) (F L rts : list Z) (T top : Z)
    (survivors live : list Z) (fwd : Z -> Z) : Prop := {
  rel_survivors : NoDup survivors /\ incl survivors F;
  rel_live : incl live L;
  rel_reachable : forall o,
    In o survivors \/ In o live -> reachable m F L rts o;
  rel_top : top = T + total m survivors;
  rel_other : forall v, ~ In v F -> fwd v = v;
  rel_copy : forall o,
    In o survivors ->
    T <= fwd o /\ fwd o + aligned_size_of m o <= top
    /\ load m' (fwd o) = kind_of m o;
  rel_injective : forall o o',
    In o survivors -> In o' survivors -> fwd o = fwd o' -> o = o';
  rel_roots : forall r,
    In r rts ->
    load m' r = fwd (load m r) /\ kept_by F L survivors live (load m r);
  rel_fields : forall o f,
    In o survivors -> In f (fields_of m o) ->
    load m' (fwd o + (f - o)) = fwd (load m f)
    /\ kept_by F L survivors live (load m f);
  rel_large_fields : forall o f,
    In o live -> In f (fields_of m o) ->
    load m' f = fwd (load m f)
    /\ kept_by F L survivors live (load m f)
}.

End Contracts.

(** ** The phases of a collection *)

Section Phases.

Context {layout : ObjectLayout}.
Context {los : Type} {large_objects : LargeObjectSpace los}.
Variable page_size : Z.

(** the heap a collection starts its trace from: the large-object space
    told of the new cycle, the semi-space flipped *)
Definition flipped (mut : mutator (los := los)) : heap :=
  mk_heap (memory (mutator_heap mut)) (flip (mutator_semi_space mut))
    (large_object_space_start_gc (heap_large_object_space (mutator_heap mut))).

(** the trace of a collection: the roots, then the loop *)
Definition trace (steps fuel : nat) (mut : mutator (los := los))
    : outcome heap :=
  h <- visit_roots fuel (flipped mut) (roots mut) ;;
  scan_loop steps fuel h (hp (heap_semi_space (flipped mut))).

(** the end of a collection, from the traced heap *)
Definition finish (h : heap (los := los)) (rts : list Z) : mutator :=
  let l := large_object_space_finish_gc (heap_large_object_space h) in
  let '(_, space, m) :=
    semi_space_steal_pages page_size (memory h) (heap_semi_space h)
      (live_pages_at_last_collection l) in
  mk_mutator (mk_heap m space l) rts.

(** one scanner does whatever another one does *)
Definition refines
    (s s' : heap (los := los) -> Z -> outcome (Z * heap (los := los)))
    : Prop :=
  forall h a r, s h a = Done r -> s' h a = Done r.

End Phases.

(** ** The state of a collection in progress *)

Section Progress.

Context {layout : ObjectLayout}.
Context {los : Type} {large_objects : LargeObjectSpace los}.
Variable marked : los -> Z -> bool.
Variable pages_ok : los -> Prop.
Variable m0 : mem.
(** the objects of the condemned half, the large objects, the root slots *)
Variables F L rts : list Z.
(** the mapping, half of its size, the start of the tospace *)
Variables B SZ HALF T : Z.

(** where the copy of [o] starts, relative to the first copy *)
Fixpoint offset_in (objs : list Z) (o : Z) : Z :=
  match objs with
  | [] => 0
  | x :: rest => if x =? o then 0 else aligned_size_of m0 x + offset_in rest o
  end.

(** What has happened so far: the objects copied, in the order of their
    copies; the objects still to copy; the slots, named by the address they
    had when the collection started, that have been visited. *)
Record progress := mk_progress {
  copied : list Z;
  white : list Z;
  done : list Z
}.

Definition copy_address (g : progress) (o : Z) : Z :=
  T + offset_in (copied g) o.

(** the value a visited slot holds for the reference [v] it started with *)
Definition forwarded (g : progress) (v : Z) : Z :=
  if in_dec Z.eq_dec v F then copy_address g v else v.

(** a slot the collector may visit, named by the address [key] it had when
    the collection started, and where it is now: a root, a field of a
    large object, a field of a copy *)
Inductive slot (g : progress) : Z -> Z -> Prop :=
| slot_root r : In r rts -> slot g r r
| slot_large o f : In o L -> In f (fields_of m0 o) -> slot g f f
| slot_copy o f :
    In o (copied g) -> In f (fields_of m0 o) ->
    slot g f (copy_address g o + (f - o)).

(** slot [key], now at [loc], started with [v] *)
Definition slot_ok (g : progress) (h : heap (los := los)) (key loc v : Z)
    : Prop :=
  (In key (done g) ->
     load (memory h) loc = forwarded g v
     /\ (In v F -> In v (copied g))
     /\ (In v L -> marked (heap_large_object_space h) v = true))
  /\ (~ In key (done g) -> load (memory h) loc = v).

(** The invariant of the collection.  [pending] are the large objects whose
    scan is under way. *)
Record tracing (pending : list Z) (g : progress) (h : heap (los := los))
    : Prop := {
  tr_base : base (heap_semi_space h) = B;
  tr_size : size (heap_semi_space h) = SZ;
  tr_limit : limit (heap_semi_space h) = T + HALF;
  tr_hp : hp (heap_semi_space h) = T + total m0 (copied g);
  tr_perm : Permutation (copied g ++ white g) F;
  tr_white : forall o, In o (white g) -> load (memory h) o = kind_of m0 o;
  tr_white_fields : forall o f,
    In o (white g) -> In f (fields_of m0 o) -> ~ In f (done g);
  tr_forwarded : forall o,
    In o (copied g) -> load (memory h) o = copy_address g o;
  tr_from_body : forall o i,
    In o F -> 8 <= i < size_of m0 o -> memory h (o + i) = m0 (o + i);
  tr_copy_header : forall o,
    In o (copied g) -> load (memory h) (copy_address g o) = kind_of m0 o;
  tr_copy_body : forall o i,
    In o (copied g) -> 8 <= i < size_of m0 o -> ~ in_field m0 o i ->
    memory h (copy_address g o + i) = m0 (o + i);
  tr_large_header : forall o, In o L -> load (memory h) o = kind_of m0 o;
  tr_large_body : forall o i,
    In o L -> 8 <= i < size_of m0 o -> ~ in_field m0 o i ->
    memory h (o + i) = m0 (o + i);
  tr_slots : forall key loc,
    slot g key loc -> slot_ok g h key loc (load m0 key);
  tr_contains : forall o,
    In o L ->
    large_object_space_contains (heap_large_object_space h) o = true;
  tr_unmarked : forall o f,
    In o L -> marked (heap_large_object_space h) o = false ->
    In f (fields_of m0 o) -> ~ In f (done g);
  tr_marked : forall o,
    In o L -> marked (heap_large_object_space h) o = true ->
    In o pending \/ forall f, In f (fields_of m0 o) -> In f (done g);
  tr_pages : pages_ok (heap_large_object_space h);
  tr_reached : forall o,
    In o (copied g) -> reachable m0 F L rts o;
  tr_reached_large : forall o,
    In o L -> marked (heap_large_object_space h) o = true ->
    reachable m0 F L rts o
}.

(** the large objects not marked yet *)
Definition unmarked (h : heap (los := los)) : list Z :=
  filter (fun o => negb (marked (heap_large_object_space h) o)) L.

(** the ghost lists are a partition of the condemned objects *)
Definition progress_ok (g : progress) : Prop :=
  Permutation (copied g ++ white g) F.

(** what a visit or a scan that took the heap from [h] to [h'] has added
    to the progress, [keys] being the slots it was asked to visit *)
Record extends (h : heap (los := los)) (g g' : progress)
    (h' : heap (los := los)) (keys : list Z) : Prop := {
  ext_copied : exists more, copied g' = copied g ++ more;
  ext_done : forall x, In x (done g) -> In x (done g');
  ext_keys : forall x, In x keys -> In x (done g');
  ext_frame : forall x,
    In x (done g') ->
    In x (done g) \/ In x keys
    \/ exists o, In o L /\ marked (heap_large_object_space h) o = false
                 /\ In x (fields_of m0 o);
  ext_marks : forall x,
    marked (heap_large_object_space h) x = true ->
    marked (heap_large_object_space h') x = true;
  ext_white : (length (copied g') + length (white g')
               = length (copied g) + length (white g))%nat
}.

(** [scan_rec] scans any marked large object whose fields are untouched,
    in heaps with at most [n] unmarked large objects *)
Definition scans_large (scan_rec : heap -> Z -> outcome (Z * heap)) (n : nat)
    : Prop :=
  forall pending g h o,
    tracing (o :: pending) g h -> In o L ->
    marked (heap_large_object_space h) o = true ->
    (forall f, In f (fields_of m0 o) -> ~ In f (done g)) ->
    (length (unmarked h) <= n)%nat ->
    exists g' h' x,
      scan_rec h o = Done (x, h') /\ tracing pending g' h'
      /\ extends h g g' h' (fields_of m0 o).

(** the references a collection keeps alive *)
Definition kept (g : progress) (h : heap (los := los)) (v : Z) : Prop :=
  (In v F -> In v (copied g))
  /\ (In v L -> marked (heap_large_object_space h) v = true).

End Progress.

(** ** A heap of the benchmark with a cycle, shared objects, garbage
    and a large object *)

Module Sample.

(** Three root slots; in the upper half of the semi-space a node [a] whose
    [right] is [a] itself, a node [b], an array [c] of two doubles and a
    node nobody references; one large node [d].  Two roots hold [a], the
    third [b]; [a.left = b], [b.left = c], [b.right = d], [d.left = a]. *)
Definition a : Z := 98304.
Definition b : Z := 98336.
Definition c : Z := 98368.
Definition garbage : Z := 98400.
Definition d : Z := 1048576.

Definition root_slots : list Z := [4096; 4104; 4112].

Definition memory : mem :=
  Bench.store_words
    (Bench.store_words
       (Bench.store_words Bench.zero_memory 4096 [a; a; b])
       a [Bench.ALLOC_KIND_NODE; b; a; 0;
          Bench.ALLOC_KIND_NODE; c; d; 0;
          Bench.ALLOC_KIND_DOUBLE_ARRAY; 2; 0; 0;
          Bench.ALLOC_KIND_NODE; 0; 0; 0])
    d [Bench.ALLOC_KIND_NODE; a; 0; 0].

Definition space : semi_space := mk_semi_space 98432 131072 65536 65536 3.

Definition large : Bench.space :=
  Bench.mk_space [(d, 2)] [] 2 1056768.

Definition mut : mutator := mk_mutator (mk_heap memory space large) root_slots.

Definition small_objects : list Z := [a; b; c; garbage].
Definition large_objects : list Z := [d].

End Sample.

(** the bookkeeping invariant of the benchmark's large-object space: page
    counts are not negative and the pages of all objects fit the address
    space *)
Definition bench_pages_ok (l : Bench.space) : Prop :=
  Forall (fun o => 0 <= snd o) (Bench.objects l)
  /\ (Bench.pages_of (Bench.objects l) + 1) * Bench.page_size < Word.modulus.

(** ** The rest of the interface of [semi.h] *)

(** [init_field], [set_field], [get_field]: there is no barrier *)
Definition init_field (m : mem) (addr val : Z) : mem := store m addr val.
Definition set_field (m : mem) (addr val : Z) : mem := store m addr val.
Definition get_field (m : mem) (addr : Z) : Z := load m addr.

Section Interface.

Context {layout : ObjectLayout}.
Context {los : Type} {large_objects : LargeObjectSpace los}.
Variable page_size : Z.

Definition allocate_pointerless (fuel : nat) (mut : mutator (los := los))
    (kind size : Z) : outcome (Z * mutator) :=
  allocate page_size fuel mut kind size.

End Interface.

(** ** After a collection *)

Section Aftermath.

Context {layout : ObjectLayout}.
Context {los : Type} {large_objects : LargeObjectSpace los}.
Variable page_size : Z.
Variable marked : los -> Z -> bool.
Variable pages_ok : los -> Prop.

(** What is known of a collection of [mut] that has returned [mut']: the
    progress [g] and the heap [h] its trace ended with satisfy the
    invariant of the trace with nothing left to visit, and [mut'] is [h]
    after the large-object space has closed its cycle and the last steal
    has been made. *)
Record collected (mut mut' : mutator (los := los)) (F L : list Z)
    (g : progress) (h : heap (los := los)) : Prop := {
  col_placed :
    placement (memory (mutator_heap mut)) F L (roots mut)
      (base (mutator_semi_space mut)) (size (mutator_semi_space mut))
      (size (mutator_semi_space mut) / 2) (to_start (mutator_semi_space mut))
      (from_start (mutator_semi_space mut)) (hp (mutator_semi_space mut));
  col_traced :
    tracing marked pages_ok (memory (mutator_heap mut)) F L (roots mut)
      (base (mutator_semi_space mut)) (size (mutator_semi_space mut))
      (size (mutator_semi_space mut) / 2) (to_start (mutator_semi_space mut))
      [] g h;
  col_roots_done : forall r, In r (roots mut) -> In r (done g);
  col_fields_done : forall o f,
    In o (copied g) -> In f (fields_of (memory (mutator_heap mut)) o) ->
    In f (done g);
  col_roots : roots mut' = roots mut;
  col_large :
    heap_large_object_space (mutator_heap mut')
    = large_object_space_finish_gc (heap_large_object_space h);
  col_hp : hp (mutator_semi_space mut') = hp (heap_semi_space h);
  col_base : base (mutator_semi_space mut') = base (mutator_semi_space mut);
  col_size : size (mutator_semi_space mut') = size (mutator_semi_space mut);
  col_limit :
    hp (mutator_semi_space mut') <= limit (mutator_semi_space mut')
    /\ limit (mutator_semi_space mut')
       <= to_start (mutator_semi_space mut)
          + size (mutator_semi_space mut) / 2;
  col_aligned :
    hp (mutator_semi_space mut') mod 8 = 0
    /\ limit (mutator_semi_space mut') mod 8 = 0;
  col_frame : forall x,
    x < base (mutator_semi_space mut)
    \/ base (mutator_semi_space mut) + size (mutator_semi_space mut) <= x
    \/ to_start (mutator_semi_space mut) <= x < hp (mutator_semi_space mut') ->
    memory (mutator_heap mut') x = memory h x
}.

(** what a collection relies on when the large-object space closes a
    cycle, for the next cycle to start from a well-formed heap: the marked
    objects are still there, and the bookkeeping is still sane *)
Record large_object_space_sweeps : Prop := {
  finish_gc_contains : forall l x,
    large_object_space_contains l x = true -> marked l x = true ->
    large_object_space_contains (large_object_space_finish_gc l) x = true;
  finish_gc_pages_ok : forall l,
    pages_ok l -> pages_ok (large_object_space_finish_gc l)
}.

(** [n] collections in a row *)
Fixpoint collections (n : nat) (fuel : nat) (mut : mutator (los := los))
    : outcome mutator :=
  match n with
  | O => Done mut
  | S n => mut <- collect page_size fuel mut ;; collections n fuel mut
  end.

End Aftermath.

(** * Verification *)

(** ** Machine arithmetic *)

Lemma wrap_small (x : Z) : 0 <= x < Word.modulus -> Word.wrap x = x.
Proof. intros H. unfold Word.wrap. now apply Z.mod_small. Qed.

Lemma wrap_range (x : Z) : 0 <= Word.wrap x < Word.modulus.
Proof. unfold Word.wrap. apply Z.mod_pos_bound. reflexivity. Qed.

Lemma modulus_value : Word.modulus = 18446744073709551616.
Proof. reflexivity. Qed.

Lemma land_not_low3 (a : Z) :
  0 <= a < Word.modulus -> Z.land a (Word.not 7) = 8 * (a / 8).
Proof.
  intros Ha.
  assert (Hn : Word.not 7 = Z.lnot 7 + 2 ^ 64).
  { unfold Word.not, Word.wrap, Word.modulus. reflexivity. }
  rewrite Hn.
  apply Z.bits_inj'. intros n Hn0.
  rewrite Z.land_spec.
  replace (8 * (a / 8)) with (Z.shiftl (Z.shiftr a 3) 3)
    by (rewrite Z.shiftl_mul_pow2, Z.shiftr_div_pow2 by lia;
        change (2 ^ 3) with 8; lia).
  destruct (Z.ltb_spec n 3) as [Hlt | Hge].
  - rewrite Z.shiftl_spec_low by lia.
    replace (Z.lnot 7 + 2 ^ 64) with (2 ^ 64 - 8) by reflexivity.
    assert (Hb : Z.testbit (2 ^ 64 - 8) n = false).
    { assert (n = 0 \/ n = 1 \/ n = 2) as [-> | [-> | ->]] by lia; reflexivity. }
    rewrite Hb. apply andb_false_r.
  - rewrite Z.shiftl_spec by lia.
    rewrite Z.shiftr_spec by lia.
    replace (n - 3 + 3) with n by lia.
    destruct (Z.ltb_spec n 64) as [Hlt | Hge64].
    + assert (Hb : Z.testbit (Z.lnot 7 + 2 ^ 64) n = true).
      { replace (Z.lnot 7 + 2 ^ 64) with (2 ^ 64 - 8) by reflexivity.
        replace (2 ^ 64 - 8) with (Z.shiftl (Z.ones 61) 3) by reflexivity.
        rewrite Z.shiftl_spec by lia.
        apply Z.ones_spec_low. lia. }
      rewrite Hb. apply andb_true_r.
    + assert (Ha' : Z.testbit a n = false).
      { destruct (Z.eq_dec a 0) as [-> | Hnz]; [apply Z.bits_0 |].
        apply Z.bits_above_log2; [lia |].
        apply Z.log2_lt_pow2; [lia |].
        apply Z.lt_le_trans with (2 ^ 64); [apply Ha |].
        apply Z.pow_le_mono_r; lia. }
      rewrite Ha'. reflexivity.
Qed.

Lemma align_up_8 (a : Z) :
  align_up a ALIGNMENT = 8 * (Word.wrap (a + 7) / 8).
Proof.
  unfold align_up, ALIGNMENT, Word.and, Word.sub, Word.add.
  replace (Word.wrap (8 - 1)) with 7 by reflexivity.
  assert (E : Word.wrap (Word.wrap (a + 8) - 1) = Word.wrap (a + 7)).
  { unfold Word.wrap. rewrite Zminus_mod_idemp_l. f_equal. lia. }
  rewrite E. apply land_not_low3. apply wrap_range.
Qed.

Lemma align_up_8_small (a : Z) :
  0 <= a -> a + 7 < Word.modulus -> align_up a ALIGNMENT = 8 * ((a + 7) / 8).
Proof.
  intros H0 H1. rewrite align_up_8, wrap_small by lia. reflexivity.
Qed.

Lemma align_up_8_bounds (a : Z) :
  0 <= a -> a + 7 < Word.modulus ->
  a <= align_up a ALIGNMENT < a + 8 /\ align_up a ALIGNMENT mod 8 = 0.
Proof.
  intros H0 H1. rewrite align_up_8_small by assumption.
  pose proof (Z.div_mod (a + 7) 8 ltac:(lia)).
  pose proof (Z.mod_pos_bound (a + 7) 8 ltac:(lia)).
  split; [lia |].
  rewrite Z.mul_comm. apply Z.mod_mul. lia.
Qed.

Lemma align_up_8_aligned (a : Z) :
  0 <= a -> a + 7 < Word.modulus -> a mod 8 = 0 -> align_up a ALIGNMENT = a.
Proof.
  intros H0 H1 H8. rewrite align_up_8_small by assumption.
  pose proof (Z.div_mod a 8 ltac:(lia)).
  assert ((a + 7) / 8 = a / 8).
  { symmetry. apply Z.div_unique with (r := 7); lia. }
  lia.
Qed.

(** ** Memory *)

Lemma byte_at_range (m : mem) (a : Z) : 0 <= byte_at m a < 256.
Proof. unfold byte_at. apply Z.mod_pos_bound. lia. Qed.

Lemma load_range (m : mem) (a : Z) : 0 <= load m a < Word.modulus.
Proof.
  unfold load. rewrite modulus_value.
  pose proof (byte_at_range m a).
  pose proof (byte_at_range m (a + 1)).
  pose proof (byte_at_range m (a + 2)).
  pose proof (byte_at_range m (a + 3)).
  pose proof (byte_at_range m (a + 4)).
  pose proof (byte_at_range m (a + 5)).
  pose proof (byte_at_range m (a + 6)).
  pose proof (byte_at_range m (a + 7)).
  change (2 ^ 8) with 256. change (2 ^ 16) with 65536.
  change (2 ^ 24) with 16777216. change (2 ^ 32) with 4294967296.
  change (2 ^ 40) with 1099511627776. change (2 ^ 48) with 281474976710656.
  change (2 ^ 56) with 72057594037927936.
  lia.
Qed.

Lemma load_ext (m m' : mem) (a : Z) :
  (forall i, 0 <= i < 8 -> m' (a + i) = m (a + i)) -> load m' a = load m a.
Proof.
  intros H. unfold load, byte_at.
  pose proof (H 0 ltac:(lia)) as H0. rewrite Z.add_0_r in H0.
  rewrite H0, (H 1), (H 2), (H 3), (H 4), (H 5), (H 6), (H 7) by lia.
  reflexivity.
Qed.

Lemma store_byte_in (m : mem) (a v i : Z) :
  0 <= i < 8 -> store m a v (a + i) = (v / 2 ^ (8 * i)) mod 256.
Proof.
  intros Hi. unfold store.
  replace ((a <=? a + i) && (a + i <? a + 8)) with true
    by (symmetry; apply andb_true_iff; split;
        [apply Z.leb_le | apply Z.ltb_lt]; lia).
  replace (a + i - a) with i by lia. reflexivity.
Qed.

Lemma store_byte_out (m : mem) (a v x : Z) :
  x < a \/ a + 8 <= x -> store m a v x = m x.
Proof.
  intros Hx. unfold store.
  replace ((a <=? x) && (x <? a + 8)) with false; [reflexivity |].
  symmetry. apply andb_false_iff.
  destruct Hx; [left; apply Z.leb_gt | right; apply Z.ltb_ge]; lia.
Qed.

Lemma bytes_of_word (v : Z) :
  (v / 2 ^ (8 * 0)) mod 256
  + 2 ^ 8 * ((v / 2 ^ (8 * 1)) mod 256)
  + 2 ^ 16 * ((v / 2 ^ (8 * 2)) mod 256)
  + 2 ^ 24 * ((v / 2 ^ (8 * 3)) mod 256)
  + 2 ^ 32 * ((v / 2 ^ (8 * 4)) mod 256)
  + 2 ^ 40 * ((v / 2 ^ (8 * 5)) mod 256)
  + 2 ^ 48 * ((v / 2 ^ (8 * 6)) mod 256)
  + 2 ^ 56 * ((v / 2 ^ (8 * 7)) mod 256) = v mod 2 ^ 64.
Proof.
  assert (step : forall k, 0 <= k ->
            v mod 2 ^ (k + 8) = v mod 2 ^ k + 2 ^ k * ((v / 2 ^ k) mod 256)).
  { intros k Hk. rewrite Z.pow_add_r by lia. change (2 ^ 8) with 256.
    apply Z.rem_mul_r; [apply Z.pow_nonzero; lia | lia]. }
  pose proof (step 0 ltac:(lia)) as S0. pose proof (step 8 ltac:(lia)) as S1.
  pose proof (step 16 ltac:(lia)) as S2. pose proof (step 24 ltac:(lia)) as S3.
  pose proof (step 32 ltac:(lia)) as S4. pose proof (step 40 ltac:(lia)) as S5.
  pose proof (step 48 ltac:(lia)) as S6. pose proof (step 56 ltac:(lia)) as S7.
  clear step.
  change (0 + 8) with 8 in S0. change (8 + 8) with 16 in S1.
  change (16 + 8) with 24 in S2. change (24 + 8) with 32 in S3.
  change (32 + 8) with 40 in S4. change (40 + 8) with 48 in S5.
  change (48 + 8) with 56 in S6. change (56 + 8) with 64 in S7.
  change (8 * 0) with 0. change (8 * 1) with 8. change (8 * 2) with 16.
  change (8 * 3) with 24. change (8 * 4) with 32. change (8 * 5) with 40.
  change (8 * 6) with 48. change (8 * 7) with 56.
  change (2 ^ 0) with 1 in *. rewrite Z.mod_1_r in S0.
  rewrite S7, S6, S5, S4, S3, S2, S1, S0. lia.
Qed.

Lemma load_store_same (m : mem) (a v : Z) :
  load (store m a v) a = Word.wrap v.
Proof.
  unfold load, byte_at.
  pose proof (store_byte_in m a v 0 ltac:(lia)) as H0.
  rewrite Z.add_0_r in H0.
  rewrite H0, !store_byte_in by lia.
  rewrite !Z.mod_mod by lia.
  apply bytes_of_word.
Qed.

Lemma load_store_other (m : mem) (a v b : Z) :
  b + 8 <= a \/ a + 8 <= b -> load (store m a v) b = load m b.
Proof.
  intros H. apply load_ext. intros i Hi. apply store_byte_out. lia.
Qed.

Lemma blit_byte_in (m : mem) (dst src n i : Z) :
  0 <= i < n -> blit m dst src n (dst + i) = m (src + i).
Proof.
  intros Hi. unfold blit.
  replace ((dst <=? dst + i) && (dst + i <? dst + n)) with true
    by (symmetry; apply andb_true_iff; split;
        [apply Z.leb_le | apply Z.ltb_lt]; lia).
  f_equal. lia.
Qed.

Lemma blit_byte_out (m : mem) (dst src n x : Z) :
  x < dst \/ dst + n <= x -> blit m dst src n x = m x.
Proof.
  intros Hx. unfold blit.
  replace ((dst <=? x) && (x <? dst + n)) with false; [reflexivity |].
  symmetry. apply andb_false_iff.
  destruct Hx; [left; apply Z.leb_gt | right; apply Z.ltb_ge]; lia.
Qed.

Lemma load_blit_in (m : mem) (dst src n i : Z) :
  0 <= i -> i + 8 <= n ->
  load (blit m dst src n) (dst + i) = load m (src + i).
Proof.
  intros H0 H1. unfold load, byte_at.
  rewrite <- !Z.add_assoc.
  rewrite !blit_byte_in by lia.
  reflexivity.
Qed.

Lemma load_blit_out (m : mem) (dst src n b : Z) :
  b + 8 <= dst \/ dst + n <= b -> load (blit m dst src n) b = load m b.
Proof.
  intros H. apply load_ext. intros i Hi. apply blit_byte_out. lia.
Qed.

Lemma fill_byte_in (m : mem) (addr c n x : Z) :
  addr <= x < addr + n -> fill m addr c n x = c.
Proof.
  intros Hx. unfold fill.
  replace ((addr <=? x) && (x <? addr + n)) with true; [reflexivity |].
  symmetry. apply andb_true_iff.
  split; [apply Z.leb_le | apply Z.ltb_lt]; lia.
Qed.

Lemma fill_byte_out (m : mem) (addr c n x : Z) :
  x < addr \/ addr + n <= x -> fill m addr c n x = m x.
Proof.
  intros Hx. unfold fill.
  replace ((addr <=? x) && (x <? addr + n)) with false; [reflexivity |].
  symmetry. apply andb_false_iff.
  destruct Hx; [left; apply Z.leb_gt | right; apply Z.ltb_ge]; lia.
Qed.

Lemma load_fill_out (m : mem) (addr c n b : Z) :
  b + 8 <= addr \/ addr + n <= b -> load (fill m addr c n) b = load m b.
Proof.
  intros H. apply load_ext. intros i Hi. apply fill_byte_out. lia.
Qed.

(** the libc calls inside their contract *)
Lemma memcpy_apart (m : mem) (dst src n : Z) :
  dst + n <= Word.modulus -> src + n <= Word.modulus ->
  dst + n <= src \/ src + n <= dst ->
  memcpy m dst src n = Done (blit m dst src n).
Proof.
  intros Hd Hs Hap. unfold memcpy, in_address_space.
  apply Z.leb_le in Hd, Hs. rewrite Hd, Hs. cbn [andb].
  destruct Hap as [H | H]; apply Z.leb_le in H; rewrite H;
    [| rewrite orb_true_r]; reflexivity.
Qed.

Lemma memcpy_done (m m' : mem) (dst src n : Z) :
  memcpy m dst src n = Done m' ->
  m' = blit m dst src n
  /\ dst + n <= Word.modulus /\ src + n <= Word.modulus
  /\ (dst + n <= src \/ src + n <= dst).
Proof.
  unfold memcpy, in_address_space.
  destruct (Z.leb_spec (dst + n) Word.modulus); cbn [andb];
    [| discriminate].
  destruct (Z.leb_spec (src + n) Word.modulus); cbn [andb];
    [| discriminate].
  destruct (Z.leb_spec (dst + n) src); cbn [orb].
  - intros E. injection E as <-. auto.
  - destruct (Z.leb_spec (src + n) dst); [| discriminate].
    intros E. injection E as <-. auto.
Qed.

Lemma clear_memory_inside (m : mem) (addr n : Z) :
  addr + n <= Word.modulus ->
  clear_memory m addr n = Done (fill m addr 0 n).
Proof.
  intros H. unfold clear_memory, memset, in_address_space.
  apply Z.leb_le in H. rewrite H. reflexivity.
Qed.

Lemma clear_memory_outside (m : mem) (addr n : Z) :
  Word.modulus < addr + n ->
  clear_memory m addr n = Fatal undefined_behaviour.
Proof.
  intros H. unfold clear_memory, memset, in_address_space.
  apply Z.leb_gt in H. rewrite H. reflexivity.
Qed.

Lemma clear_memory_done (m m' : mem) (addr n : Z) :
  clear_memory m addr n = Done m' ->
  m' = fill m addr 0 n /\ addr + n <= Word.modulus.
Proof.
  unfold clear_memory, memset, in_address_space.
  destruct (Z.leb_spec (addr + n) Word.modulus); [| discriminate].
  intros E. injection E as <-. auto.
Qed.

(** ** The semi-space: flip, initialisation, page stealing *)

Lemma round_even_even (n : Z) : round_even n mod 2 = 0.
Proof.
  unfold round_even.
  pose proof (Z.mod_pos_bound n 2 ltac:(lia)).
  pose proof (Z.div_mod n 2 ltac:(lia)).
  assert (n mod 2 = 0 \/ n mod 2 = 1) as [E | E] by lia; rewrite E.
  - rewrite Z.add_0_r. exact E.
  - replace (n + 1) with (2 * (n / 2 + 1)) by lia.
    rewrite Z.mul_comm. apply Z.mod_mul. lia.
Qed.

Lemma half_bytes_nonneg (ps n : Z) : 0 <= n -> 0 <= ps -> 0 <= half_bytes ps n.
Proof.
  intros Hn Hps. unfold half_bytes, round_even.
  pose proof (Z.mod_pos_bound n 2 ltac:(lia)).
  apply Z.mul_nonneg_nonneg; [apply Z.div_pos; lia | lia].
Qed.

Lemma steal_half_size_exact (page_size n : Z) :
  0 <= n < Word.modulus -> 0 <= page_size ->
  round_even n * page_size < Word.modulus ->
  steal_half_size page_size n = half_bytes page_size n.
Proof.
  intros Hn Hp Hfit. unfold steal_half_size, half_bytes.
  pose proof (round_even_even n) as Heven.
  pose proof (Z.div_mod (round_even n) 2 ltac:(lia)) as Hdm.
  assert (Hle : n <= round_even n <= n + 1).
  { unfold round_even. pose proof (Z.mod_pos_bound n 2 ltac:(lia)). lia. }
  assert (En : even_pages n = round_even n \/ page_size = 0).
  { destruct (Z.eq_dec page_size 0) as [-> | Hnz]; [now right | left].
    unfold even_pages.
    change 1 with (Z.ones 1) at 1. rewrite Z.land_ones by lia.
    change (2 ^ 1) with 2.
    pose proof (Z.mod_pos_bound n 2 ltac:(lia)).
    unfold round_even in *.
    destruct (Z.eqb_spec (n mod 2) 0) as [E | E]; simpl; [lia |].
    unfold Word.add. rewrite wrap_small by nia. lia. }
  destruct En as [-> | ->].
  - unfold Word.mul, Word.shr. rewrite wrap_small by nia.
    rewrite Z.shiftr_div_pow2 by lia. change (2 ^ 1) with 2.
    replace (round_even n * page_size)
      with (round_even n / 2 * page_size * 2) by lia.
    apply Z.div_mul. lia.
  - unfold Word.mul, Word.shr. rewrite !Z.mul_0_r. reflexivity.
Qed.

Lemma steal_fields (page_size : Z) (m : mem) (space : semi_space) (n : Z) :
  let '(ok, space', _) := semi_space_steal_pages page_size m space n in
  hp space' = hp space /\ base space' = base space /\ size space' = size space
  /\ count space' = count space
  /\ (ok = false <-> free_capacity space < steal_half_size page_size n)
  /\ (ok = false -> space' = space)
  /\ (ok = true ->
      limit space' = Word.sub (limit space) (steal_half_size page_size n)).
Proof.
  unfold semi_space_steal_pages, free_capacity.
  destruct (Z.ltb_spec (Word.sub (limit space) (hp space))
                       (steal_half_size page_size n)) as [Hlt | Hge].
  - repeat split; auto; discriminate.
  - simpl. repeat split; auto; try discriminate; try lia.
Qed.

(** C5, as amended.  [semi_space_steal_pages] works with the even page
    count; as long as the byte size of that many pages fits a machine word,
    the half size is [n_even / 2 * page_size], the call fails exactly when
    the free capacity [limit - hp] is smaller than it and then changes
    nothing, and on success it lowers [limit] by exactly the half size and
    leaves [hp], [base] and [size] alone. *)
Theorem steal_pages_primitive (page_size : Z) (m : mem) (space : semi_space)
    (n : Z) :
  0 <= n < Word.modulus -> 0 <= page_size ->
  round_even n * page_size < Word.modulus ->
  0 <= hp space -> hp space <= limit space -> limit space < Word.modulus ->
  let '(ok, space', _) := semi_space_steal_pages page_size m space n in
  steal_half_size page_size n = half_bytes page_size n
  /\ (ok = false <-> limit space - hp space < half_bytes page_size n)
  /\ (ok = false -> space' = space)
  /\ (ok = true ->
      limit space' = limit space - half_bytes page_size n
      /\ hp space' = hp space /\ base space' = base space
      /\ size space' = size space).
Proof.
  intros Hn Hp Hfit Hhp Hle Hlim.
  pose proof (steal_fields page_size m space n) as H.
  pose proof (steal_half_size_exact page_size n Hn Hp Hfit) as E.
  destruct (semi_space_steal_pages page_size m space n) as [[ok space'] m'].
  destruct H as (Ehp & Ebase & Esize & _ & Hfail & Hsame & Hlimit).
  unfold free_capacity, Word.sub in *.
  rewrite wrap_small in Hfail by lia.
  rewrite E in *.
  split; [reflexivity |]. split; [exact Hfail |]. split; [exact Hsame |].
  intros Hok. specialize (Hlimit Hok).
  assert (Hnf : ~ limit space - hp space < half_bytes page_size n).
  { intros Hlt. apply Hfail in Hlt. congruence. }
  pose proof (half_bytes_nonneg page_size n ltac:(lia) Hp).
  rewrite wrap_small in Hlimit by lia.
  auto.
Qed.

Lemma steal_pages_primitive_witness :
  let space := mk_semi_space 98304 131072 65536 65536 0 in
  let '(ok, space', _) :=
    semi_space_steal_pages 4096 Bench.zero_memory space 3 in
  steal_half_size 4096 3 = half_bytes 4096 3
  /\ (ok = false <-> limit space - hp space < half_bytes 4096 3)
  /\ (ok = false -> space' = space)
  /\ (ok = true ->
      limit space' = limit space - half_bytes 4096 3
      /\ hp space' = hp space /\ base space' = base space
      /\ size space' = size space).
Proof.
  apply (steal_pages_primitive 4096 Bench.zero_memory
           (mk_semi_space 98304 131072 65536 65536 0) 3);
    vm_compute; try split; congruence.
Defined.

(** C5 as it is written fails where the byte size of the pages overflows a
    word: for 2^52 pages of 4096 bytes the product wraps to 0, the half
    size is 0 and the steal succeeds, although [limit - hp] is far smaller
    than [n_even / 2 * page_size]. *)
Lemma steal_pages_overflow_counterexample :
  let space := mk_semi_space 98304 131072 65536 65536 0 in
  let '(ok, space', _) :=
    semi_space_steal_pages 4096 Bench.zero_memory space (2 ^ 52) in
  limit space - hp space < half_bytes 4096 (2 ^ 52)
  /\ ok = true /\ limit space' = limit space.
Proof. vm_compute. repeat split. Qed.

(** C4, as amended.  A successful steal lowers the free capacity
    [limit - hp] of the active half by exactly the half size
    [n_even / 2 * page_size]: each of the two mirrored halves gives up half
    of the [n_even * page_size] bytes of the pages. *)
Theorem steal_pages_budget (page_size : Z) (m : mem) (space : semi_space)
    (n : Z) :
  0 <= n < Word.modulus -> 0 <= page_size ->
  round_even n * page_size < Word.modulus ->
  0 <= hp space -> hp space <= limit space -> limit space < Word.modulus ->
  let '(ok, space', _) := semi_space_steal_pages page_size m space n in
  ok = true ->
  free_capacity space' = free_capacity space - half_bytes page_size n
  /\ 2 * (free_capacity space - free_capacity space')
     = round_even n * page_size.
Proof.
  intros Hn Hp Hfit Hhp Hle Hlim.
  pose proof (steal_fields page_size m space n) as H.
  pose proof (steal_half_size_exact page_size n Hn Hp Hfit) as Ehalf.
  destruct (semi_space_steal_pages page_size m space n) as [[ok space'] m'].
  destruct H as (Eh & _ & _ & _ & Hfail & _ & El). intros E.
  specialize (El E). rewrite Ehalf in *.
  pose proof (half_bytes_nonneg page_size n ltac:(lia) Hp).
  unfold free_capacity, Word.sub in *.
  rewrite wrap_small in Hfail by lia.
  assert (Hnf : ~ limit space - hp space < half_bytes page_size n).
  { intros Hlt. apply Hfail in Hlt. congruence. }
  rewrite wrap_small in El by lia.
  rewrite El, Eh.
  rewrite !wrap_small by lia.
  split; [lia |].
  unfold half_bytes.
  pose proof (round_even_even n) as Heven.
  pose proof (Z.div_mod (round_even n) 2 ltac:(lia)) as Hdm.
  nia.
Qed.

Lemma steal_pages_budget_witness :
  let space := mk_semi_space 98304 131072 65536 65536 0 in
  let space' :=
    snd (fst (semi_space_steal_pages 4096 Bench.zero_memory space 3)) in
  free_capacity space' = free_capacity space - half_bytes 4096 3
  /\ 2 * (free_capacity space - free_capacity space') = round_even 3 * 4096.
Proof.
  exact (steal_pages_budget 4096 Bench.zero_memory
           (mk_semi_space 98304 131072 65536 65536 0) 3
           ltac:(vm_compute; split; congruence) ltac:(vm_compute; congruence)
           ltac:(vm_compute; reflexivity) ltac:(vm_compute; congruence)
           ltac:(vm_compute; congruence) ltac:(vm_compute; reflexivity)
           eq_refl).
Defined.

(** C4 as it is written fails: stealing 2 pages of 4096 bytes succeeds and
    lowers the free capacity by 4096 bytes, not by 2 * 4096. *)
Lemma steal_pages_budget_counterexample :
  let space := mk_semi_space 98304 131072 65536 65536 0 in
  let '(ok, space', _) :=
    semi_space_steal_pages 4096 Bench.zero_memory space 2 in
  ok = true
  /\ free_capacity space - free_capacity space' = 4096
  /\ free_capacity space - free_capacity space' <> round_even 2 * 4096.
Proof. vm_compute. repeat split; congruence. Qed.

Lemma flip_fresh_mapping (addr heap_size lim : Z) :
  0 <= addr -> 0 <= heap_size -> addr + heap_size < Word.modulus ->
  flip (mk_semi_space addr lim addr heap_size (-1))
  = mk_semi_space (addr + heap_size / 2) (addr + heap_size) addr heap_size 0.
Proof.
  intros Ha Hs Hfit. unfold flip. cbn [hp limit base size count].
  unfold Word.shr. rewrite Z.shiftr_div_pow2 by lia. change (2 ^ 1) with 2.
  pose proof (Z.div_mod heap_size 2 ltac:(lia)).
  pose proof (Z.mod_pos_bound heap_size 2 ltac:(lia)).
  unfold Word.add. rewrite !wrap_small by lia.
  destruct (Z.leb_spec addr (addr + heap_size / 2)); [| lia].
  reflexivity.
Qed.

(** ** Initialisation and allocation *)

Section CollectorFacts.

Context {layout : ObjectLayout}.
Context {los : Type} {large_objects : LargeObjectSpace los}.
Variable page_size : Z.

Lemma bind_done {X Y : Type} (x : outcome X) (k : X -> outcome Y) (y : Y) :
  bind x k = Done y -> exists a, x = Done a /\ k a = Done y.
Proof. destruct x as [a | d |]; cbn; try discriminate. eauto. Qed.

(** the trace of a collection leaves the counter alone *)
Lemma visit_with_count (s : heap (los := los) -> Z -> outcome (Z * heap)) :
  (forall h a x h', s h a = Done (x, h') ->
     count (heap_semi_space h') = count (heap_semi_space h)) ->
  forall h loc h',
    visit_with s h loc = Done h' ->
    count (heap_semi_space h') = count (heap_semi_space h).
Proof.
  intros Hs h loc h'. unfold visit_with.
  destruct (load (memory h) loc =? 0);
    [intros E; injection E as <-; reflexivity |].
  destruct (semi_space_contains _ _).
  - unfold visit_semi_space, forward.
    destruct (is_kind (load (memory h) (load (memory h) loc))) eqn:Ek.
    + unfold copy. rewrite Ek.
      destruct (memcpy _ _ _ _) as [m1 | d |]; cbn [bind];
        try discriminate.
      intros E. injection E as <-. reflexivity.
    + cbn [bind]. intros E. injection E as <-. reflexivity.
  - destruct (large_object_space_contains _ _); [| discriminate].
    unfold visit_large_object_space.
    destruct (large_object_space_copy _ _) as [first l].
    destruct first.
    + intros E. apply bind_done in E. destruct E as ([x h2] & E1 & E2).
      injection E2 as <-. rewrite (Hs _ _ _ _ E1). reflexivity.
    + intros E. injection E as <-. reflexivity.
Qed.

Lemma visit_each_count (s : heap (los := los) -> Z -> outcome (Z * heap)) :
  (forall h a x h', s h a = Done (x, h') ->
     count (heap_semi_space h') = count (heap_semi_space h)) ->
  forall locs h h',
    visit_each s h locs = Done h' ->
    count (heap_semi_space h') = count (heap_semi_space h).
Proof.
  intros Hs locs. induction locs as [| loc locs IH]; intros h h'; cbn.
  - intros E. injection E as <-. reflexivity.
  - intros E. apply bind_done in E. destruct E as (h1 & E1 & E2).
    rewrite (IH _ _ E2). exact (visit_with_count s Hs _ _ _ E1).
Qed.

Lemma scan_count (fuel : nat) :
  forall (h : heap (los := los)) a x h',
    scan fuel h a = Done (x, h') ->
    count (heap_semi_space h') = count (heap_semi_space h).
Proof.
  induction fuel as [| fuel IH]; intros h a x h'; cbn [scan];
    [discriminate |].
  unfold scan_with. destruct (is_kind _); [| discriminate].
  intros E. apply bind_done in E. destruct E as (h1 & E1 & E2).
  injection E2 as _ <-. exact (visit_each_count _ IH _ _ _ E1).
Qed.

Lemma scan_loop_count (steps fuel : nat) :
  forall (h : heap (los := los)) grey h',
    scan_loop steps fuel h grey = Done h' ->
    count (heap_semi_space h') = count (heap_semi_space h).
Proof.
  induction steps as [| steps IH]; intros h grey h'; cbn [scan_loop];
    [discriminate |].
  destruct (grey <? hp (heap_semi_space h)).
  - intros E. apply bind_done in E. destruct E as ([grey1 h1] & E1 & E2).
    rewrite (IH _ _ _ E2). exact (scan_count fuel _ _ _ _ E1).
  - intros E. injection E as <-. reflexivity.
Qed.

(** a collection that returns has counted itself: one flip, and nothing
    else touches the counter *)
Lemma collect_count (fuel : nat) (mut mut' : mutator (los := los)) :
  collect page_size fuel mut = Done mut' ->
  count (mutator_semi_space mut')
  = Word.signed (count (mutator_semi_space mut) + 1).
Proof.
  unfold collect. intros E.
  apply bind_done in E. destruct E as (h1 & E1 & E2).
  apply bind_done in E2. destruct E2 as (h2 & E2 & E3).
  apply (visit_each_count _ (scan_count fuel)) in E1.
  apply scan_loop_count in E2.
  cbn [heap_semi_space set_semi_space set_large_object_space] in *.
  pose proof (steal_fields page_size (memory h2) (heap_semi_space h2)
                (live_pages_at_last_collection
                   (large_object_space_finish_gc
                      (heap_large_object_space h2)))) as Hst.
  destruct (semi_space_steal_pages _ _ _ _) as [[ok space'] m'].
  destruct Hst as (_ & _ & _ & Hc & _).
  injection E3 as <-. unfold mutator_semi_space.
  cbn [mutator_heap heap_semi_space].
  rewrite Hc, E2, E1. unfold flip.
  destruct (hp (heap_semi_space (mutator_heap mut)) <=? _); reflexivity.
Qed.

(** the semi-space a successful initialisation leaves *)
Lemma initialize_gc_space (m : mem) (calloc : option los) (mapping : option Z)
    (heap_size : Z) (mut : mutator (los := los)) :
  0 <= heap_size ->
  (forall addr, mapping = Some addr ->
     0 <= addr /\ addr + heap_size < Word.modulus) ->
  initialize_gc m calloc mapping heap_size = Done (true, mut) ->
  exists addr,
    mapping = Some addr
    /\ mutator_semi_space mut
       = mk_semi_space (addr + heap_size / 2) (addr + heap_size) addr
           heap_size 0.
Proof.
  intros Hs Hmap. unfold initialize_gc, initialize_semi_space.
  destruct calloc as [zeroed |]; [| discriminate].
  destruct mapping as [addr |]; [| discriminate].
  destruct (Hmap addr eq_refl) as [Ha Hfit].
  cbn [limit]. rewrite (flip_fresh_mapping addr heap_size 0) by assumption.
  destruct (large_object_space_init zeroed) as [ok l].
  intros E. injection E as _ <-. exists addr. split; reflexivity.
Qed.

(** C10.  After a successful [initialize_gc] on a mapping that lies
    inside the address space, the active half is the upper one,
    [hp = base + size / 2] and [limit = base + size], and the counter is 0:
    the semi-space is the one flip of a space whose counter was set to -1.
    From there the counter counts the collections: every [collect] that
    returns has added one to it. *)
Theorem initial_state (m : mem) (calloc : option los) (mapping : option Z)
    (heap_size : Z) (mut : mutator (los := los)) :
  0 <= heap_size ->
  (forall addr, mapping = Some addr ->
     0 <= addr /\ addr + heap_size < Word.modulus) ->
  initialize_gc m calloc mapping heap_size = Done (true, mut) ->
  let space := mutator_semi_space mut in
  mapping = Some (base space)
  /\ size space = heap_size
  /\ space = flip (mk_semi_space (base space) 0 (base space) heap_size (-1))
  /\ hp space = base space + size space / 2
  /\ limit space = base space + size space
  /\ count space = 0
  /\ (forall (fuel : nat) (mut mut' : mutator (los := los)),
        collect page_size fuel mut = Done mut' ->
        count (mutator_semi_space mut')
        = Word.signed (count (mutator_semi_space mut) + 1)).
Proof.
  intros Hs Hmap. unfold initialize_gc, initialize_semi_space.
  destruct calloc as [zeroed |]; [| discriminate].
  destruct mapping as [addr |]; [| discriminate].
  destruct (Hmap addr eq_refl) as [Ha Hfit].
  cbn [limit]. rewrite (flip_fresh_mapping addr heap_size 0) by assumption.
  destruct (large_object_space_init zeroed) as [ok l].
  intros E. injection E as _ <-. cbn.
  rewrite ?(flip_fresh_mapping addr heap_size 0) by assumption.
  repeat split; try reflexivity. exact collect_count.
Qed.

(** what a returning [allocate_small] did in its last round *)
Lemma allocate_small_done (tries fuel : nat) (mut : mutator (los := los))
    (kind size addr : Z) (mut' : mutator) :
  allocate_small page_size tries fuel mut kind size = Done (addr, mut') ->
  exists (mut0 : mutator) (m' : mem),
    let h := mutator_heap mut0 in
    let space := heap_semi_space h in
    addr = hp space
    /\ align_up (Word.add addr size) ALIGNMENT <= limit space
    /\ clear_memory (store (memory h) addr kind) (Word.add addr 8)
         (Word.sub size 8) = Done m'
    /\ mut' = mk_mutator
                (mk_heap m'
                   (set_hp space (align_up (Word.add addr size) ALIGNMENT))
                   (heap_large_object_space h))
                (roots mut0).
Proof.
  revert mut. induction tries as [| tries IH]; intros mut; [discriminate |].
  cbn [allocate_small].
  destruct (Z.ltb_spec (limit (heap_semi_space (mutator_heap mut)))
              (align_up (Word.add (hp (heap_semi_space (mutator_heap mut))) size)
                 ALIGNMENT)) as [Hlt | Hge].
  - destruct (collect_for_alloc page_size fuel mut size) as [mut1 | d |];
      cbn [bind]; try discriminate.
    apply IH.
  - destruct (clear_memory _ _ _) as [m' | d |] eqn:Ec; cbn [bind];
      try discriminate.
    intros E. injection E as <- <-. exists mut, m'. cbn. auto.
Qed.

(** the length that the small path hands to [clear_memory] *)
Lemma zeroing_length (size : Z) :
  0 <= size < LARGE_OBJECT_THRESHOLD ->
  (size < 8 -> Word.sub size 8 = size - 8 + Word.modulus)
  /\ (8 <= size -> Word.sub size 8 = size - 8).
Proof.
  unfold LARGE_OBJECT_THRESHOLD. intros Hsize. split; intros H.
  - unfold Word.sub, Word.wrap.
    symmetry. apply Z.mod_unique with (q := -1); rewrite modulus_value; lia.
  - unfold Word.sub. apply wrap_small. rewrite modulus_value. lia.
Qed.

(** C9.  When the bump fits, the small path writes the header and hands
    [clear_memory] the length [size - sizeof (uintptr_t)], computed in
    unsigned arithmetic.  For [size < 8] it wraps to [size - 8 + 2^64]: the
    range to clear runs from the word after the header past the end of the
    address space, so the [memset] is made outside its contract and the
    call has no defined result; no call with such a size gives back a
    block.  For [8 <= size] the length is [size - 8], and a call that
    returns has cleared exactly the bytes of the block past the header. *)
Theorem zeroing_length_underflow (fuel : nat) (mut : mutator (los := los))
    (kind size : Z) :
  let h := mutator_heap mut in
  let space := heap_semi_space h in
  let addr := hp space in
  0 <= size < LARGE_OBJECT_THRESHOLD ->
  (align_up (Word.add addr size) ALIGNMENT <= limit space ->
   allocate page_size (S fuel) mut kind size
   = (m <- clear_memory (store (memory h) addr kind) (Word.add addr 8)
             (Word.sub size 8) ;;
      Done (addr,
            mk_mutator
              (mk_heap m
                 (set_hp space (align_up (Word.add addr size) ALIGNMENT))
                 (heap_large_object_space h))
              (roots mut))))
  /\ (size < 8 ->
   Word.sub size 8 = size - 8 + Word.modulus
   /\ (0 < addr -> addr + 8 < Word.modulus ->
       align_up (Word.add addr size) ALIGNMENT <= limit space ->
       clear_memory (store (memory h) addr kind) (Word.add addr 8)
         (Word.sub size 8) = Fatal undefined_behaviour
       /\ allocate page_size (S fuel) mut kind size
          = Fatal undefined_behaviour)
   /\ (forall ret mut',
         0 < ret -> ret + 8 < Word.modulus ->
         allocate page_size fuel mut kind size <> Done (ret, mut')))
  /\ (8 <= size ->
      Word.sub size 8 = size - 8
      /\ forall ret mut',
          allocate page_size fuel mut kind size = Done (ret, mut') ->
          exists m0 : mem,
            let m' := memory (mutator_heap mut') in
            let start := Word.add ret 8 in
            clear_memory (store m0 ret kind) start (Word.sub size 8) = Done m'
            /\ (forall x, start <= x < start + (size - 8) -> m' x = 0)
            /\ (forall x, x < start \/ start + (size - 8) <= x ->
                  m' x = store m0 ret kind x)).
Proof.
  intros h space addr Hsize.
  destruct (zeroing_length size Hsize) as [Hwrap Hexact].
  pose proof modulus_value as HM.
  assert (Hsmall : allocate page_size fuel mut kind size
                   = allocate_small page_size fuel fuel mut kind size).
  { unfold allocate.
    destruct (Z.leb_spec LARGE_OBJECT_THRESHOLD size); [lia | reflexivity]. }
  split; [| split].
  - intros Hroom. unfold allocate.
    destruct (Z.leb_spec LARGE_OBJECT_THRESHOLD size); [lia |].
    cbn [allocate_small]. fold h space addr.
    destruct (Z.ltb_spec (limit space)
                (align_up (Word.add addr size) ALIGNMENT)); [lia |].
    reflexivity.
  - intros Hlt. specialize (Hwrap Hlt). split; [exact Hwrap |]. split.
    + intros Hpos Htop Hroom.
      assert (E8 : Word.add addr 8 = addr + 8)
        by (unfold Word.add; apply wrap_small; lia).
      assert (Ec : clear_memory (store (memory h) addr kind) (Word.add addr 8)
                     (Word.sub size 8) = Fatal undefined_behaviour).
      { apply clear_memory_outside. rewrite E8, Hwrap. lia. }
      split; [exact Ec |].
      unfold allocate.
      destruct (Z.leb_spec LARGE_OBJECT_THRESHOLD size); [lia |].
      cbn [allocate_small]. fold h space addr.
      destruct (Z.ltb_spec (limit space)
                  (align_up (Word.add addr size) ALIGNMENT)); [lia |].
      rewrite Ec. reflexivity.
    + intros ret mut' Hpos Htop E. rewrite Hsmall in E.
      apply allocate_small_done in E.
      destruct E as (mut0 & m' & _ & _ & Ec & _).
      apply clear_memory_done in Ec. destruct Ec as [_ Hin].
      assert (E8 : Word.add ret 8 = ret + 8)
        by (unfold Word.add; apply wrap_small; lia).
      rewrite E8, Hwrap in Hin. lia.
  - intros Hge. specialize (Hexact Hge). split; [exact Hexact |].
    intros ret mut' E. rewrite Hsmall in E.
    apply allocate_small_done in E.
    destruct E as (mut0 & m' & _ & _ & Ec & ->).
    exists (memory (mutator_heap mut0)). cbn [memory mutator_heap].
    split; [exact Ec |].
    apply clear_memory_done in Ec. destruct Ec as [-> _].
    rewrite Hexact. split.
    + intros x Hx. apply fill_byte_in. exact Hx.
    + intros x Hx. apply fill_byte_out. exact Hx.
Qed.

(** C6.  [collect_for_alloc] runs a full collection first; when that
    returns, the call aborts with the out-of-space diagnostic exactly when
    the free capacity [limit - hp] of the new tospace is smaller than
    [bytes], and returns the collected heap otherwise.  It is what the small
    path of [allocate] does, and all it does, when the bump does not fit. *)
Theorem heap_exhaustion_is_fatal (fuel : nat) (mut : mutator (los := los))
    (bytes : Z) :
  match collect page_size fuel mut with
  | Done mut1 =>
      let space := mutator_semi_space mut1 in
      (free_capacity space < bytes <->
       collect_for_alloc page_size fuel mut bytes
       = Fatal (ran_out_of_space (size space)))
      /\ (bytes <= free_capacity space <->
          collect_for_alloc page_size fuel mut bytes = Done mut1)
  | Fatal d => collect_for_alloc page_size fuel mut bytes = Fatal d
  | Timeout => collect_for_alloc page_size fuel mut bytes = Timeout
  end
  /\ forall tries kind,
      limit (mutator_semi_space mut)
      < align_up (Word.add (hp (mutator_semi_space mut)) bytes) ALIGNMENT ->
      allocate_small page_size (S tries) fuel mut kind bytes
      = (mut1 <- collect_for_alloc page_size fuel mut bytes ;;
         allocate_small page_size tries fuel mut1 kind bytes).
Proof.
  split.
  - unfold collect_for_alloc.
    destruct (collect page_size fuel mut) as [mut1 | d |]; cbn [bind];
      try reflexivity.
    unfold free_capacity.
    destruct (Z.ltb_spec
                (Word.sub (limit (mutator_semi_space mut1))
                   (hp (mutator_semi_space mut1))) bytes) as [Hlt | Hge].
    + split; split; intros H;
        first [reflexivity | lia | discriminate | assumption].
    + split; split; intros H;
        first [reflexivity | lia | discriminate | assumption].
  - intros tries kind Hlt. cbn [allocate_small].
    unfold mutator_semi_space in Hlt.
    apply Z.ltb_lt in Hlt. rewrite Hlt. reflexivity.
Qed.

(** a failed steal leaves the mutator as it was *)
Lemma steal_from_failed (mut : mutator (los := los)) (npages : Z) :
  fst (steal_from page_size mut npages) = false ->
  mutator_semi_space (snd (steal_from page_size mut npages))
  = mutator_semi_space mut
  /\ memory (mutator_heap (snd (steal_from page_size mut npages)))
     = memory (mutator_heap mut).
Proof.
  unfold steal_from, semi_space_steal_pages.
  destruct (Word.sub _ _ <? _); cbn; [auto | discriminate].
Qed.

Lemma steal_from_failed_same (mut : mutator (los := los)) (n : Z) :
  fst (steal_from page_size mut n) = false ->
  snd (steal_from page_size mut n) = mut.
Proof.
  destruct mut as [[m space l] rts].
  unfold steal_from, semi_space_steal_pages.
  cbn [mutator_heap memory heap_semi_space heap_large_object_space roots].
  destruct (Word.sub _ _ <? _); cbn; [reflexivity | discriminate].
Qed.

(** a steal never moves the bump pointer *)
Lemma steal_from_hp (mut : mutator (los := los)) (n : Z) :
  hp (mutator_semi_space (snd (steal_from page_size mut n)))
  = hp (mutator_semi_space mut).
Proof.
  unfold steal_from, mutator_semi_space.
  pose proof (steal_fields page_size (memory (mutator_heap mut))
                (heap_semi_space (mutator_heap mut)) n) as H.
  destruct (semi_space_steal_pages _ _ _ _) as [[ok space'] m'].
  cbn. tauto.
Qed.

(** C7.  [allocate_large] turns the size into a page count, then reserves
    the budget: one steal; if it fails, one collection and one more steal,
    whose failure is the out-of-space abort.  With the budget reserved it
    asks the fast path and, on [NULL], the slow path; a [NULL] from both is
    an abort of its own, with a diagnostic that is not the out-of-space
    one.  A placed block is tagged with [kind]. *)
Theorem allocate_large_protocol (fuel : nat) (mut : mutator (los := los))
    (kind bytes : Z) :
  let l := heap_large_object_space (mutator_heap mut) in
  let npages := large_object_space_npages l bytes in
  allocate_large page_size fuel mut kind bytes
  = (mut' <- reserve_large page_size fuel mut npages ;;
     place_large mut' npages kind)
  /\ (fst (steal_from page_size mut npages) = true ->
      reserve_large page_size fuel mut npages
      = Done (snd (steal_from page_size mut npages)))
  /\ (fst (steal_from page_size mut npages) = false ->
      match collect page_size fuel (snd (steal_from page_size mut npages)) with
      | Done mut2 =>
          (fst (steal_from page_size mut2 npages) = true ->
           reserve_large page_size fuel mut npages
           = Done (snd (steal_from page_size mut2 npages)))
          /\ (fst (steal_from page_size mut2 npages) = false ->
              reserve_large page_size fuel mut npages
              = Fatal (ran_out_of_space (size (mutator_semi_space mut2))))
      | Fatal d => reserve_large page_size fuel mut npages = Fatal d
      | Timeout => reserve_large page_size fuel mut npages = Timeout
      end)
  /\ (forall mut' : mutator,
        let l' := heap_large_object_space (mutator_heap mut') in
        let fast := large_object_space_alloc l' npages in
        let slow := large_object_space_obtain_and_alloc (snd fast) npages in
        (fst fast <> 0 ->
         exists mut'', place_large mut' npages kind = Done (fst fast, mut'')
           /\ load (memory (mutator_heap mut'')) (fst fast) = Word.wrap kind)
        /\ (fst fast = 0 -> fst slow <> 0 ->
            exists mut'', place_large mut' npages kind = Done (fst slow, mut'')
              /\ load (memory (mutator_heap mut'')) (fst slow) = Word.wrap kind)
        /\ (fst fast = 0 -> fst slow = 0 ->
            place_large mut' npages kind = Fatal weird_mmap_failure))
  /\ (forall heap_size, weird_mmap_failure <> ran_out_of_space heap_size).
Proof.
  cbv zeta. split; [reflexivity |]. split; [| split; [| split]].
  - unfold reserve_large.
    destruct (steal_from page_size mut _) as [ok mut1]. cbn [fst snd].
    intros ->. reflexivity.
  - unfold reserve_large.
    pose proof (steal_from_failed mut
                  (large_object_space_npages
                     (heap_large_object_space (mutator_heap mut)) bytes)) as Hsame.
    destruct (steal_from page_size mut _) as [ok mut1]. cbn [fst snd] in *.
    intros ->. specialize (Hsame eq_refl).
    destruct (collect page_size fuel mut1) as [mut2 | d |]; cbn [bind];
      try reflexivity.
    pose proof (steal_from_failed mut2
                  (large_object_space_npages
                     (heap_large_object_space (mutator_heap mut)) bytes)) as Hsame2.
    destruct (steal_from page_size mut2 _) as [ok2 mut3]. cbn [fst snd] in *.
    split; intros ->; [reflexivity |].
    destruct (Hsame2 eq_refl) as [-> _]. reflexivity.
  - intros mut'. unfold place_large, obtain_large.
    destruct (large_object_space_alloc _ _) as [ret1 l1]. cbn [fst snd].
    split; [| split].
    + intros Hnz. apply Z.eqb_neq in Hnz. rewrite Hnz, Hnz.
      eexists. split; [reflexivity |]. cbn. apply load_store_same.
    + intros -> Hnz. cbn [Z.eqb].
      destruct (large_object_space_obtain_and_alloc l1 _) as [ret2 l2].
      cbn [fst snd] in *. apply Z.eqb_neq in Hnz. rewrite Hnz.
      eexists. split; [reflexivity |]. cbn. apply load_store_same.
    + intros -> E. cbn [Z.eqb].
      destruct (large_object_space_obtain_and_alloc l1 _) as [ret2 l2].
      cbn [fst snd] in *. subst ret2. reflexivity.
  - intros heap_size. discriminate.
Qed.

(** C3, as amended.  Sizes of [LARGE_OBJECT_THRESHOLD] and more are routed
    to [allocate_large], which tags the block it obtains with [kind]; the
    bump pointer stays where it is when the first steal succeeds, and is
    where the collection left it when [allocate_large] had to collect.
    Below the threshold: when [align_up (hp + size)] exceeds [limit],
    [collect_for_alloc] runs and the allocation is retried; otherwise, for
    [8 <= size], [hp] is advanced to [align_up (hp + size)] -- [size]
    rounded up to 8 bytes when [hp] is aligned --, the pre-bump address is
    returned, its header word is [kind], the bytes from the one after the
    header up to [size] are zero, and every other byte keeps its value, the
    padding between [size] and the new [hp] included. *)
Theorem allocate_contract (fuel : nat) (mut : mutator (los := los))
    (kind bytes : Z) :
  0 <= kind < Word.modulus ->
  let h := mutator_heap mut in
  let space := heap_semi_space h in
  let addr := hp space in
  let npages := large_object_space_npages (heap_large_object_space h) bytes in
  (LARGE_OBJECT_THRESHOLD <= bytes ->
   allocate page_size fuel mut kind bytes
   = allocate_large page_size fuel mut kind bytes
   /\ forall ret mut',
       allocate page_size fuel mut kind bytes = Done (ret, mut') ->
       load (memory (mutator_heap mut')) ret = kind
       /\ (fst (steal_from page_size mut npages) = true ->
           hp (mutator_semi_space mut') = addr)
       /\ (fst (steal_from page_size mut npages) = false ->
           exists mut2,
             collect page_size fuel mut = Done mut2
             /\ hp (mutator_semi_space mut')
                = hp (mutator_semi_space mut2)))
  /\ (bytes < LARGE_OBJECT_THRESHOLD ->
      limit space < align_up (Word.add addr bytes) ALIGNMENT ->
      allocate page_size (S fuel) mut kind bytes
      = (mut1 <- collect_for_alloc page_size (S fuel) mut bytes ;;
         allocate_small page_size fuel (S fuel) mut1 kind bytes))
  /\ (8 <= bytes < LARGE_OBJECT_THRESHOLD ->
      0 <= addr -> addr + bytes + 7 < Word.modulus ->
      align_up (Word.add addr bytes) ALIGNMENT <= limit space ->
      exists mut',
        let h' := mutator_heap mut' in
        let space' := heap_semi_space h' in
        allocate page_size (S fuel) mut kind bytes = Done (addr, mut')
        /\ hp space' = align_up (addr + bytes) ALIGNMENT
        /\ addr + bytes <= hp space' < addr + bytes + 8
        /\ (addr mod 8 = 0 -> hp space' = addr + 8 * ((bytes + 7) / 8))
        /\ limit space' = limit space /\ base space' = base space
        /\ size space' = size space
        /\ load (memory h') addr = kind
        /\ (forall x, addr + 8 <= x < addr + bytes -> memory h' x = 0)
        /\ (forall x, addr + bytes <= x < hp space' ->
              memory h' x = memory h x)
        /\ (forall x, x < addr \/ addr + bytes <= x ->
              memory h' x = memory h x)
        /\ roots mut' = roots mut
        /\ heap_large_object_space h' = heap_large_object_space h).
Proof.
  intros Hkind. cbv zeta. unfold LARGE_OBJECT_THRESHOLD.
  split; [| split].
  - intros Hbig. unfold allocate, LARGE_OBJECT_THRESHOLD.
    destruct (Z.leb_spec 8192 bytes) as [_ | Hlt]; [| lia].
    split; [reflexivity |].
    intros ret mut'. unfold allocate_large, reserve_large.
    set (npages := large_object_space_npages _ _).
    pose proof (steal_from_hp mut npages) as Hhp1.
    pose proof (steal_from_failed_same mut npages) as Hsame.
    destruct (steal_from page_size mut npages) as [ok mut1].
    cbn [fst snd] in *.
    assert (Hplace : forall (mut0 : mutator (los := los)),
              place_large mut0 npages kind = Done (ret, mut') ->
              load (memory (mutator_heap mut')) ret = kind
              /\ hp (mutator_semi_space mut') = hp (mutator_semi_space mut0)).
    { intros mut0. unfold place_large.
      destruct (obtain_large _ _) as [r l].
      destruct (r =? 0); [discriminate |].
      intros E. injection E as <- <-. cbn. split; [| reflexivity].
      rewrite load_store_same. apply wrap_small. exact Hkind. }
    destruct ok.
    + cbn [bind]. intros E. destruct (Hplace mut1 E) as [Hk Hhp].
      split; [exact Hk |].
      split; [intros _; rewrite Hhp, Hhp1; reflexivity | discriminate].
    + rewrite (Hsame eq_refl).
      destruct (collect page_size fuel mut) as [mut2 | d |] eqn:Ecol;
        cbn [bind]; try discriminate.
      pose proof (steal_from_hp mut2 npages) as Hhp3.
      destruct (steal_from page_size mut2 npages) as [ok2 mut3].
      cbn [fst snd] in *. destruct ok2; cbn [bind]; [| discriminate].
      intros E. destruct (Hplace mut3 E) as [Hk Hhp].
      split; [exact Hk |]. split; [discriminate |].
      intros _. exists mut2. split; [reflexivity |].
      rewrite Hhp, Hhp3. reflexivity.
  - intros Hsmall Hfull. unfold allocate, LARGE_OBJECT_THRESHOLD.
    destruct (Z.leb_spec 8192 bytes) as [Hbig | _]; [lia |].
    cbn [allocate_small]. apply Z.ltb_lt in Hfull. rewrite Hfull.
    reflexivity.
  - intros Hsize Haddr Hfit Hroom. unfold allocate, LARGE_OBJECT_THRESHOLD.
    destruct (Z.leb_spec 8192 bytes) as [Hbig | _]; [lia |].
    cbn [allocate_small].
    destruct (Z.ltb_spec (limit (heap_semi_space (mutator_heap mut)))
                (align_up
                   (Word.add (hp (heap_semi_space (mutator_heap mut))) bytes)
                   ALIGNMENT)) as [Hlt | _]; [lia |].
    set (addr := hp (heap_semi_space (mutator_heap mut))) in *.
    assert (Eadd : Word.add addr bytes = addr + bytes).
    { unfold Word.add. apply wrap_small. lia. }
    assert (Eadd8 : Word.add addr 8 = addr + 8).
    { unfold Word.add. apply wrap_small. lia. }
    assert (Esub : Word.sub bytes 8 = bytes - 8).
    { unfold Word.sub. apply wrap_small. rewrite modulus_value. lia. }
    rewrite Eadd, Eadd8, Esub.
    rewrite clear_memory_inside by lia. cbn [bind].
    pose proof (align_up_8_bounds (addr + bytes) ltac:(lia) ltac:(lia))
      as [Hb Hal].
    eexists. split; [reflexivity |].
    cbn [mutator_heap heap_semi_space memory hp limit base size roots
         heap_large_object_space set_hp].
    split; [reflexivity |]. split; [lia |]. split.
    { intros Hmod. rewrite align_up_8_small by lia.
      pose proof (Z.div_mod addr 8 ltac:(lia)) as Hdm.
      rewrite Hmod, Z.add_0_r in Hdm.
      replace (addr + bytes + 7) with ((bytes + 7) + addr / 8 * 8) by lia.
      rewrite Z.div_add by lia. lia. }
    repeat (split; [reflexivity |]).
    split.
    { rewrite load_fill_out by lia.
      rewrite load_store_same. apply wrap_small. exact Hkind. }
    split.
    { intros x Hx. apply fill_byte_in. lia. }
    assert (Hout : forall x, x < addr \/ addr + bytes <= x ->
              fill (store (memory (mutator_heap mut)) addr kind) (addr + 8) 0
                (bytes - 8) x = memory (mutator_heap mut) x).
    { intros x Hx. rewrite fill_byte_out by lia. apply store_byte_out. lia. }
    split; [intros x Hx; apply Hout; lia |].
    split; [exact Hout | split; reflexivity].
Qed.

End CollectorFacts.

(** ** Initialisation and allocation on a fresh heap of the benchmark *)

Lemma initial_state_witness :
  initialize_gc Bench.zero_memory (Some (Bench.empty_space 1048576))
    (Some 65536) 65536 = Done (true, Bench.fresh)
  /\ (let space := mutator_semi_space Bench.fresh in
      Some 65536 = Some (base space)
      /\ size space = 65536
      /\ space = flip (mk_semi_space (base space) 0 (base space) 65536 (-1))
      /\ hp space = base space + size space / 2
      /\ limit space = base space + size space
      /\ count space = 0
      /\ (forall (fuel : nat) (mut mut' : mutator (los := Bench.space)),
            collect Bench.page_size fuel mut = Done mut' ->
            count (mutator_semi_space mut')
            = Word.signed (count (mutator_semi_space mut) + 1))).
Proof.
  split; [reflexivity |].
  refine (initial_state Bench.page_size Bench.zero_memory
            (Some (Bench.empty_space 1048576)) (Some 65536) 65536
            Bench.fresh _ _ eq_refl).
  - lia.
  - intros addr E. injection E as <-. vm_compute. split; congruence.
Defined.

Lemma zeroing_length_underflow_witness :
  Word.sub 4 8 = 4 - 8 + Word.modulus
  /\ allocate Bench.page_size 1 Bench.fresh Bench.ALLOC_KIND_NODE 4
     = Fatal undefined_behaviour.
Proof.
  destruct (zeroing_length_underflow Bench.page_size 0 Bench.fresh
              Bench.ALLOC_KIND_NODE 4 ltac:(vm_compute; split; congruence))
    as (_ & Hlt & _).
  destruct (Hlt ltac:(lia)) as (Hwrap & Hbump & _).
  split; [exact Hwrap |].
  apply Hbump.
  - vm_compute. reflexivity.
  - vm_compute. reflexivity.
  - vm_compute. congruence.
Defined.

Lemma allocate_contract_witness :
  exists mut',
    allocate Bench.page_size 1 Bench.fresh Bench.ALLOC_KIND_NODE 32
    = Done (98304, mut')
    /\ hp (mutator_semi_space mut') = 98336
    /\ load (memory (mutator_heap mut')) 98304 = Bench.ALLOC_KIND_NODE
    /\ forall x, 98304 + 8 <= x < 98304 + 32 ->
         memory (mutator_heap mut') x = 0.
Proof.
  destruct (allocate_contract Bench.page_size 0 Bench.fresh
              Bench.ALLOC_KIND_NODE 32 ltac:(vm_compute; split; congruence))
    as (_ & _ & H).
  destruct (H ltac:(vm_compute; split; congruence)
              ltac:(vm_compute; congruence) ltac:(vm_compute; reflexivity)
              ltac:(vm_compute; congruence))
    as (mut' & E & Ehp & _ & _ & _ & _ & _ & Eload & Ezero & _).
  exists mut'. repeat split; assumption.
Defined.

(** C3 as it is written fails on the large path: a request of 8192 bytes
    fits below [limit] as far as the bump pointer is concerned, yet the
    block comes from the large-object space and [hp] stays where it was. *)
Lemma allocate_large_route_counterexample :
  let space := mutator_semi_space Bench.fresh in
  let r := result_of
             (allocate Bench.page_size 1 Bench.fresh Bench.ALLOC_KIND_NODE 8192)
             (0, Bench.fresh) in
  align_up (Word.add (hp space) 8192) ALIGNMENT <= limit space
  /\ allocate Bench.page_size 1 Bench.fresh Bench.ALLOC_KIND_NODE 8192
     = Done r
  /\ fst r <> hp space
  /\ hp (mutator_semi_space (snd r))
     <> align_up (Word.add (hp space) 8192) ALIGNMENT.
Proof.
  split; [vm_compute; congruence |].
  split; [reflexivity |].
  split; vm_compute; congruence.
Qed.

Lemma heap_exhaustion_is_fatal_witness :
  collect_for_alloc Bench.page_size 1 Bench.fresh 32768
  = Done (result_of (collect Bench.page_size 1 Bench.fresh) Bench.fresh)
  /\ collect_for_alloc Bench.page_size 1 Bench.fresh 32769
     = Fatal (ran_out_of_space 65536).
Proof.
  pose proof (heap_exhaustion_is_fatal Bench.page_size 1 Bench.fresh 32768)
    as [H1 _].
  pose proof (heap_exhaustion_is_fatal Bench.page_size 1 Bench.fresh 32769)
    as [H2 _].
  change (collect Bench.page_size 1 Bench.fresh)
    with (Done (result_of (collect Bench.page_size 1 Bench.fresh) Bench.fresh))
    in H1, H2.
  cbv iota beta zeta in H1, H2.
  split.
  - apply (proj1 (proj2 H1)). vm_compute. congruence.
  - apply (proj1 (proj1 H2)). vm_compute. reflexivity.
Defined.

Lemma allocate_large_protocol_witness :
  exists mut' mut'',
    reserve_large Bench.page_size 1 Bench.fresh 2 = Done mut'
    /\ place_large mut' 2 Bench.ALLOC_KIND_DOUBLE_ARRAY = Done (1048576, mut'')
    /\ load (memory (mutator_heap mut'')) 1048576 = Bench.ALLOC_KIND_DOUBLE_ARRAY.
Proof.
  pose proof (allocate_large_protocol Bench.page_size 1 Bench.fresh
                Bench.ALLOC_KIND_DOUBLE_ARRAY 8192) as (_ & Hres & _ & Hplace & _).
  cbv zeta in Hres, Hplace.
  change (large_object_space_npages
            (heap_large_object_space (mutator_heap Bench.fresh)) 8192)
    with 2 in Hres, Hplace.
  specialize (Hres eq_refl).
  exists (snd (steal_from Bench.page_size Bench.fresh 2)).
  destruct (Hplace (snd (steal_from Bench.page_size Bench.fresh 2)))
    as (_ & Hslow & _).
  destruct (Hslow eq_refl ltac:(vm_compute; congruence)) as (mut'' & E & El).
  exists mut''. split; [exact Hres |]. split; [exact E | exact El].
Defined.

(** opening the invariant records, with the names of their fields *)
Ltac open_fields H :=
  destruct H as [tr_base tr_size tr_limit tr_hp tr_perm tr_white
                 tr_white_fields tr_forwarded tr_from_body tr_copy_header
                 tr_copy_body tr_large_header tr_large_body tr_slots
                 tr_contains tr_unmarked tr_marked tr_pages tr_reached
                 tr_reached_large].

Ltac open_well_formed H :=
  destruct H as [wf_page_size wf_base wf_top wf_power_of_two wf_capacity
                 wf_tags wf_tiled wf_small wf_large wf_large_outside
                 wf_large_apart wf_large_known wf_pages wf_roots_apart
                 wf_roots_outside wf_roots_refs].

(** ** Layouts *)

Section Layouts.

Context {layout : ObjectLayout}.
Variable m0 : mem.

Lemma aligned_size_bounds (o : Z) :
  8 <= size_of m0 o < 2 ^ 62 ->
  size_of m0 o <= aligned_size_of m0 o < size_of m0 o + 8.
Proof.
  intros H. unfold aligned_size_of.
  apply align_up_8_bounds; [lia |].
  rewrite modulus_value. change (2 ^ 62) with 4611686018427387904 in H. lia.
Qed.

Lemma sized_of_ok (refs : Z -> Prop) (objs : list Z) :
  Forall (object_ok m0 refs) objs -> sized m0 objs.
Proof.
  unfold sized. apply Forall_impl. intros o H. apply (ok_size _ _ _ H).
Qed.

Lemma sized_in (objs : list Z) (o : Z) :
  sized m0 objs -> In o objs ->
  8 <= size_of m0 o /\ size_of m0 o <= aligned_size_of m0 o < size_of m0 o + 8.
Proof.
  intros Hs Hin. unfold sized in Hs. rewrite Forall_forall in Hs.
  specialize (Hs o Hin). pose proof (aligned_size_bounds o Hs). lia.
Qed.

Lemma total_app (a b : list Z) : total m0 (a ++ b) = total m0 a + total m0 b.
Proof. induction a as [| x a IH]; cbn; [reflexivity | rewrite IH; lia]. Qed.

Lemma total_nonneg (objs : list Z) : sized m0 objs -> 0 <= total m0 objs.
Proof.
  induction objs as [| x objs IH]; intros Hs; cbn; [lia |].
  pose proof (sized_in (x :: objs) x Hs (or_introl eq_refl)).
  inversion Hs; subst. specialize (IH H3). lia.
Qed.

Lemma total_perm (a b : list Z) :
  Permutation a b -> total m0 a = total m0 b.
Proof. induction 1; cbn; lia. Qed.

Lemma sized_perm (a b : list Z) : Permutation a b -> sized m0 a -> sized m0 b.
Proof. intros P. unfold sized. apply Permutation_Forall. exact P. Qed.

Lemma sized_app (a b : list Z) : sized m0 (a ++ b) <-> sized m0 a /\ sized m0 b.
Proof. unfold sized. apply Forall_app. Qed.

Lemma tiled_le (lo hi : Z) (objs : list Z) :
  sized m0 objs -> tiled m0 lo objs hi -> lo <= hi.
Proof.
  revert lo. induction objs as [| x objs IH]; intros lo Hs Ht; cbn in Ht.
  - exact Ht.
  - destruct Ht as [Hlo Ht].
    pose proof (sized_in (x :: objs) x Hs (or_introl eq_refl)).
    inversion Hs; subst. specialize (IH _ H3 Ht). lia.
Qed.

Lemma tiled_range (lo hi : Z) (objs : list Z) (o : Z) :
  sized m0 objs -> tiled m0 lo objs hi -> In o objs ->
  lo <= o /\ o + aligned_size_of m0 o <= hi.
Proof.
  revert lo. induction objs as [| x objs IH]; intros lo Hs Ht Hin;
    [contradiction |].
  cbn in Ht. destruct Ht as [Hlo Ht].
  pose proof (sized_in (x :: objs) x Hs (or_introl eq_refl)).
  inversion Hs; subst.
  destruct Hin as [-> | Hin].
  - pose proof (tiled_le _ _ _ H3 Ht). lia.
  - specialize (IH _ H3 Ht Hin). lia.
Qed.

Lemma tiled_total (lo hi : Z) (objs : list Z) :
  sized m0 objs -> tiled m0 lo objs hi -> total m0 objs <= hi - lo.
Proof.
  revert lo. induction objs as [| x objs IH]; intros lo Hs Ht; cbn in *.
  - lia.
  - destruct Ht as [Hlo Ht]. inversion Hs; subst.
    specialize (IH _ H2 Ht). lia.
Qed.

Lemma tiled_apart (lo hi : Z) (objs : list Z) (o o' : Z) :
  sized m0 objs -> tiled m0 lo objs hi -> In o objs -> In o' objs -> o <> o' ->
  o + aligned_size_of m0 o <= o' \/ o' + aligned_size_of m0 o' <= o.
Proof.
  revert lo. induction objs as [| x objs IH]; intros lo Hs Ht Hin Hin' Hne;
    [contradiction |].
  cbn in Ht. destruct Ht as [Hlo Ht]. inversion Hs; subst.
  destruct Hin as [-> | Hin], Hin' as [-> | Hin'].
  - congruence.
  - left. pose proof (tiled_range _ _ _ _ H2 Ht Hin'). lia.
  - right. pose proof (tiled_range _ _ _ _ H2 Ht Hin). lia.
  - exact (IH _ H2 Ht Hin Hin' Hne).
Qed.

Lemma tiled_NoDup (lo hi : Z) (objs : list Z) :
  sized m0 objs -> tiled m0 lo objs hi -> NoDup objs.
Proof.
  revert lo. induction objs as [| x objs IH]; intros lo Hs Ht;
    [constructor |].
  cbn in Ht. destruct Ht as [Hlo Ht].
  pose proof (sized_in (x :: objs) x Hs (or_introl eq_refl)).
  inversion Hs; subst. constructor; [| exact (IH _ H3 Ht)].
  intros Hin. pose proof (tiled_range _ _ _ _ H3 Ht Hin). lia.
Qed.

Lemma offset_in_app_old (c more : list Z) (o : Z) :
  In o c -> offset_in m0 (c ++ more) o = offset_in m0 c o.
Proof.
  induction c as [| x c IH]; intros Hin; [contradiction |].
  cbn. destruct (Z.eqb_spec x o) as [_ | Hne]; [reflexivity |].
  destruct Hin as [-> | Hin]; [congruence |]. rewrite IH by assumption.
  reflexivity.
Qed.

Lemma offset_in_app_new (c rest : list Z) (o : Z) :
  ~ In o c -> offset_in m0 (c ++ o :: rest) o = total m0 c.
Proof.
  induction c as [| x c IH]; intros Hnin; cbn.
  - rewrite Z.eqb_refl. reflexivity.
  - destruct (Z.eqb_spec x o) as [-> | Hne].
    + exfalso. apply Hnin. now left.
    + rewrite IH; [reflexivity |]. intros Hin. apply Hnin. now right.
Qed.

Lemma offset_in_range (c : list Z) (o : Z) :
  sized m0 c -> In o c ->
  0 <= offset_in m0 c o /\ offset_in m0 c o + aligned_size_of m0 o <= total m0 c.
Proof.
  induction c as [| x c IH]; intros Hs Hin; [contradiction |].
  pose proof (sized_in (x :: c) x Hs (or_introl eq_refl)).
  inversion Hs; subst. pose proof (total_nonneg c H3).
  cbn. destruct (Z.eqb_spec x o) as [-> | Hne]; [lia |].
  destruct Hin as [-> | Hin]; [congruence |].
  specialize (IH H3 Hin). lia.
Qed.

Lemma offset_in_apart (c : list Z) (o o' : Z) :
  sized m0 c -> In o c -> In o' c -> o <> o' ->
  offset_in m0 c o + aligned_size_of m0 o <= offset_in m0 c o'
  \/ offset_in m0 c o' + aligned_size_of m0 o' <= offset_in m0 c o.
Proof.
  induction c as [| x c IH]; intros Hs Hin Hin' Hne; [contradiction |].
  pose proof (sized_in (x :: c) x Hs (or_introl eq_refl)).
  inversion Hs; subst.
  cbn. destruct (Z.eqb_spec x o) as [Exo | Hxo];
    destruct (Z.eqb_spec x o') as [Exo' | Hxo'].
  - congruence.
  - subst x. left. destruct Hin' as [E | Hin']; [congruence |].
    pose proof (offset_in_range c o' H3 Hin'). lia.
  - subst x. right. destruct Hin as [E | Hin]; [congruence |].
    pose proof (offset_in_range c o H3 Hin). lia.
  - destruct Hin as [E | Hin]; [congruence |].
    destruct Hin' as [E | Hin']; [congruence |].
    specialize (IH H3 Hin Hin' Hne). lia.
Qed.

Lemma slots_apart_in (slots : list Z) (s s' : Z) :
  slots_apart slots -> In s slots -> In s' slots -> s <> s' ->
  s + 8 <= s' \/ s' + 8 <= s.
Proof.
  induction slots as [| x slots IH]; intros Ha Hin Hin' Hne; [contradiction |].
  cbn in Ha. destruct Ha as [Hx Ha]. rewrite Forall_forall in Hx.
  destruct Hin as [-> | Hin], Hin' as [-> | Hin'].
  - congruence.
  - exact (Hx _ Hin').
  - specialize (Hx _ Hin). lia.
  - exact (IH Ha Hin Hin' Hne).
Qed.

Lemma extents_apart_in (objs : list Z) (o o' : Z) :
  extents_apart m0 objs -> In o objs -> In o' objs -> o <> o' ->
  o + size_of m0 o <= o' \/ o' + size_of m0 o' <= o.
Proof.
  induction objs as [| x objs IH]; intros Ha Hin Hin' Hne; [contradiction |].
  cbn in Ha. destruct Ha as [Hx Ha]. rewrite Forall_forall in Hx.
  destruct Hin as [-> | Hin], Hin' as [-> | Hin'].
  - congruence.
  - exact (Hx _ Hin').
  - specialize (Hx _ Hin). lia.
  - exact (IH Ha Hin Hin' Hne).
Qed.

End Layouts.

(** ** The trace *)

Section Trace.

Context {layout : ObjectLayout}.
Context {los : Type} {large_objects : LargeObjectSpace los}.
Variable page_size : Z.
Variable marked : los -> Z -> bool.
Variable pages_ok : los -> Prop.
Hypothesis contract : large_object_space_contract page_size marked pages_ok.
Variable m0 : mem.
Variables F L rts : list Z.
Variables B SZ HALF T FS FE : Z.

Hypothesis placed : placement m0 F L rts B SZ HALF T FS FE.

Let HB : 0 < B := pl_base _ _ _ _ _ _ _ _ _ _ placed.
Let Htop : B + SZ < Word.modulus := pl_top _ _ _ _ _ _ _ _ _ _ placed.
Let Hto : B <= T /\ 0 <= HALF /\ T + HALF <= B + SZ :=
  pl_to _ _ _ _ _ _ _ _ _ _ placed.
Let Hfrom :
  B <= FS /\ FE <= B + SZ /\ FE - FS <= HALF /\ (FE <= T \/ T + HALF <= FS) :=
  pl_from _ _ _ _ _ _ _ _ _ _ placed.
Let Htiled : tiled m0 FS F FE := pl_tiled _ _ _ _ _ _ _ _ _ _ placed.
Let Hsmall : Forall (object_ok m0 (reference F L)) F :=
  pl_small _ _ _ _ _ _ _ _ _ _ placed.
Let Hlarge : Forall (object_ok m0 (reference F L)) L :=
  pl_large _ _ _ _ _ _ _ _ _ _ placed.
Let Hlarge_outside :
  Forall (fun o => 0 < o /\ o + size_of m0 o < Word.modulus
                   /\ (o + size_of m0 o <= B \/ B + SZ <= o)) L :=
  pl_large_outside _ _ _ _ _ _ _ _ _ _ placed.
Let Hlarge_apart : extents_apart m0 L :=
  pl_large_apart _ _ _ _ _ _ _ _ _ _ placed.
Let Htags : forall a, B <= a < B + SZ -> is_kind a = false :=
  pl_tags _ _ _ _ _ _ _ _ _ _ placed.
Let Hroots_apart : slots_apart rts := pl_roots_apart _ _ _ _ _ _ _ _ _ _ placed.
Let Hroots_outside :
  Forall (fun r => 0 <= r /\ r + 8 < Word.modulus
                   /\ (r + 8 <= B \/ B + SZ <= r)
                   /\ Forall (fun o => r + 8 <= o \/ o + size_of m0 o <= r) L)
         rts :=
  pl_roots_outside _ _ _ _ _ _ _ _ _ _ placed.
Let Hroots_refs : Forall (fun r => reference F L (load m0 r)) rts :=
  pl_roots_refs _ _ _ _ _ _ _ _ _ _ placed.

Local Abbreviation asize := (aligned_size_of m0).
Local Abbreviation caddr := (copy_address m0 T).
Local Abbreviation Inv := (tracing marked pages_ok m0 F L rts B SZ HALF T).
Local Abbreviation Slot := (slot m0 L rts T).
Local Abbreviation fwd := (forwarded m0 F T).
Local Abbreviation SlotOk := (slot_ok marked m0 F L T).
Local Abbreviation Ext := (extends marked m0 L).
Local Abbreviation Scans :=
  (scans_large marked pages_ok m0 F L rts B SZ HALF T).

Lemma F_sized : sized m0 F.
Proof. exact (sized_of_ok m0 _ _ Hsmall). Qed.

Lemma L_sized : sized m0 L.
Proof. exact (sized_of_ok m0 _ _ Hlarge). Qed.

Lemma small_ok (o : Z) : In o F -> object_ok m0 (reference F L) o.
Proof. intros H. rewrite Forall_forall in Hsmall. auto. Qed.

Lemma large_ok (o : Z) : In o L -> object_ok m0 (reference F L) o.
Proof. intros H. rewrite Forall_forall in Hlarge. auto. Qed.

Lemma small_facts (o : Z) :
  In o F ->
  8 <= size_of m0 o /\ size_of m0 o <= asize o /\ asize o < size_of m0 o + 8
  /\ B <= o /\ o + asize o <= B + SZ
  /\ (o + asize o <= T \/ T + HALF <= o).
Proof.
  intros Hin.
  pose proof (sized_in m0 F o F_sized Hin).
  pose proof (tiled_range m0 _ _ _ _ F_sized Htiled Hin). lia.
Qed.

Lemma small_apart (o o' : Z) :
  In o F -> In o' F -> o <> o' -> o + asize o <= o' \/ o' + asize o' <= o.
Proof. apply (tiled_apart m0 FS FE F); [exact F_sized | exact Htiled]. Qed.

Lemma F_NoDup : NoDup F.
Proof. exact (tiled_NoDup m0 _ _ _ F_sized Htiled). Qed.

Lemma total_F : total m0 F <= HALF.
Proof. pose proof (tiled_total m0 _ _ _ F_sized Htiled). lia. Qed.

Lemma field_facts (o f : Z) :
  In o F \/ In o L -> In f (fields_of m0 o) ->
  o + 8 <= f /\ f + 8 <= o + size_of m0 o.
Proof.
  intros Ho Hf.
  assert (Hok : object_ok m0 (reference F L) o)
    by (destruct Ho; [now apply small_ok | now apply large_ok]).
  pose proof (ok_fields_inside _ _ _ Hok) as Hin.
  rewrite Forall_forall in Hin. exact (Hin f Hf).
Qed.

Lemma field_apart (o f f' : Z) :
  In o F \/ In o L -> In f (fields_of m0 o) -> In f' (fields_of m0 o) ->
  f <> f' -> f + 8 <= f' \/ f' + 8 <= f.
Proof.
  intros Ho. apply slots_apart_in.
  assert (Hok : object_ok m0 (reference F L) o)
    by (destruct Ho; [now apply small_ok | now apply large_ok]).
  exact (ok_fields_apart _ _ _ Hok).
Qed.

Lemma field_ref (o f : Z) :
  In o F \/ In o L -> In f (fields_of m0 o) -> reference F L (load m0 f).
Proof.
  intros Ho Hf.
  assert (Hok : object_ok m0 (reference F L) o)
    by (destruct Ho; [now apply small_ok | now apply large_ok]).
  pose proof (ok_fields_refs _ _ _ Hok) as Hin.
  rewrite Forall_forall in Hin. exact (Hin f Hf).
Qed.

Lemma large_facts (o : Z) :
  In o L ->
  0 < o /\ 8 <= size_of m0 o /\ o + size_of m0 o < Word.modulus
  /\ (o + size_of m0 o <= B \/ B + SZ <= o).
Proof.
  intros Hin. pose proof (sized_in m0 L o L_sized Hin).
  rewrite Forall_forall in Hlarge_outside.
  specialize (Hlarge_outside o Hin). lia.
Qed.

Lemma large_apart (o o' : Z) :
  In o L -> In o' L -> o <> o' ->
  o + size_of m0 o <= o' \/ o' + size_of m0 o' <= o.
Proof. apply extents_apart_in. exact Hlarge_apart. Qed.

Lemma root_facts (r : Z) :
  In r rts -> 0 <= r /\ r + 8 < Word.modulus /\ (r + 8 <= B \/ B + SZ <= r).
Proof.
  intros Hin. rewrite Forall_forall in Hroots_outside.
  specialize (Hroots_outside r Hin). tauto.
Qed.

Lemma root_vs_large (r o : Z) :
  In r rts -> In o L -> r + 8 <= o \/ o + size_of m0 o <= r.
Proof.
  intros Hr Ho. rewrite Forall_forall in Hroots_outside.
  destruct (Hroots_outside r Hr) as (_ & _ & _ & H).
  rewrite Forall_forall in H. exact (H o Ho).
Qed.

Lemma root_apart (r r' : Z) :
  In r rts -> In r' rts -> r <> r' -> r + 8 <= r' \/ r' + 8 <= r.
Proof. apply slots_apart_in. exact Hroots_apart. Qed.

Lemma small_not_large (o : Z) : In o F -> In o L -> False.
Proof.
  intros HF HL. pose proof (small_facts o HF). pose proof (large_facts o HL).
  lia.
Qed.

(** *** The copies *)

Lemma copied_in_F (g : progress) (o : Z) :
  progress_ok F g -> In o (copied g) -> In o F.
Proof.
  intros P Hin. apply (Permutation_in _ P). apply in_or_app. now left.
Qed.

Lemma white_in_F (g : progress) (o : Z) :
  progress_ok F g -> In o (white g) -> In o F.
Proof.
  intros P Hin. apply (Permutation_in _ P). apply in_or_app. now right.
Qed.

Lemma progress_NoDup (g : progress) :
  progress_ok F g -> NoDup (copied g ++ white g).
Proof.
  intros P. apply (Permutation_NoDup (Permutation_sym P)). exact F_NoDup.
Qed.

Lemma copied_not_white (g : progress) (o : Z) :
  progress_ok F g -> In o (copied g) -> In o (white g) -> False.
Proof.
  intros P Hc Hw. pose proof (progress_NoDup g P) as Hnd.
  apply NoDup_app_remove_l in Hnd as Hw'. 
  revert Hnd Hc Hw. generalize (copied g) as c. induction c as [| x c IH].
  - intros _ [].
  - cbn. intros Hnd [-> | Hc] Hw.
    + inversion Hnd; subst. apply H1. apply in_or_app. now right.
    + inversion Hnd; subst. now apply IH.
Qed.

Lemma copied_sized (g : progress) : progress_ok F g -> sized m0 (copied g).
Proof.
  intros P. pose proof (sized_perm m0 _ _ (Permutation_sym P) F_sized) as H.
  apply sized_app in H. tauto.
Qed.

Lemma white_sized (g : progress) : progress_ok F g -> sized m0 (white g).
Proof.
  intros P. pose proof (sized_perm m0 _ _ (Permutation_sym P) F_sized) as H.
  apply sized_app in H. tauto.
Qed.

Lemma total_copied (g : progress) :
  progress_ok F g ->
  0 <= total m0 (copied g)
  /\ total m0 (copied g) + total m0 (white g) <= HALF
  /\ 0 <= total m0 (white g).
Proof.
  intros P. pose proof (total_perm m0 _ _ P) as E. rewrite total_app in E.
  pose proof total_F.
  pose proof (total_nonneg m0 _ (copied_sized g P)).
  pose proof (total_nonneg m0 _ (white_sized g P)). lia.
Qed.

Lemma copy_facts (g : progress) (o : Z) :
  progress_ok F g -> In o (copied g) ->
  T <= caddr g o /\ caddr g o + asize o <= T + total m0 (copied g)
  /\ T + total m0 (copied g) <= T + HALF.
Proof.
  intros P Hin. unfold copy_address.
  pose proof (offset_in_range m0 _ o (copied_sized g P) Hin).
  pose proof (total_copied g P). lia.
Qed.

Lemma copy_apart (g : progress) (o o' : Z) :
  progress_ok F g -> In o (copied g) -> In o' (copied g) -> o <> o' ->
  caddr g o + asize o <= caddr g o' \/ caddr g o' + asize o' <= caddr g o.
Proof.
  intros P Hin Hin' Hne. unfold copy_address.
  pose proof (offset_in_apart m0 _ o o' (copied_sized g P) Hin Hin' Hne). lia.
Qed.

(** *** Slots *)

(** a field belongs to one object *)
Lemma field_owner (o o' f : Z) :
  In o F \/ In o L -> In o' F \/ In o' L ->
  In f (fields_of m0 o) -> In f (fields_of m0 o') -> o = o'.
Proof.
  intros Ho Ho' Hf Hf'.
  destruct (Z.eq_dec o o') as [E | Hne]; [exact E | exfalso].
  pose proof (field_facts o f Ho Hf). pose proof (field_facts o' f Ho' Hf').
  destruct Ho as [Ho | Ho], Ho' as [Ho' | Ho'].
  - pose proof (small_apart o o' Ho Ho' Hne).
    pose proof (small_facts o Ho). pose proof (small_facts o' Ho'). lia.
  - pose proof (small_facts o Ho). pose proof (large_facts o' Ho'). lia.
  - pose proof (small_facts o' Ho'). pose proof (large_facts o Ho). lia.
  - pose proof (large_apart o o' Ho Ho' Hne). lia.
Qed.

Lemma root_not_field (r o : Z) :
  In r rts -> In o F \/ In o L -> In r (fields_of m0 o) -> False.
Proof.
  intros Hr Ho Hf. pose proof (field_facts o r Ho Hf).
  pose proof (root_facts r Hr). destruct Ho as [Ho | Ho].
  - pose proof (small_facts o Ho). lia.
  - pose proof (root_vs_large r o Hr Ho). lia.
Qed.

Lemma slot_unique (g : progress) (key loc loc' : Z) :
  progress_ok F g ->
  Slot g key loc -> Slot g key loc' -> loc = loc'.
Proof.
  intros P H H'.
  destruct H as [r Hr | o f Ho Hf | o f Ho Hf];
    destruct H' as [r' Hr' | o' f' Ho' Hf' | o' f' Ho' Hf']; try reflexivity.
  - exfalso. eapply root_not_field; eauto using copied_in_F.
  - exfalso.
    assert (o = o') by (eapply field_owner; eauto using copied_in_F).
    subst. eapply (small_not_large o'); eauto using copied_in_F.
  - exfalso. eapply root_not_field; eauto using copied_in_F.
  - exfalso.
    assert (o = o') by (eapply field_owner; eauto using copied_in_F).
    subst. eapply (small_not_large o'); eauto using copied_in_F.
  - assert (o = o') by (eapply field_owner; eauto using copied_in_F).
    subst. reflexivity.
Qed.

Lemma slots_disjoint (g : progress) (key loc key' loc' : Z) :
  progress_ok F g ->
  Slot g key loc -> Slot g key' loc' -> key <> key' ->
  loc + 8 <= loc' \/ loc' + 8 <= loc.
Proof.
  intros P H H' Hne.
  destruct H as [r Hr | o f Ho Hf | o f Ho Hf];
    destruct H' as [r' Hr' | o' f' Ho' Hf' | o' f' Ho' Hf'].
  - now apply root_apart.
  - pose proof (field_facts o' f' (or_intror Ho') Hf').
    pose proof (root_vs_large r o' Hr Ho'). lia.
  - pose proof (copied_in_F g o' P Ho') as HF.
    pose proof (field_facts o' f' (or_introl HF) Hf').
    pose proof (small_facts o' HF). pose proof (copy_facts g o' P Ho').
    pose proof (root_facts r Hr). lia.
  - pose proof (field_facts o f (or_intror Ho) Hf).
    pose proof (root_vs_large r' o Hr' Ho). lia.
  - destruct (Z.eq_dec o o') as [-> | Hoo].
    + apply (field_apart o'); auto.
    + pose proof (field_facts o f (or_intror Ho) Hf).
      pose proof (field_facts o' f' (or_intror Ho') Hf').
      pose proof (large_apart o o' Ho Ho' Hoo). lia.
  - pose proof (copied_in_F g o' P Ho') as HF.
    pose proof (field_facts o f (or_intror Ho) Hf).
    pose proof (field_facts o' f' (or_introl HF) Hf').
    pose proof (small_facts o' HF). pose proof (copy_facts g o' P Ho').
    pose proof (large_facts o Ho). lia.
  - pose proof (copied_in_F g o P Ho) as HF.
    pose proof (field_facts o f (or_introl HF) Hf).
    pose proof (small_facts o HF). pose proof (copy_facts g o P Ho).
    pose proof (root_facts r' Hr'). lia.
  - pose proof (copied_in_F g o P Ho) as HF.
    pose proof (field_facts o f (or_introl HF) Hf).
    pose proof (field_facts o' f' (or_intror Ho') Hf').
    pose proof (small_facts o HF). pose proof (copy_facts g o P Ho).
    pose proof (large_facts o' Ho'). lia.
  - pose proof (copied_in_F g o P Ho) as HF.
    pose proof (copied_in_F g o' P Ho') as HF'.
    pose proof (field_facts o f (or_introl HF) Hf).
    pose proof (field_facts o' f' (or_introl HF') Hf').
    pose proof (small_facts o HF). pose proof (small_facts o' HF').
    destruct (Z.eq_dec o o') as [-> | Hoo].
    + pose proof (field_apart o' f f' (or_introl HF') Hf Hf' Hne). lia.
    + pose proof (copy_apart g o o' P Ho Ho' Hoo). lia.
Qed.

(** *** A slot against everything else in memory *)

Lemma slot_vs_from (g : progress) (key loc o : Z) :
  progress_ok F g -> Slot g key loc -> In o F ->
  loc + 8 <= o \/ o + asize o <= loc.
Proof.
  intros P H Ho. pose proof (small_facts o Ho).
  destruct H as [r Hr | o' f Ho' Hf | o' f Ho' Hf].
  - pose proof (root_facts r Hr). lia.
  - pose proof (field_facts o' f (or_intror Ho') Hf).
    pose proof (large_facts o' Ho'). lia.
  - pose proof (copied_in_F g o' P Ho') as HF.
    pose proof (field_facts o' f (or_introl HF) Hf).
    pose proof (small_facts o' HF). pose proof (copy_facts g o' P Ho'). lia.
Qed.

Lemma slot_vs_copy_header (g : progress) (key loc o : Z) :
  progress_ok F g -> Slot g key loc -> In o (copied g) ->
  loc + 8 <= caddr g o \/ caddr g o + 8 <= loc.
Proof.
  intros P H Ho. pose proof (copied_in_F g o P Ho) as HoF.
  pose proof (small_facts o HoF). pose proof (copy_facts g o P Ho).
  destruct H as [r Hr | o' f Ho' Hf | o' f Ho' Hf].
  - pose proof (root_facts r Hr). lia.
  - pose proof (field_facts o' f (or_intror Ho') Hf).
    pose proof (large_facts o' Ho'). lia.
  - pose proof (copied_in_F g o' P Ho') as HF.
    pose proof (field_facts o' f (or_introl HF) Hf).
    pose proof (small_facts o' HF). pose proof (copy_facts g o' P Ho').
    destruct (Z.eq_dec o o') as [-> | Hne]; [lia |].
    pose proof (copy_apart g o o' P Ho Ho' Hne). lia.
Qed.

Lemma slot_vs_copy_body (g : progress) (key loc o i : Z) :
  progress_ok F g -> Slot g key loc -> In o (copied g) ->
  8 <= i < size_of m0 o -> ~ in_field m0 o i ->
  caddr g o + i < loc \/ loc + 8 <= caddr g o + i.
Proof.
  intros P H Ho Hi Hnf. pose proof (copied_in_F g o P Ho) as HoF.
  pose proof (small_facts o HoF). pose proof (copy_facts g o P Ho).
  destruct H as [r Hr | o' f Ho' Hf | o' f Ho' Hf].
  - pose proof (root_facts r Hr). lia.
  - pose proof (field_facts o' f (or_intror Ho') Hf).
    pose proof (large_facts o' Ho'). lia.
  - pose proof (copied_in_F g o' P Ho') as HF.
    pose proof (field_facts o' f (or_introl HF) Hf).
    pose proof (small_facts o' HF). pose proof (copy_facts g o' P Ho').
    destruct (Z.eq_dec o o') as [-> | Hne].
    + assert (~ (f - o' <= i < f - o' + 8)).
      { intros Hin. apply Hnf. exists f. auto. }
      lia.
    + pose proof (copy_apart g o o' P Ho Ho' Hne). lia.
Qed.

Lemma slot_vs_large_header (g : progress) (key loc o : Z) :
  progress_ok F g -> Slot g key loc -> In o L ->
  loc + 8 <= o \/ o + 8 <= loc.
Proof.
  intros P H Ho. pose proof (large_facts o Ho).
  destruct H as [r Hr | o' f Ho' Hf | o' f Ho' Hf].
  - pose proof (root_vs_large r o Hr Ho). lia.
  - pose proof (field_facts o' f (or_intror Ho') Hf).
    destruct (Z.eq_dec o o') as [-> | Hne]; [lia |].
    pose proof (large_facts o' Ho').
    pose proof (large_apart o o' Ho Ho' Hne). lia.
  - pose proof (copied_in_F g o' P Ho') as HF.
    pose proof (field_facts o' f (or_introl HF) Hf).
    pose proof (small_facts o' HF). pose proof (copy_facts g o' P Ho'). lia.
Qed.

Lemma slot_vs_large_body (g : progress) (key loc o i : Z) :
  progress_ok F g -> Slot g key loc -> In o L ->
  8 <= i < size_of m0 o -> ~ in_field m0 o i ->
  o + i < loc \/ loc + 8 <= o + i.
Proof.
  intros P H Ho Hi Hnf. pose proof (large_facts o Ho).
  destruct H as [r Hr | o' f Ho' Hf | o' f Ho' Hf].
  - pose proof (root_vs_large r o Hr Ho). lia.
  - pose proof (field_facts o' f (or_intror Ho') Hf).
    destruct (Z.eq_dec o o') as [-> | Hne].
    + assert (~ (f - o' <= i < f - o' + 8)).
      { intros Hin. apply Hnf. exists f. auto. }
      lia.
    + pose proof (large_facts o' Ho').
      pose proof (large_apart o o' Ho Ho' Hne). lia.
  - pose proof (copied_in_F g o' P Ho') as HF.
    pose proof (field_facts o' f (or_introl HF) Hf).
    pose proof (small_facts o' HF). pose proof (copy_facts g o' P Ho'). lia.
Qed.

Lemma load_frame (m m' : mem) (loc a : Z) :
  (forall x, x < loc \/ loc + 8 <= x -> m' x = m x) ->
  a + 8 <= loc \/ loc + 8 <= a -> load m' a = load m a.
Proof. intros Hm Ha. apply load_ext. intros i Hi. apply Hm. lia. Qed.

Lemma tracing_progress_ok (pending : list Z) (g : progress) (h : heap) :
  Inv pending g h -> progress_ok F g.
Proof. intros H. exact (tr_perm _ _ _ _ _ _ _ _ _ _ _ _ _ H). Qed.

Ltac open_tracing H :=
  let P := fresh "Hprog" in
  pose proof (tracing_progress_ok _ _ _ H) as P;
  destruct H as [Hbase Hsize Hlimit Hhp Hperm Hwhite Hwhite_fields Hfwd
                 Hfrom_body Hcopy_header Hcopy_body Hlarge_header Hlarge_body
                 Hslots Hcontains Hunmarked Hmarked Hpages Hreached
                 Hreached_large].

(** visiting a slot: whatever is written, is written into the slot, and
    leaves there the forwarded reference *)
Lemma update_slot (pending : list Z) (g : progress) (h : heap) (m' : mem)
    (key loc : Z) :
  Inv pending g h -> Slot g key loc -> ~ In key (done g) ->
  (forall o, In o L -> In key (fields_of m0 o) ->
     marked (heap_large_object_space h) o = true) ->
  (forall x, x < loc \/ loc + 8 <= x -> m' x = memory h x) ->
  load m' loc = fwd g (load m0 key) ->
  (In (load m0 key) F -> In (load m0 key) (copied g)) ->
  (In (load m0 key) L ->
     marked (heap_large_object_space h) (load m0 key) = true) ->
  Inv pending (mk_progress (copied g) (white g) (key :: done g))
    (set_memory h m').
Proof.
  intros HI Hslot Hnew Hkey Hm' Hload HvF HvL.
  open_tracing HI.
  constructor; cbn [copied white done memory set_memory heap_semi_space
                    heap_large_object_space]; auto.
  - (* white headers *)
    intros o Ho. rewrite <- (Hwhite o Ho).
    apply (load_frame _ _ loc); [exact Hm' |].
    pose proof (white_in_F g o Hprog Ho) as HF.
    pose proof (slot_vs_from g key loc o Hprog Hslot HF).
    pose proof (small_facts o HF). lia.
  - (* fields of white objects *)
    intros o f Ho Hf [E | Hin]; [| exact (Hwhite_fields o f Ho Hf Hin)].
    subst f. pose proof (white_in_F g o Hprog Ho) as HF.
    destruct Hslot as [r Hr | o' f Ho' Hf' | o' f Ho' Hf'].
    + exact (root_not_field r o Hr (or_introl HF) Hf).
    + assert (o' = o) by (eapply field_owner; eauto). subst o'.
      exact (small_not_large o HF Ho').
    + assert (o' = o)
        by (eapply field_owner; eauto using copied_in_F). subst o'.
      exact (copied_not_white g o Hprog Ho' Ho).
  - (* forwarding pointers *)
    intros o Ho. unfold copy_address in *. cbn [copied].
    rewrite <- (Hfwd o Ho).
    apply (load_frame _ _ loc); [exact Hm' |].
    pose proof (copied_in_F g o Hprog Ho) as HF.
    pose proof (slot_vs_from g key loc o Hprog Hslot HF).
    pose proof (small_facts o HF). lia.
  - (* bodies of the condemned objects *)
    intros o i Ho Hi. rewrite <- (Hfrom_body o i Ho Hi). apply Hm'.
    pose proof (slot_vs_from g key loc o Hprog Hslot Ho).
    pose proof (small_facts o Ho). lia.
  - (* headers of the copies *)
    intros o Ho. unfold copy_address in *. cbn [copied].
    rewrite <- (Hcopy_header o Ho).
    apply (load_frame _ _ loc); [exact Hm' |].
    pose proof (slot_vs_copy_header g key loc o Hprog Hslot Ho).
    unfold copy_address in *. lia.
  - (* bodies of the copies *)
    intros o i Ho Hi Hnf. unfold copy_address in *. cbn [copied].
    rewrite <- (Hcopy_body o i Ho Hi Hnf). apply Hm'.
    pose proof (slot_vs_copy_body g key loc o i Hprog Hslot Ho Hi Hnf).
    unfold copy_address in *. lia.
  - (* headers of the large objects *)
    intros o Ho. rewrite <- (Hlarge_header o Ho).
    apply (load_frame _ _ loc); [exact Hm' |].
    pose proof (slot_vs_large_header g key loc o Hprog Hslot Ho). lia.
  - (* bodies of the large objects *)
    intros o i Ho Hi Hnf. rewrite <- (Hlarge_body o i Ho Hi Hnf). apply Hm'.
    pose proof (slot_vs_large_body g key loc o i Hprog Hslot Ho Hi Hnf). lia.
  - (* the slots *)
    intros key' loc' Hslot'.
    assert (Hslot'' : Slot g key' loc').
    { destruct Hslot' as [r Hr | o f Ho Hf | o f Ho Hf].
      - now apply slot_root.
      - now apply (slot_large _ _ _ _ _ o).
      - exact (slot_copy _ _ _ _ g o f Ho Hf). }
    clear Hslot'. rename Hslot'' into Hslot'.
    destruct (Z.eq_dec key' key) as [-> | Hne].
    + pose proof (slot_unique g key loc loc' Hprog Hslot Hslot'). subst loc'.
      split; cbn [done memory set_memory heap_large_object_space].
      * intros _. unfold forwarded, copy_address in *. cbn [copied]. auto.
      * intros Hn. exfalso. apply Hn. now left.
    + destruct (Hslots key' loc' Hslot') as [Hdone Hundone].
      assert (Hl : load m' loc' = load (memory h) loc').
      { apply (load_frame _ _ loc); [exact Hm' |].
        pose proof (slots_disjoint g key loc key' loc' Hprog Hslot Hslot').
        lia. }
      split; cbn [done memory set_memory heap_large_object_space].
      * intros [E | Hin]; [congruence |]. rewrite Hl.
        unfold forwarded, copy_address in *. cbn [copied]. auto.
      * intros Hn. rewrite Hl. apply Hundone. intros Hin. apply Hn.
        now right.
  - (* unmarked large objects *)
    intros o f Ho Hum Hf [E | Hin]; [| exact (Hunmarked o f Ho Hum Hf Hin)].
    subst f. rewrite (Hkey o Ho Hf) in Hum. discriminate.
  - (* marked large objects *)
    intros o Ho Hmk. destruct (Hmarked o Ho Hmk) as [Hp | Hall];
      [now left | right]. intros f Hf. right. auto.
Qed.

Lemma in_total_le (objs : list Z) (o : Z) :
  sized m0 objs -> In o objs -> asize o <= total m0 objs.
Proof.
  induction objs as [| x objs IH]; intros Hs Hin; [contradiction |].
  inversion Hs; subst. pose proof (total_nonneg m0 objs H2).
  pose proof (sized_in m0 (x :: objs) x Hs (or_introl eq_refl)).
  cbn. destruct Hin as [-> | Hin]; [lia |]. specialize (IH H2 Hin). lia.
Qed.

(** the size and the fields of an object whose payload is intact *)
Lemma layout_at (o : Z) (m : mem) (o' : Z) :
  In o F \/ In o L ->
  (forall i, 8 <= i < size_of m0 o -> ~ in_field m0 o i ->
     m (o' + i) = m0 (o + i)) ->
  object_size (kind_of m0 o) m o' = size_of m0 o
  /\ object_fields (kind_of m0 o) m o'
     = map (fun f => f - o + o') (fields_of m0 o).
Proof.
  intros Ho Hm.
  assert (Hok : object_ok m0 (reference F L) o)
    by (destruct Ho; [now apply small_ok | now apply large_ok]).
  exact (ok_layout _ _ _ Hok m o' Hm).
Qed.

Lemma map_shift_id (o : Z) (l : list Z) : map (fun f => f - o + o) l = l.
Proof.
  induction l as [| x l IH]; cbn; [reflexivity |]. rewrite IH. f_equal. lia.
Qed.

(** [forward] on an object that has not been copied yet *)
Lemma forward_white (pending : list Z) (g : progress) (h : heap) (o : Z) :
  Inv pending g h -> In o (white g) -> reachable m0 F L rts o ->
  exists g' h',
    forward h o = Done (caddr g' o, h')
    /\ Inv pending g' h'
    /\ copied g' = copied g ++ [o]
    /\ done g' = done g
    /\ (length (white g') + 1 = length (white g))%nat
    /\ heap_large_object_space h' = heap_large_object_space h.
Proof.
  intros HI Hw Hreach. open_tracing HI.
  pose proof (white_in_F g o Hprog Hw) as HoF.
  pose proof (small_ok o HoF) as Hok.
  pose proof (small_facts o HoF) as Hfacts.
  pose proof (total_copied g Hprog) as Htot.
  pose proof (in_total_le _ o (white_sized g Hprog) Hw) as Hroom.
  assert (Hnc : ~ In o (copied g))
    by (intros Hc; exact (copied_not_white g o Hprog Hc Hw)).
  destruct (in_split _ _ Hw) as (w1 & w2 & Ew).
  set (g' := mk_progress (copied g ++ [o]) (w1 ++ w2) (done g)).
  set (top := T + total m0 (copied g)) in *.
  assert (Ecaddr : caddr g' o = top).
  { unfold copy_address, g'. cbn [copied]. rewrite offset_in_app_new by exact Hnc.
    reflexivity. }
  assert (Eold : forall o', In o' (copied g) -> caddr g' o' = caddr g o').
  { intros o' Ho'. unfold copy_address, g'. cbn [copied].
    rewrite offset_in_app_old by exact Ho'. reflexivity. }
  destruct (layout_at o (memory h) o (or_introl HoF)) as [Esize _].
  { intros i Hi _. now apply Hfrom_body. }
  set (m1 := blit (memory h) top o (size_of m0 o)).
  set (m2 := store m1 o top).
  set (h' := mk_heap m2
               (set_hp (heap_semi_space h) (top + asize o))
               (heap_large_object_space h)).
  assert (Efwd : forward h o = Done (top, h')).
  { unfold forward. rewrite (Hwhite o Hw), (ok_kind _ _ _ Hok).
    unfold copy. rewrite (ok_kind _ _ _ Hok), Esize, Hhp.
    rewrite memcpy_apart by (unfold top; lia). cbn [bind].
    fold top. fold m1. fold m2.
    replace (Word.add top (align_up (size_of m0 o) ALIGNMENT))
      with (top + asize o); [reflexivity |].
    unfold Word.add. fold (asize o). rewrite wrap_small; [reflexivity |].
    unfold top. lia. }
  assert (M2 : forall x, x < top \/ top + size_of m0 o <= x ->
                 x < o \/ o + 8 <= x -> m2 x = memory h x).
  { intros x H1 H2. unfold m2, m1.
    rewrite store_byte_out by lia. apply blit_byte_out. lia. }
  assert (M1 : forall a, a + 8 <= top \/ top + size_of m0 o <= a ->
                 a + 8 <= o \/ o + 8 <= a -> load m2 a = load (memory h) a).
  { intros a H1 H2. apply load_ext. intros i Hi. apply M2; lia. }
  assert (M3 : forall i, 0 <= i < size_of m0 o ->
                 m2 (top + i) = memory h (o + i)).
  { intros i Hi. unfold m2, m1. rewrite store_byte_out by (unfold top; lia).
    apply blit_byte_in. exact Hi. }
  assert (M4 : forall i, 0 <= i -> i + 8 <= size_of m0 o ->
                 load m2 (top + i) = load (memory h) (o + i)).
  { intros i H1 H2. unfold m2, m1.
    rewrite load_store_other by (unfold top; lia).
    apply load_blit_in; assumption. }
  assert (M5 : load m2 o = top).
  { unfold m2. rewrite load_store_same. apply wrap_small. unfold top. lia. }
  assert (Hprog' : progress_ok F g').
  { unfold progress_ok, g'. cbn [copied white].
    rewrite <- Hperm, Ew. rewrite <- app_assoc. apply Permutation_app_head.
    cbn. apply Permutation_middle. }
  assert (Hw' : forall o', In o' (white g') -> In o' (white g) /\ o' <> o).
  { intros o' Ho'. unfold g' in Ho'. cbn [white] in Ho'.
    assert (In o' (white g)).
    { rewrite Ew. apply in_app_or in Ho'. apply in_or_app.
      destruct Ho'; [now left | right; now right]. }
    split; [assumption |]. intros ->.
    apply (copied_not_white g' o Hprog'); [| exact Ho'].
    unfold g'. cbn [copied]. apply in_or_app. right. now left. }
  exists g', h'. rewrite Ecaddr.
  split; [exact Efwd |]. split; [| split; [reflexivity |]].
  2: { split; [reflexivity |]. split; [| reflexivity].
       unfold g'. cbn [white]. rewrite Ew, !length_app. cbn. lia. }
  constructor; cbn [memory heap_semi_space heap_large_object_space h'
                    base size limit hp set_hp]; auto.
  - (* hp *)
    unfold g'. cbn [copied]. rewrite total_app. cbn. unfold top. lia.
  - (* white headers *)
    intros o' Ho'. destruct (Hw' o' Ho') as [Hin Hne].
    rewrite <- (Hwhite o' Hin).
    pose proof (white_in_F g o' Hprog Hin) as HF'.
    pose proof (small_facts o' HF'). pose proof (small_apart o o' HoF HF').
    apply M1; unfold top; lia.
  - (* fields of white objects *)
    intros o' f Ho' Hf. destruct (Hw' o' Ho') as [Hin _].
    exact (Hwhite_fields o' f Hin Hf).
  - (* forwarding pointers *)
    intros o' Ho'. unfold g' in Ho'. cbn [copied] in Ho'.
    apply in_app_or in Ho'. destruct Ho' as [Ho' | [<- | []]].
    + rewrite (Eold o' Ho'), <- (Hfwd o' Ho').
      pose proof (copied_in_F g o' Hprog Ho') as HF'.
      assert (o <> o') by congruence.
      pose proof (small_facts o' HF'). pose proof (small_apart o o' HoF HF').
      apply M1; unfold top; lia.
    + rewrite Ecaddr. exact M5.
  - (* bodies of the condemned objects *)
    intros o' i Ho' Hi. rewrite <- (Hfrom_body o' i Ho' Hi).
    pose proof (small_facts o' Ho').
    destruct (Z.eq_dec o o') as [<- | Hne].
    + apply M2; unfold top; lia.
    + pose proof (small_apart o o' HoF Ho' Hne). apply M2; unfold top; lia.
  - (* headers of the copies *)
    intros o' Ho'. unfold g' in Ho'. cbn [copied] in Ho'.
    apply in_app_or in Ho'. destruct Ho' as [Ho' | [<- | []]].
    + rewrite (Eold o' Ho'), <- (Hcopy_header o' Ho').
      pose proof (copy_facts g o' Hprog Ho').
      pose proof (copied_in_F g o' Hprog Ho') as HF'.
      pose proof (small_facts o' HF').
      apply M1; unfold top; lia.
    + rewrite Ecaddr. rewrite <- (Z.add_0_r top), M4 by lia.
      rewrite Z.add_0_r. exact (Hwhite o Hw).
  - (* bodies of the copies *)
    intros o' i Ho' Hi Hnf. unfold g' in Ho'. cbn [copied] in Ho'.
    apply in_app_or in Ho'. destruct Ho' as [Ho' | [<- | []]].
    + rewrite (Eold o' Ho'), <- (Hcopy_body o' i Ho' Hi Hnf).
      pose proof (copy_facts g o' Hprog Ho').
      pose proof (copied_in_F g o' Hprog Ho') as HF'.
      pose proof (small_facts o' HF').
      apply M2; unfold top; lia.
    + rewrite Ecaddr, M3 by lia. now apply Hfrom_body.
  - (* headers of the large objects *)
    intros o' Ho'. rewrite <- (Hlarge_header o' Ho').
    pose proof (large_facts o' Ho'). apply M1; unfold top; lia.
  - (* bodies of the large objects *)
    intros o' i Ho' Hi Hnf. rewrite <- (Hlarge_body o' i Ho' Hi Hnf).
    pose proof (large_facts o' Ho'). apply M2; unfold top; lia.
  - (* the slots *)
    intros key loc Hslot.
    assert (Hmono : forall v, (In v F -> In v (copied g)) ->
              fwd g' v = fwd g v /\ (In v F -> In v (copied g'))).
    { intros v Hv. unfold forwarded.
      destruct (in_dec Z.eq_dec v F) as [HvF | HvF].
      - split; [apply Eold; auto |]. intros _. unfold g'. cbn [copied].
        apply in_or_app. left. auto.
      - split; [reflexivity |]. intros H. contradiction. }
    assert (Hkeep : forall loc', Slot g key loc' ->
              load m2 loc' = load (memory h) loc' ->
              SlotOk g' h' key loc' (load m0 key)).
    { intros loc' Hs El. destruct (Hslots key loc' Hs) as [Hd Hu].
      split; cbn [memory h' heap_large_object_space]; unfold g' at 1;
        cbn [done]; rewrite El.
      - intros Hin. destruct (Hd Hin) as (E1 & E2 & E3).
        destruct (Hmono _ E2) as [E4 E5]. rewrite E4. auto.
      - exact Hu. }
    destruct Hslot as [r Hr | o' f Ho' Hf | o' f Ho' Hf].
    + apply Hkeep; [now apply slot_root |].
      pose proof (root_facts r Hr). apply M1; unfold top; lia.
    + apply Hkeep; [now apply (slot_large _ _ _ _ _ o') |].
      pose proof (field_facts o' f (or_intror Ho') Hf).
      pose proof (large_facts o' Ho'). apply M1; unfold top; lia.
    + unfold g' in Ho'. cbn [copied] in Ho'.
      apply in_app_or in Ho'. destruct Ho' as [Ho' | [<- | []]].
      * rewrite (Eold o' Ho').
        apply Hkeep; [now apply slot_copy |].
        pose proof (copy_facts g o' Hprog Ho').
        pose proof (copied_in_F g o' Hprog Ho') as HF'.
        pose proof (field_facts o' f (or_introl HF') Hf).
        pose proof (small_facts o' HF').
        apply M1; unfold top; lia.
      * rewrite Ecaddr.
        pose proof (field_facts o f (or_introl HoF) Hf) as Hff.
        assert (Hnd : ~ In f (done g)) by exact (Hwhite_fields o f Hw Hf).
        split; cbn [memory h' heap_large_object_space]; unfold g' at 1;
          cbn [done]; [intros Hin; contradiction |].
        intros _. rewrite M4 by lia.
        replace (o + (f - o)) with f by lia.
        apply load_ext. intros j Hj.
        replace (f + j) with (o + (f - o + j)) by lia.
        apply Hfrom_body; [exact HoF | lia].
  - (* the copies are reachable *)
    intros o' Ho'. unfold g' in Ho'. cbn [copied] in Ho'.
    apply in_app_or in Ho'. destruct Ho' as [Ho' | [<- | []]]; auto.
Qed.

(** [forward] on an object that has been copied *)
Lemma forward_copied (pending : list Z) (g : progress) (h : heap) (o : Z) :
  Inv pending g h -> In o (copied g) -> forward h o = Done (caddr g o, h).
Proof.
  intros HI Ho. open_tracing HI.
  pose proof (copy_facts g o Hprog Ho).
  pose proof (copied_in_F g o Hprog Ho) as HF.
  pose proof (small_facts o HF).
  unfold forward. rewrite (Hfwd o Ho), Htags by lia. reflexivity.
Qed.

Lemma set_memory_same (h : heap (los := los)) : set_memory h (memory h) = h.
Proof. destruct h. reflexivity. Qed.

Lemma slot_mono (g g' : progress) (more : list Z) (key loc : Z) :
  copied g' = copied g ++ more -> Slot g key loc -> Slot g' key loc.
Proof.
  intros E H. destruct H as [r Hr | o f Ho Hf | o f Ho Hf].
  - now apply slot_root.
  - now apply (slot_large _ _ _ _ _ o).
  - replace (caddr g o) with (caddr g' o).
    + apply slot_copy; [| exact Hf]. rewrite E. apply in_or_app. now left.
    + unfold copy_address. rewrite E. f_equal. apply offset_in_app_old.
      exact Ho.
Qed.

(** *** Marks *)

Lemma mark_large (pending : list Z) (g : progress) (h : heap) (o : Z) :
  Inv pending g h -> reachable m0 F L rts o ->
  Inv (o :: pending) g
    (set_large_object_space h
       (snd (large_object_space_copy (heap_large_object_space h) o))).
Proof.
  intros HI Hreach. open_tracing HI.
  constructor; cbn [memory heap_semi_space heap_large_object_space
                    set_large_object_space]; auto.
  - intros key loc Hs. destruct (Hslots key loc Hs) as [Hd Hu].
    split; cbn [memory heap_large_object_space set_large_object_space];
      [| exact Hu].
    intros Hin. destruct (Hd Hin) as (E1 & E2 & E3).
    split; [exact E1 |]. split; [exact E2 |].
    intros HvL. rewrite (copy_marks _ _ _ contract), (E3 HvL).
    apply orb_true_r.
  - intros o' Ho'. rewrite (copy_contains _ _ _ contract). auto.
  - intros o' f Ho' Hum. apply (Hunmarked o' f Ho').
    rewrite (copy_marks _ _ _ contract) in Hum.
    apply orb_false_iff in Hum. tauto.
  - intros o' Ho' Hmk. rewrite (copy_marks _ _ _ contract) in Hmk.
    destruct (Z.eqb_spec o' o) as [-> | Hne]; [left; now left |].
    cbn in Hmk. destruct (Hmarked o' Ho' Hmk) as [Hp | Hall];
      [left; now right | now right].
  - now apply (copy_pages_ok _ _ _ contract).
  - intros o' Ho' Hmk. rewrite (copy_marks _ _ _ contract) in Hmk.
    destruct (Z.eqb_spec o' o) as [-> | Hne]; [exact Hreach |].
    cbn in Hmk. auto.
Qed.

Lemma scanned_large (pending : list Z) (g : progress) (h : heap) (o : Z) :
  Inv (o :: pending) g h ->
  (forall f, In f (fields_of m0 o) -> In f (done g)) ->
  Inv pending g h.
Proof.
  intros HI Hall. open_tracing HI. constructor; auto.
  intros o' Ho' Hmk. destruct (Hmarked o' Ho' Hmk) as [[<- | Hp] | H];
    [now right | now left | now right].
Qed.

Lemma marked_again (pending : list Z) (g : progress) (h : heap) (o : Z) :
  Inv pending g h -> marked (heap_large_object_space h) o = true ->
  reachable m0 F L rts o ->
  Inv pending g
    (set_large_object_space h
       (snd (large_object_space_copy (heap_large_object_space h) o))).
Proof.
  intros HI Hmk Hreach.
  pose proof (mark_large pending g h o HI Hreach) as HI'.
  assert (Hm : forall o', In o' L ->
            marked (heap_large_object_space h) o' = true ->
            In o' pending \/ forall f, In f (fields_of m0 o') -> In f (done g))
    by (open_fields HI; assumption).
  clear HI. open_tracing HI'. constructor; auto.
  intros o' Ho' Hmk'.
  cbn [heap_large_object_space set_large_object_space] in Hmk'.
  rewrite (copy_marks _ _ _ contract) in Hmk'.
  apply Hm; [exact Ho' |].
  destruct (Z.eqb_spec o' o) as [-> | Hne]; [exact Hmk | exact Hmk'].
Qed.

Lemma filter_length_le {A : Type} (p p' : A -> bool) (l : list A) :
  (forall x, In x l -> p' x = true -> p x = true) ->
  (length (filter p' l) <= length (filter p l))%nat.
Proof.
  induction l as [| x l IH]; intros H; cbn; [lia |].
  assert (IH' := IH (fun y Hy => H y (or_intror Hy))).
  destruct (p' x) eqn:E'.
  - rewrite (H x (or_introl eq_refl) E'). cbn. lia.
  - destruct (p x); cbn; lia.
Qed.

Lemma Forall2_diag {A : Type} (R : A -> A -> Prop) (l : list A) :
  (forall x, In x l -> R x x) -> Forall2 R l l.
Proof.
  induction l as [| x l IH]; intros H; constructor.
  - apply H. now left.
  - apply IH. intros y Hy. apply H. now right.
Qed.

Lemma Forall2_map_r {X Y : Type} (R : X -> Y -> Prop) (f : X -> Y)
    (l : list X) :
  (forall x, In x l -> R x (f x)) -> Forall2 R l (map f l).
Proof.
  induction l as [| x l IH]; intros H; constructor.
  - apply H. now left.
  - apply IH. intros y Hy. apply H. now right.
Qed.

Lemma filter_length_le_all {A : Type} (p : A -> bool) (l : list A) :
  (length (filter p l) <= length l)%nat.
Proof.
  induction l as [| x l IH]; cbn; [lia |]. destruct (p x); cbn; lia.
Qed.

Lemma filter_length_lt {A : Type} (p p' : A -> bool) (l : list A) (v : A) :
  (forall x, In x l -> p' x = true -> p x = true) ->
  In v l -> p v = true -> p' v = false ->
  (length (filter p' l) < length (filter p l))%nat.
Proof.
  induction l as [| x l IH]; intros H Hin Hp Hp'; [contradiction |].
  assert (Hle := filter_length_le p p' l (fun y Hy => H y (or_intror Hy))).
  cbn. destruct Hin as [-> | Hin].
  - rewrite Hp, Hp'. cbn. lia.
  - assert (IH' := IH (fun y Hy => H y (or_intror Hy)) Hin Hp Hp').
    destruct (p' x) eqn:E'.
    + rewrite (H x (or_introl eq_refl) E'). cbn. lia.
    + destruct (p x); cbn; lia.
Qed.

Local Abbreviation unmarked_in := (unmarked marked L).

Lemma unmarked_le (h h' : heap (los := los)) :
  (forall x, marked (heap_large_object_space h) x = true ->
             marked (heap_large_object_space h') x = true) ->
  (length (unmarked_in h') <= length (unmarked_in h))%nat.
Proof.
  intros H. unfold unmarked. apply filter_length_le.
  intros x _ Hx. apply negb_true_iff in Hx. apply negb_true_iff.
  destruct (marked (heap_large_object_space h) x) eqn:E; [| reflexivity].
  rewrite (H x E) in Hx. discriminate.
Qed.

Lemma unmarked_lt (h : heap (los := los)) (o : Z) :
  In o L -> marked (heap_large_object_space h) o = false ->
  (length
     (unmarked_in
        (set_large_object_space h
           (snd (large_object_space_copy (heap_large_object_space h) o))))
   < length (unmarked_in h))%nat.
Proof.
  intros Ho Hum. unfold unmarked. apply filter_length_lt with (v := o).
  - intros x _ Hx. cbn [heap_large_object_space set_large_object_space] in Hx.
    rewrite (copy_marks _ _ _ contract) in Hx.
    apply negb_true_iff in Hx. apply orb_false_iff in Hx.
    apply negb_true_iff. tauto.
  - exact Ho.
  - now rewrite Hum.
  - cbn [heap_large_object_space set_large_object_space].
    rewrite (copy_marks _ _ _ contract), Z.eqb_refl. reflexivity.
Qed.

(** *** What a visit may change *)

Lemma extends_refl (h : heap) (g : progress) : Ext h g g h [].
Proof.
  constructor; auto.
  - exists []. now rewrite app_nil_r.
  - intros x [].
Qed.

Lemma extends_trans (h h1 h2 : heap) (g g1 g2 : progress) (ks ks' : list Z) :
  Ext h g g1 h1 ks -> Ext h1 g1 g2 h2 ks' ->
  Ext h g g2 h2 (ks ++ ks').
Proof.
  intros [[m1 E1] D1 K1 Fr1 M1 W1] [[m2 E2] D2 K2 Fr2 M2 W2].
  constructor.
  - exists (m1 ++ m2). rewrite E2, E1, app_assoc. reflexivity.
  - auto.
  - intros x Hx. apply in_app_or in Hx. destruct Hx; auto.
  - intros x Hx. destruct (Fr2 x Hx) as [H | [H | (o & Ho & Hum & Hf)]].
    + destruct (Fr1 x H) as [H' | [H' | H']]; auto.
      right. left. apply in_or_app. now left.
    + right. left. apply in_or_app. now right.
    + right. right. exists o. split; [exact Ho |]. split; [| exact Hf].
      destruct (marked (heap_large_object_space h) o) eqn:E; [| reflexivity].
      rewrite (M1 o E) in Hum. discriminate.
  - auto.
  - lia.
Qed.

(** *** Visiting a slot *)

Lemma slot_reference (g : progress) (key loc : Z) :
  progress_ok F g -> Slot g key loc -> reference F L (load m0 key).
Proof.
  intros P H. destruct H as [r Hr | o f Ho Hf | o f Ho Hf].
  - rewrite Forall_forall in Hroots_refs. auto.
  - exact (field_ref o f (or_intror Ho) Hf).
  - exact (field_ref o f (or_introl (copied_in_F g o P Ho)) Hf).
Qed.

Lemma contains_small (space : semi_space) (v : Z) :
  base space = B -> size space = SZ -> In v F ->
  semi_space_contains space v = true /\ v <> 0.
Proof.
  intros Eb Es Hv. pose proof (small_facts v Hv).
  unfold semi_space_contains, Word.sub. rewrite Eb, Es.
  rewrite wrap_small by lia. split; [apply Z.ltb_lt |]; lia.
Qed.

Lemma contains_large (space : semi_space) (v : Z) :
  base space = B -> size space = SZ -> In v L ->
  semi_space_contains space v = false /\ v <> 0.
Proof.
  intros Eb Es Hv. pose proof (large_facts v Hv) as Hl.
  unfold semi_space_contains, Word.sub. rewrite Eb, Es.
  split; [| lia]. apply Z.ltb_ge.
  destruct (Z.lt_ge_cases v B) as [Hlt | Hge].
  - unfold Word.wrap.
    replace ((v - B) mod Word.modulus) with (v - B + Word.modulus); [lia |].
    apply Z.mod_unique with (q := -1); lia.
  - rewrite wrap_small by lia. lia.
Qed.

Lemma zero_not_small : ~ In 0 F.
Proof. intros H. pose proof (small_facts 0 H). lia. Qed.

Lemma forwarded_other (g : progress) (v : Z) : ~ In v F -> fwd g v = v.
Proof.
  intros H. unfold forwarded. destruct (in_dec Z.eq_dec v F); tauto.
Qed.

Lemma forwarded_small (g : progress) (v : Z) : In v F -> fwd g v = caddr g v.
Proof.
  intros H. unfold forwarded. destruct (in_dec Z.eq_dec v F); tauto.
Qed.

(** what a slot of the collector holds is reachable *)
Lemma slot_reachable (pending : list Z) (g : progress) (h : heap)
    (key loc : Z) :
  Inv pending g h -> Slot g key loc ->
  (forall o, In o L -> In key (fields_of m0 o) ->
     marked (heap_large_object_space h) o = true) ->
  In (load m0 key) F \/ In (load m0 key) L ->
  reachable m0 F L rts (load m0 key).
Proof.
  intros HI Hs. destruct Hs as [r Hr | o f Ho Hf | o f Ho Hf]; intros Hkey Hv.
  - exact (reach_root m0 F L rts r _ Hr eq_refl Hv).
  - apply (reach_field m0 F L rts o f _); auto.
    apply (tr_reached_large _ _ _ _ _ _ _ _ _ _ _ _ _ HI o Ho). auto.
  - apply (reach_field m0 F L rts o f _); auto.
    exact (tr_reached _ _ _ _ _ _ _ _ _ _ _ _ _ HI o Ho).
Qed.

Lemma visit_ok (scan_rec : heap -> Z -> outcome (Z * heap)) (n : nat) :
  (forall n', n = S n' -> Scans scan_rec n') ->
  forall pending g h key loc,
    Inv pending g h -> Slot g key loc -> ~ In key (done g) ->
    (forall o, In o L -> In key (fields_of m0 o) ->
       marked (heap_large_object_space h) o = true) ->
    (length (unmarked_in h) <= n)%nat ->
    exists g' h',
      visit_with scan_rec h loc = Done h' /\ Inv pending g' h'
      /\ Ext h g g' h' [key].
Proof.
  intros Hrec pending g h key loc HI Hslot Hnew Hkey Hn.
  pose proof (tracing_progress_ok _ _ _ HI) as Hprog.
  assert (Hv : load (memory h) loc = load m0 key).
  { open_fields HI. destruct (tr_slots key loc Hslot) as [_ Hu]. auto. }
  assert (Hbase : base (heap_semi_space h) = B) by (open_fields HI; assumption).
  assert (Hsize : size (heap_semi_space h) = SZ) by (open_fields HI; assumption).
  unfold visit_with. rewrite Hv.
  set (v := load m0 key) in *.
  pose proof (slot_reference g key loc Hprog Hslot) as Href. fold v in Href.
  assert (Hreach : In v F \/ In v L -> reachable m0 F L rts v)
    by exact (slot_reachable pending g h key loc HI Hslot Hkey).
  destruct Href as [Hz | [HvF | HvL]].
  - (* null *)
    rewrite Hz. cbn [Z.eqb].
    exists (mk_progress (copied g) (white g) (key :: done g)), h.
    split; [reflexivity |]. split.
    + rewrite <- (set_memory_same h).
      eapply (update_slot _ _ _ _ key loc); auto.
      * fold v. rewrite Hz, forwarded_other by exact zero_not_small.
        rewrite <- Hz. exact Hv.
      * fold v. rewrite Hz. intros H. exfalso. exact (zero_not_small H).
      * fold v. rewrite Hz. intros H. pose proof (large_facts 0 H). lia.
    + constructor; cbn [copied white done]; auto.
      * exists []. now rewrite app_nil_r.
      * intros x Hx. now right.
      * intros x [<- | []]. now left.
      * intros x [<- | Hx]; [right; left; now left | now left].
  - (* a semi-space object *)
    destruct (contains_small _ v Hbase Hsize HvF) as [Hc Hnz].
    apply Z.eqb_neq in Hnz. rewrite Hnz, Hc. unfold visit_semi_space.
    assert (Hcw : In v (copied g) \/ In v (white g)).
    { apply in_app_or. apply (Permutation_in _ (Permutation_sym Hprog)).
      exact HvF. }
    destruct Hcw as [Hvc | Hvw].
    + (* already copied *)
      rewrite (forward_copied pending g h v HI Hvc). cbn [bind].
      exists (mk_progress (copied g) (white g) (key :: done g)).
      eexists. split; [reflexivity |]. split.
      * eapply (update_slot _ _ _ _ key loc); auto.
        -- intros x Hx. apply store_byte_out. lia.
        -- rewrite load_store_same. fold v.
           rewrite forwarded_small by exact HvF.
           pose proof (copy_facts g v Hprog Hvc).
           pose proof (small_facts v HvF). apply wrap_small. lia.
        -- fold v. intros H. exfalso. exact (small_not_large v HvF H).
      * constructor; cbn [copied white done heap_large_object_space
                          set_memory]; auto.
        -- exists []. now rewrite app_nil_r.
        -- intros x Hx. now right.
        -- intros x [<- | []]. now left.
        -- intros x [<- | Hx]; [right; left; now left | now left].
    + (* not copied yet *)
      destruct (forward_white pending g h v HI Hvw (Hreach (or_introl HvF)))
        as (g1 & h1 & Ef & HI1 & Ec & Ed & Ew & El).
      rewrite Ef. cbn [bind].
      pose proof (tracing_progress_ok _ _ _ HI1) as Hprog1.
      assert (Hvc : In v (copied g1))
        by (rewrite Ec; apply in_or_app; right; now left).
      exists (mk_progress (copied g1) (white g1) (key :: done g1)).
      eexists. split; [reflexivity |]. split.
      * eapply (update_slot _ _ _ _ key loc); auto.
        -- exact (slot_mono g g1 [v] key loc Ec Hslot).
        -- rewrite Ed. exact Hnew.
        -- rewrite El. exact Hkey.
        -- intros x Hx. apply store_byte_out. lia.
        -- rewrite load_store_same. fold v.
           rewrite forwarded_small by exact HvF.
           pose proof (copy_facts g1 v Hprog1 Hvc).
           pose proof (small_facts v HvF). apply wrap_small. lia.
        -- fold v. intros H. exfalso. exact (small_not_large v HvF H).
      * constructor; cbn [copied white done heap_large_object_space
                          set_memory]; auto.
        -- exists [v]. exact Ec.
        -- intros x Hx. right. rewrite Ed. exact Hx.
        -- intros x [<- | []]. now left.
        -- rewrite Ed. intros x [<- | Hx]; [right; left; now left | now left].
        -- rewrite El. auto.
        -- rewrite Ec, length_app. cbn. lia.
  - (* a large object *)
    destruct (contains_large _ v Hbase Hsize HvL) as [Hc Hnz].
    apply Z.eqb_neq in Hnz. rewrite Hnz, Hc.
    assert (Hk : large_object_space_contains (heap_large_object_space h) v
                 = true) by (open_fields HI; auto).
    rewrite Hk. unfold visit_large_object_space.
    pose proof (copy_first _ _ _ contract (heap_large_object_space h) v) as E1.
    destruct (large_object_space_copy (heap_large_object_space h) v)
      as [first l'] eqn:Ecopy.
    cbn [fst] in E1.
    assert (El' : l' = snd (large_object_space_copy
                              (heap_large_object_space h) v))
      by (rewrite Ecopy; reflexivity).
    destruct (marked (heap_large_object_space h) v) eqn:Emk;
      cbn [negb] in E1; subst first.
    + (* marked before *)
      pose proof (marked_again pending g h v HI Emk (Hreach (or_intror HvL)))
        as HI1.
      rewrite <- El' in HI1.
      exists (mk_progress (copied g) (white g) (key :: done g)).
      eexists. split; [reflexivity |]. split.
      * rewrite <- (set_memory_same (set_large_object_space h l')).
        eapply (update_slot _ _ _ _ key loc); auto;
          cbn [heap_large_object_space set_large_object_space memory].
        -- intros o Ho Hf. rewrite El', (copy_marks _ _ _ contract).
           rewrite (Hkey o Ho Hf). apply orb_true_r.
        -- fold v. rewrite forwarded_other; [exact Hv |].
           intros H. exact (small_not_large v H HvL).
        -- fold v. intros H. exfalso. exact (small_not_large v H HvL).
        -- fold v. intros _. rewrite El', (copy_marks _ _ _ contract), Emk.
           apply orb_true_r.
      * constructor; cbn [copied white done heap_large_object_space
                          set_large_object_space]; auto.
        -- exists []. now rewrite app_nil_r.
        -- intros x Hx. now right.
        -- intros x [<- | []]. now left.
        -- intros x [<- | Hx]; [right; left; now left | now left].
        -- intros x Hx. rewrite El', (copy_marks _ _ _ contract), Hx.
           apply orb_true_r.
    + (* the first mark: scan it *)
      pose proof (mark_large pending g h v HI (Hreach (or_intror HvL))) as HI1.
      rewrite <- El' in HI1.
      set (h1 := set_large_object_space h l') in *.
      pose proof (unmarked_lt h v HvL Emk) as Hlt. rewrite <- El' in Hlt.
      fold h1 in Hlt.
      destruct n as [| n']; [lia |].
      assert (Hmk1 : marked (heap_large_object_space h1) v = true).
      { unfold h1. cbn [heap_large_object_space set_large_object_space].
        rewrite El', (copy_marks _ _ _ contract), Z.eqb_refl. reflexivity. }
      assert (Hmono : forall x, marked (heap_large_object_space h) x = true ->
                        marked (heap_large_object_space h1) x = true).
      { intros x Hx. unfold h1.
        cbn [heap_large_object_space set_large_object_space].
        rewrite El', (copy_marks _ _ _ contract), Hx. apply orb_true_r. }
      assert (Hfresh : forall f, In f (fields_of m0 v) -> ~ In f (done g))
        by (intros f Hf; open_fields HI; eauto).
      destruct (Hrec n' eq_refl pending g h1 v HI1 HvL Hmk1 Hfresh
                  ltac:(lia))
        as (g2 & h2 & x & Es & HI2 & Hext).
      rewrite Es. cbn [bind].
      destruct Hext as [[more Ec] D2 K2 Fr2 M2 W2].
      assert (Hnew2 : ~ In key (done g2)).
      { intros Hin. destruct (Fr2 key Hin) as [H | [H | (o & Ho & Hum & Hf)]].
        - exact (Hnew H).
        - pose proof (Hkey v HvL H). congruence.
        - pose proof (Hmono o (Hkey o Ho Hf)). congruence. }
      exists (mk_progress (copied g2) (white g2) (key :: done g2)), h2.
      split; [reflexivity |]. split.
      * rewrite <- (set_memory_same h2).
        eapply (update_slot _ _ _ _ key loc); auto.
        -- exact (slot_mono g g2 more key loc Ec Hslot).
        -- fold v. rewrite forwarded_other
             by (intros H; exact (small_not_large v H HvL)).
           open_fields HI2.
           destruct (tr_slots key loc (slot_mono g g2 more key loc Ec Hslot))
             as [_ Hu]. auto.
        -- fold v. intros H. exfalso. exact (small_not_large v H HvL).
      * constructor; cbn [copied white done]; auto.
        -- exists more. exact Ec.
        -- intros y Hy. right. auto.
        -- intros y [<- | []]. now left.
        -- intros y [<- | Hy]; [right; left; now left |].
           destruct (Fr2 y Hy) as [H | [H | (o & Ho & Hum & Hf)]].
           ++ now left.
           ++ right. right. exists v. auto.
           ++ right. right. exists o. split; [exact Ho |].
              split; [| exact Hf].
              destruct (marked (heap_large_object_space h) o) eqn:E;
                [| reflexivity].
              rewrite (Hmono o E) in Hum. discriminate.
Qed.

Lemma slots_apart_NoDup (slots : list Z) : slots_apart slots -> NoDup slots.
Proof.
  induction slots as [| x slots IH]; intros H; [constructor |].
  cbn in H. destruct H as [Hx H]. constructor; [| auto].
  intros Hin. rewrite Forall_forall in Hx. specialize (Hx x Hin). lia.
Qed.

Lemma visit_each_ok (scan_rec : heap -> Z -> outcome (Z * heap)) (n : nat) :
  (forall n', n = S n' -> Scans scan_rec n') ->
  forall keys locs pending g h,
    Inv pending g h -> Forall2 (Slot g) keys locs -> NoDup keys ->
    (forall k, In k keys -> ~ In k (done g)) ->
    (forall k o, In k keys -> In o L -> In k (fields_of m0 o) ->
       marked (heap_large_object_space h) o = true) ->
    (length (unmarked_in h) <= n)%nat ->
    exists g' h',
      visit_each scan_rec h locs = Done h' /\ Inv pending g' h'
      /\ Ext h g g' h' keys.
Proof.
  intros Hrec keys.
  induction keys as [| key keys IH];
    intros locs pending g h HI Hslots Hnd Hnew Hkey Hn;
    inversion Hslots as [| ? loc ? locs' Hslot Hrest]; subst.
  - exists g, h. split; [reflexivity |]. split; [exact HI |].
    apply extends_refl.
  - cbn [visit_each].
    destruct (visit_ok scan_rec n Hrec pending g h key loc HI Hslot)
      as (g1 & h1 & Ev & HI1 & Hext1); auto.
    { apply Hnew. now left. }
    { intros o Ho Hf. apply (Hkey key o); auto. now left. }
    rewrite Ev. cbn [bind].
    inversion Hnd as [| ? ? Hnin Hnd']; subst.
    pose proof Hext1 as [[more Ec] D1 K1 Fr1 M1 W1].
    assert (Hslots1 : Forall2 (Slot g1) keys locs').
    { clear - Hrest Ec. induction Hrest; constructor; auto.
      eapply slot_mono; eauto. }
    destruct (IH locs' pending g1 h1 HI1 Hslots1 Hnd')
      as (g2 & h2 & Ee & HI2 & Hext2).
    + intros k Hk Hin.
      destruct (Fr1 k Hin) as [H | [[<- | []] | (o & Ho & Hum & Hf)]].
      * apply (Hnew k); [now right | exact H].
      * exact (Hnin Hk).
      * rewrite (Hkey k o) in Hum; auto; [discriminate | now right].
    + intros k o Hk Ho Hf. apply M1. apply (Hkey k o); auto. now right.
    + pose proof (unmarked_le h h1 M1). lia.
    + exists g2, h2. split; [exact Ee |]. split; [exact HI2 |].
      exact (extends_trans h h1 h2 g g1 g2 [key] keys Hext1 Hext2).
Qed.

(** *** Scanning *)

Lemma scan_large_ok (scan_rec : heap -> Z -> outcome (Z * heap)) (n : nat) :
  (forall n', n = S n' -> Scans scan_rec n') ->
  Scans (scan_with scan_rec) n.
Proof.
  intros Hrec pending g h o HI Ho Hmk Hfresh Hn.
  assert (Hhdr : load (memory h) o = kind_of m0 o) by (open_fields HI; auto).
  assert (Hbody : forall i, 8 <= i < size_of m0 o -> ~ in_field m0 o i ->
                    memory h (o + i) = m0 (o + i))
    by (open_fields HI; auto).
  pose proof (large_ok o Ho) as Hok.
  destruct (layout_at o (memory h) o (or_intror Ho) Hbody) as [_ Efields].
  rewrite map_shift_id in Efields.
  unfold scan_with. rewrite Hhdr, (ok_kind _ _ _ Hok), Efields.
  destruct (visit_each_ok scan_rec n Hrec (fields_of m0 o) (fields_of m0 o)
              (o :: pending) g h HI)
    as (g' & h' & Ev & HI' & Hext); auto.
  - apply Forall2_diag. intros f Hf. now apply (slot_large _ _ _ _ _ o).
  - apply slots_apart_NoDup. exact (ok_fields_apart _ _ _ Hok).
  - intros k o' Hk Ho' Hf.
    assert (o = o') by (eapply field_owner; eauto). subst o'. exact Hmk.
  - rewrite Ev. cbn [bind]. eexists g', h', _.
    split; [reflexivity |]. split; [| exact Hext].
    apply (scanned_large pending g' h' o HI').
    exact (ext_keys _ _ _ _ _ _ _ _ Hext).
Qed.

Lemma scan_large_fuel (n : nat) : Scans (scan (S n)) n.
Proof.
  induction n as [| n IH]; cbn [scan]; apply scan_large_ok.
  - intros n' E. discriminate.
  - intros n' E. injection E as <-. exact IH.
Qed.

Lemma scan_rec_fuel (n : nat) :
  forall n', n = S n' -> Scans (scan n) n'.
Proof. intros n' ->. apply scan_large_fuel. Qed.

Lemma caddr_extends (g g' : progress) (more : list Z) (o : Z) :
  copied g' = copied g ++ more -> In o (copied g) -> caddr g' o = caddr g o.
Proof.
  intros E Ho. unfold copy_address. rewrite E. f_equal.
  apply offset_in_app_old. exact Ho.
Qed.

(** scanning the copy of [o] *)
Lemma scan_copy_ok (scan_rec : heap -> Z -> outcome (Z * heap)) (n : nat) :
  (forall n', n = S n' -> Scans scan_rec n') ->
  forall pending g h o,
    Inv pending g h -> In o (copied g) ->
    (forall f, In f (fields_of m0 o) -> ~ In f (done g)) ->
    (length (unmarked_in h) <= n)%nat ->
    exists g' h',
      scan_with scan_rec h (caddr g o) = Done (caddr g o + asize o, h')
      /\ Inv pending g' h' /\ Ext h g g' h' (fields_of m0 o).
Proof.
  intros Hrec pending g h o HI Ho Hfresh Hn.
  pose proof (tracing_progress_ok _ _ _ HI) as Hprog.
  pose proof (copied_in_F g o Hprog Ho) as HoF.
  assert (Hhdr : load (memory h) (caddr g o) = kind_of m0 o)
    by (open_fields HI; auto).
  assert (Hbody : forall i, 8 <= i < size_of m0 o -> ~ in_field m0 o i ->
                    memory h (caddr g o + i) = m0 (o + i))
    by (open_fields HI; auto).
  pose proof (small_ok o HoF) as Hok.
  destruct (layout_at o (memory h) (caddr g o) (or_introl HoF) Hbody)
    as [_ Efields].
  unfold scan_with. rewrite Hhdr, (ok_kind _ _ _ Hok), Efields.
  destruct (visit_each_ok scan_rec n Hrec (fields_of m0 o)
              (map (fun f => f - o + caddr g o) (fields_of m0 o))
              pending g h HI)
    as (g' & h' & Ev & HI' & Hext); auto.
  - apply Forall2_map_r. intros f Hf.
    replace (f - o + caddr g o) with (caddr g o + (f - o)) by lia.
    now apply slot_copy.
  - apply slots_apart_NoDup. exact (ok_fields_apart _ _ _ Hok).
  - intros k o' Hk Ho' Hf. exfalso.
    assert (o = o') by (eapply field_owner; eauto). subst o'.
    exact (small_not_large o HoF Ho').
  - rewrite Ev. cbn [bind].
    pose proof Hext as [[more Ec] _ _ _ _ _].
    pose proof (caddr_extends g g' more o Ec Ho) as Eaddr.
    assert (Hbody' : forall i, 8 <= i < size_of m0 o -> ~ in_field m0 o i ->
                       memory h' (caddr g o + i) = m0 (o + i)).
    { intros i Hi Hnf. rewrite <- Eaddr. open_fields HI'.
      apply tr_copy_body; auto. rewrite Ec. apply in_or_app. now left. }
    destruct (layout_at o (memory h') (caddr g o) (or_introl HoF) Hbody')
      as [Esize _].
    rewrite Esize. exists g', h'. split; [| split; assumption].
    f_equal. f_equal. unfold Word.add. fold (asize o).
    pose proof (copy_facts g o Hprog Ho). pose proof (small_facts o HoF).
    apply wrap_small. lia.
Qed.

(** *** The loop *)

Lemma scan_loop_ok (fuel : nat) :
  forall steps scanned unscanned g h,
    Inv [] g h -> copied g = scanned ++ unscanned ->
    (forall o f, In o unscanned -> In f (fields_of m0 o) -> ~ In f (done g)) ->
    (forall o f, In o scanned -> In f (fields_of m0 o) -> In f (done g)) ->
    (length (unmarked_in h) <= fuel)%nat ->
    (length unscanned + length (white g) < steps)%nat ->
    exists g' h',
      (forall steps',
         (length (copied g') < steps' + length scanned)%nat ->
         scan_loop steps' (S fuel) h (T + total m0 scanned) = Done h')
      /\ Inv [] g' h'
      /\ (forall o f, In o (copied g') -> In f (fields_of m0 o) ->
            In f (done g'))
      /\ (exists more, copied g' = copied g ++ more)
      /\ (forall x, In x (done g) -> In x (done g'))
      /\ (forall x, marked (heap_large_object_space h) x = true ->
                    marked (heap_large_object_space h') x = true).
Proof.
  intros steps. induction steps as [| steps IH];
    intros scanned unscanned g h HI Ec Hun Hsc Hn Hsteps; [lia |].
  pose proof (tracing_progress_ok _ _ _ HI) as Hprog.
  assert (Hhp : hp (heap_semi_space h) = T + total m0 (copied g))
    by (open_fields HI; assumption).
  destruct unscanned as [| o rest].
  - (* the cursor has caught up *)
    exists g, h. split.
    { intros steps' Hs'.
      destruct steps' as [| s]; [rewrite Ec, app_nil_r in Hs'; lia |].
      cbn [scan_loop]. rewrite Hhp, Ec, total_app. cbn [total].
      rewrite Z.add_0_r, Z.ltb_irrefl. reflexivity. }
    split; [exact HI |].
    split; [| split; [| split]]; auto.
    + intros o f Ho Hf. rewrite Ec, app_nil_r in Ho. eauto.
    + exists []. now rewrite app_nil_r.
  - assert (Ho : In o (copied g))
      by (rewrite Ec; apply in_or_app; right; now left).
    pose proof (copied_in_F g o Hprog Ho) as HoF.
    pose proof (small_facts o HoF) as Hfo.
    pose proof (copied_sized g Hprog) as Hsz. rewrite Ec in Hsz.
    apply sized_app in Hsz. destruct Hsz as [_ Hsz].
    inversion Hsz as [| ? ? _ Hszr]; subst.
    pose proof (total_nonneg m0 rest Hszr) as Hnn.
    assert (Hnd : NoDup (scanned ++ o :: rest)).
    { rewrite <- Ec. pose proof (progress_NoDup g Hprog) as H.
      apply NoDup_app_remove_r in H. exact H. }
    assert (Hnin : ~ In o scanned).
    { intros Hin. apply NoDup_remove_2 in Hnd. apply Hnd.
      apply in_or_app. now left. }
    assert (Eaddr : caddr g o = T + total m0 scanned).
    { unfold copy_address. rewrite Ec, offset_in_app_new by exact Hnin.
      reflexivity. }
    destruct (scan_copy_ok (scan fuel) fuel (scan_rec_fuel fuel) [] g h o HI Ho)
      as (g1 & h1 & Es & HI1 & Hext); auto.
    { intros f Hf. apply (Hun o f); auto. now left. }
    destruct Hext as [[more Ec1] D1 K1 Fr1 M1 W1].
    pose proof (tracing_progress_ok _ _ _ HI1) as Hprog1.
    assert (Enext : caddr g o + asize o = T + total m0 (scanned ++ [o]))
      by (rewrite Eaddr, total_app; cbn; lia).
    destruct (IH (scanned ++ [o]) (rest ++ more) g1 h1 HI1)
      as (g2 & h2 & El & HI2 & Hall & [more2 Ec2] & D2 & M2).
    + rewrite Ec1, Ec, <- !app_assoc. reflexivity.
    + intros o' f Ho' Hf Hin.
      assert (Ho'1 : In o' (copied g1)).
      { rewrite Ec1, Ec. apply in_app_or in Ho'.
        destruct Ho' as [Ho' | Ho'];
          [| apply in_or_app; now right].
        apply in_or_app. left. apply in_or_app. right. now right. }
      pose proof (copied_in_F g1 o' Hprog1 Ho'1) as Ho'F.
      destruct (Fr1 f Hin) as [H | [H | (O & HO & _ & HfO)]].
      * (* done before *)
        apply in_app_or in Ho'. destruct Ho' as [Ho' | Ho'].
        -- apply (Hun o' f); auto. now right.
        -- assert (Hw : In o' (white g)).
           { assert (Hcw : In o' (copied g ++ white g))
               by (apply (Permutation_in _ (Permutation_sym Hprog));
                   exact Ho'F).
             apply in_app_or in Hcw. destruct Hcw as [Hc | Hw]; [| exact Hw].
             exfalso. pose proof (progress_NoDup g1 Hprog1) as Hnd1.
             apply NoDup_app_remove_r in Hnd1. rewrite Ec1 in Hnd1.
             revert Hnd1 Hc Ho'. clear. generalize (copied g) as c.
             induction c as [| x c IHc]; [intros _ [] |].
             intros Hnd [-> | Hc] Hm.
             - inversion Hnd; subst. apply H1. apply in_or_app. now right.
             - inversion Hnd; subst. eauto. }
           open_fields HI. exact (tr_white_fields o' f Hw Hf H).
      * (* a field of the object just scanned *)
        assert (o = o') by (eapply field_owner; eauto). subst o'.
        apply in_app_or in Ho'. destruct Ho' as [Ho' | Ho'].
        -- apply NoDup_remove_2 in Hnd. apply Hnd. apply in_or_app.
           now right.
        -- pose proof (progress_NoDup g1 Hprog1) as Hnd1.
           apply NoDup_app_remove_r in Hnd1. rewrite Ec1 in Hnd1.
           revert Hnd1 Ho Ho'. clear. generalize (copied g) as c.
           induction c as [| x c IHc]; [intros _ [] |].
           intros Hnd [-> | Hc] Hm.
           ++ inversion Hnd; subst. apply H1. apply in_or_app. now right.
           ++ inversion Hnd; subst. eauto.
      * (* a field of a large object *)
        assert (o' = O) by (eapply field_owner; eauto). subst O.
        exact (small_not_large o' Ho'F HO).
    + intros o' f Ho' Hf. apply in_app_or in Ho'.
      destruct Ho' as [Ho' | [<- | []]]; [| now apply K1].
      apply D1. eauto.
    + pose proof (unmarked_le h h1 M1). lia.
    + rewrite Ec1, Ec, !length_app in W1. cbn [length] in W1.
      rewrite length_app. cbn [length] in Hsteps. lia.
    + exists g2, h2. split.
      { intros steps' Hs'. destruct steps' as [| s].
        { rewrite Ec2, Ec1, Ec, !length_app in Hs'. cbn [length] in Hs'.
          lia. }
        cbn [scan_loop]. rewrite Hhp, Ec, total_app. cbn [total].
        destruct (Z.ltb_spec (T + total m0 scanned)
                    (T + (total m0 scanned + (asize o + total m0 rest))))
          as [_ | Hge]; [| lia].
        rewrite <- Eaddr. cbn [scan]. rewrite Es. cbn [bind]. rewrite Enext.
        apply El. rewrite length_app. cbn [length]. lia. }
      split; [exact HI2 |].
      split; [exact Hall |]. split; [| split].
      * exists (more ++ more2). rewrite Ec2, Ec1, Ec, <- !app_assoc.
        reflexivity.
      * auto.
      * auto.
Qed.

(** *** A whole trace: the roots, then the loop *)

Lemma tracing_initial (space : semi_space) (l : los) :
  base space = B -> size space = SZ -> limit space = T + HALF ->
  hp space = T ->
  (forall o, In o L -> large_object_space_contains l o = true) ->
  (forall x, marked l x = false) -> pages_ok l ->
  Inv [] (mk_progress [] F []) (mk_heap m0 space l).
Proof.
  intros Eb Es El Eh Hc Hm Hp.
  constructor; cbn [copied white done memory heap_semi_space
                    heap_large_object_space app]; auto.
  - cbn. lia.
  - intros o [].
  - intros o [].
  - intros o i [].
  - intros key loc Hs. destruct Hs as [r Hr | o f Ho Hf | o f [] Hf];
      (split; cbn [done]; [intros [] | reflexivity]).
  - intros o Ho Hmk. rewrite Hm in Hmk. discriminate.
  - intros o [].
  - intros o Ho Hmk. rewrite Hm in Hmk. discriminate.
Qed.

Lemma trace_ok (fuel : nat) (h0 : heap) :
  Inv [] (mk_progress [] F []) h0 ->
  (length L < fuel)%nat ->
  exists g h,
    (forall steps,
       (length (copied g) < steps)%nat ->
       (h1 <- visit_roots fuel h0 rts ;; scan_loop steps fuel h1 T) = Done h)
    /\ Inv [] g h
    /\ (forall r, In r rts -> In r (done g))
    /\ (forall o f, In o (copied g) -> In f (fields_of m0 o) ->
          In f (done g)).
Proof.
  intros HI Hfuel.
  assert (HL : (length (unmarked_in h0) <= length L)%nat).
  { unfold unmarked. apply filter_length_le_all. }
  destruct fuel as [| fuel]; [lia |].
  destruct (visit_each_ok (scan (S fuel)) (S fuel) (scan_rec_fuel (S fuel))
              rts rts [] (mk_progress [] F []) h0 HI)
    as (g1 & h1 & Ev & HI1 & Hext); auto.
  - apply Forall2_diag. intros r Hr. now apply slot_root.
  - apply slots_apart_NoDup. exact Hroots_apart.
  - intros k o Hk Ho Hf. exfalso.
    exact (root_not_field k o Hk (or_intror Ho) Hf).
  - lia.
  - destruct Hext as [[more Ec] D1 K1 Fr1 M1 W1].
    cbn [copied white done app length] in *.
    pose proof (tracing_progress_ok _ _ _ HI1) as Hprog1.
    destruct (scan_loop_ok fuel (S (length (copied g1) + length (white g1)))
                [] (copied g1) g1 h1 HI1 eq_refl)
      as (g2 & h2 & El & HI2 & Hall & _ & D2 & _).
    + intros o f Ho Hf Hin.
      pose proof (copied_in_F g1 o Hprog1 Ho) as HoF.
      destruct (Fr1 f Hin) as [[] | [H | (O & HO & _ & HfO)]].
      * exact (root_not_field f o H (or_introl HoF) Hf).
      * assert (o = O) by (eapply field_owner; eauto). subst O.
        exact (small_not_large o HoF HO).
    + intros o f [].
    + pose proof (unmarked_le h0 h1 M1). lia.
    + lia.
    + cbn [total length] in El. rewrite Z.add_0_r in El.
      exists g2, h2. split.
      { intros steps Hsteps. unfold visit_roots. rewrite Ev. cbn [bind].
        apply El. lia. }
      split; [exact HI2 |].
      split; [| exact Hall]. intros r Hr. apply D2. apply K1. exact Hr.
Qed.

(** *** What a finished trace has established *)

Lemma total_aligned (objs : list Z) : sized m0 objs -> total m0 objs mod 8 = 0.
Proof.
  induction objs as [| o objs IH]; intros Hs; [reflexivity |].
  inversion Hs as [| ? ? Ho Hrest]; subst. cbn [total].
  assert (Ha : asize o mod 8 = 0).
  { unfold aligned_size_of. apply align_up_8_bounds; [lia |].
    rewrite modulus_value. change (2 ^ 62) with 4611686018427387904 in Ho.
    lia. }
  rewrite Z.add_mod, Ha, (IH Hrest) by lia. reflexivity.
Qed.

Lemma trace_summary (g : progress) (h : heap) (m' : mem) :
  Inv [] g h ->
  (forall r, In r rts -> In r (done g)) ->
  (forall o f, In o (copied g) -> In f (fields_of m0 o) -> In f (done g)) ->
  (forall x, x < B \/ B + SZ <= x \/ T <= x < hp (heap_semi_space h) ->
     m' x = memory h x) ->
  NoDup (copied g) /\ incl (copied g) F
  /\ hp (heap_semi_space h) = T + total m0 (copied g)
  /\ total m0 (copied g) mod 8 = 0
  /\ T <= hp (heap_semi_space h) <= T + HALF
  /\ (forall v, ~ In v F -> fwd g v = v)
  /\ (forall o, In o (copied g) ->
        T <= fwd g o /\ fwd g o + asize o <= hp (heap_semi_space h)
        /\ load m' (fwd g o) = kind_of m0 o)
  /\ (forall o o', In o (copied g) -> In o' (copied g) ->
        fwd g o = fwd g o' -> o = o')
  /\ (forall r, In r rts ->
        load m' r = fwd g (load m0 r) /\ kept marked F L g h (load m0 r))
  /\ (forall o f, In o (copied g) -> In f (fields_of m0 o) ->
        load m' (fwd g o + (f - o)) = fwd g (load m0 f)
        /\ kept marked F L g h (load m0 f))
  /\ (forall o f, In o L -> marked (heap_large_object_space h) o = true ->
        In f (fields_of m0 o) ->
        load m' f = fwd g (load m0 f) /\ kept marked F L g h (load m0 f)).
Proof.
  intros HI Hroots Hcopied Hm'.
  pose proof (tracing_progress_ok _ _ _ HI) as Hprog.
  pose proof (total_copied g Hprog) as Htot.
  assert (Hhp : hp (heap_semi_space h) = T + total m0 (copied g))
    by (open_fields HI; assumption).
  assert (Hload : forall a, a + 8 <= B \/ B + SZ <= a
                       \/ (T <= a /\ a + 8 <= hp (heap_semi_space h)) ->
            load m' a = load (memory h) a).
  { intros a Ha. apply load_ext. intros i Hi. apply Hm'. lia. }
  assert (Hfwd_small : forall o, In o (copied g) -> fwd g o = caddr g o).
  { intros o Ho. apply forwarded_small. exact (copied_in_F g o Hprog Ho). }
  assert (Hslot_done : forall key loc,
            Slot g key loc -> In key (done g) ->
            load (memory h) loc = fwd g (load m0 key)
            /\ kept marked F L g h (load m0 key)).
  { intros key loc Hs Hd. open_fields HI.
    destruct (tr_slots key loc Hs) as [Hdone _].
    destruct (Hdone Hd) as (E1 & E2 & E3). unfold kept. auto. }
  split.
  { pose proof (progress_NoDup g Hprog) as H.
    apply NoDup_app_remove_r in H. exact H. }
  split. { intros o Ho. exact (copied_in_F g o Hprog Ho). }
  split; [exact Hhp |].
  split. { apply total_aligned. exact (copied_sized g Hprog). }
  split; [lia |].
  split. { intros v Hv. apply forwarded_other. exact Hv. }
  split.
  { intros o Ho. rewrite (Hfwd_small o Ho).
    pose proof (copy_facts g o Hprog Ho).
    pose proof (small_facts o (copied_in_F g o Hprog Ho)).
    split; [lia |]. split; [lia |].
    rewrite Hload by lia. open_fields HI. auto. }
  split.
  { intros o o' Ho Ho' E. rewrite (Hfwd_small o Ho), (Hfwd_small o' Ho') in E.
    destruct (Z.eq_dec o o') as [Eq | Hne]; [exact Eq | exfalso].
    pose proof (copy_apart g o o' Hprog Ho Ho' Hne).
    pose proof (small_facts o (copied_in_F g o Hprog Ho)).
    pose proof (small_facts o' (copied_in_F g o' Hprog Ho')). lia. }
  split.
  { intros r Hr. pose proof (root_facts r Hr).
    rewrite Hload by lia.
    apply (Hslot_done r r); [now apply slot_root | auto]. }
  split.
  { intros o f Ho Hf. rewrite (Hfwd_small o Ho).
    pose proof (copy_facts g o Hprog Ho).
    pose proof (copied_in_F g o Hprog Ho) as HoF.
    pose proof (small_facts o HoF).
    pose proof (field_facts o f (or_introl HoF) Hf).
    rewrite Hload by lia.
    apply (Hslot_done f); [now apply slot_copy | eauto]. }
  intros o f Ho Hmk Hf.
  pose proof (large_facts o Ho). pose proof (field_facts o f (or_intror Ho) Hf).
  rewrite Hload by lia.
  apply (Hslot_done f f); [now apply (slot_large _ _ _ _ _ o) |].
  open_fields HI. destruct (tr_marked o Ho Hmk) as [[] | Hall]. auto.
Qed.

(** what is reachable is kept, and the objects copied are exactly the
    reachable objects of the condemned half *)
Lemma reachable_in (v : Z) : reachable m0 F L rts v -> In v F \/ In v L.
Proof. intros H. destruct H; assumption. Qed.

Lemma kept_reachable (g : progress) (h : heap) :
  Inv [] g h ->
  (forall r, In r rts -> In r (done g)) ->
  (forall o f, In o (copied g) -> In f (fields_of m0 o) -> In f (done g)) ->
  forall v, reachable m0 F L rts v -> kept marked F L g h v.
Proof.
  intros HI Hroots Hcopied.
  destruct (trace_summary g h (memory h) HI Hroots Hcopied (fun x _ => eq_refl))
    as (_ & _ & _ & _ & _ & _ & _ & _ & Hr & Hf & Hl).
  intros v Hv. induction Hv as [r v Hr' E Hin | o f v Ho IH Hf' E Hin].
  - subst v. exact (proj2 (Hr r Hr')).
  - subst v. destruct IH as [IHF IHL].
    destruct (reachable_in o Ho) as [HoF | HoL].
    + exact (proj2 (Hf o f (IHF HoF) Hf')).
    + exact (proj2 (Hl o f HoL (IHL HoL) Hf')).
Qed.

Lemma survivors_reachable (g : progress) (h : heap) :
  Inv [] g h ->
  (forall r, In r rts -> In r (done g)) ->
  (forall o f, In o (copied g) -> In f (fields_of m0 o) -> In f (done g)) ->
  forall o, In o (copied g) <-> In o F /\ reachable m0 F L rts o.
Proof.
  intros HI Hroots Hcopied o. split.
  - intros Ho. split.
    + exact (copied_in_F g o (tracing_progress_ok _ _ _ HI) Ho).
    + exact (tr_reached _ _ _ _ _ _ _ _ _ _ _ _ _ HI o Ho).
  - intros [HoF Hreach].
    exact (proj1 (kept_reachable g h HI Hroots Hcopied o Hreach) HoF).
Qed.

End Trace.

(** ** The semi-space around a collection *)

Lemma power_of_two_even (sz k : Z) :
  1 <= k -> sz = 2 ^ k -> 0 < sz /\ sz = 2 * (sz / 2).
Proof.
  intros Hk ->. replace k with (1 + (k - 1)) by lia.
  rewrite Z.pow_add_r by lia. change (2 ^ 1) with 2.
  assert (0 < 2 ^ (k - 1)) by (apply Z.pow_pos_nonneg; lia).
  rewrite (Z.mul_comm 2), Z.div_mul by lia. lia.
Qed.

Lemma flip_halves (space : semi_space) :
  0 < base space -> base space + size space < Word.modulus ->
  0 < size space -> size space = 2 * (size space / 2) ->
  flip space
  = mk_semi_space (to_start space) (to_start space + size space / 2)
      (base space) (size space) (Word.signed (count space + 1)).
Proof.
  intros Hb Htop Hs Heven. unfold flip, to_start.
  unfold Word.shr. rewrite Z.shiftr_div_pow2 by lia. change (2 ^ 1) with 2.
  unfold Word.add. rewrite !wrap_small by lia.
  destruct (hp space <=? base space + size space / 2);
    unfold set_count, set_limit, set_hp; cbn; f_equal; lia.
Qed.

Lemma round_up_multiple (q unit : Z) :
  0 < unit -> round_up_to (q * unit) unit = q * unit.
Proof.
  intros Hu. unfold round_up_to. f_equal.
  replace (q * unit + unit - 1) with ((unit - 1) + q * unit) by lia.
  rewrite Z.div_add by lia. rewrite Z.div_small by lia. lia.
Qed.

Lemma madvise_frame (ps : Z) (m : mem) (addr q x : Z) :
  0 < ps -> x < addr \/ addr + q * ps <= x ->
  madvise_dontneed ps m addr (q * ps) x = m x.
Proof.
  intros Hps Hx. unfold madvise_dontneed.
  destruct (addr mod ps =? 0); [| reflexivity].
  rewrite round_up_multiple by exact Hps. apply fill_byte_out. exact Hx.
Qed.

(** what a steal at the end of a collection leaves alone: everything
    outside the mapping and everything below [hp] in the tospace *)
Lemma steal_after_trace (ps : Z) (m : mem) (space : semi_space) (n k t : Z) :
  0 < ps -> 0 < base space -> base space + size space < Word.modulus ->
  1 <= k -> size space = 2 ^ k ->
  t = base space \/ t = base space + size space / 2 ->
  limit space = t + size space / 2 ->
  t <= hp space -> hp space <= limit space ->
  0 <= n < Word.modulus -> round_even n * ps < Word.modulus ->
  let '(ok, space', m') := semi_space_steal_pages ps m space n in
  hp space' = hp space /\ base space' = base space /\ size space' = size space
  /\ count space' = count space
  /\ hp space <= limit space' <= limit space
  /\ (ps mod 8 = 0 -> limit space mod 8 = 0 -> limit space' mod 8 = 0)
  /\ forall x,
       x < base space \/ base space + size space <= x \/ t <= x < hp space ->
       m' x = m x.
Proof.
  intros Hps Hb Htop Hk Hsz Ht Hlim Hlo Hhi Hn Hfit.
  destruct (power_of_two_even _ k Hk Hsz) as [Hpos Heven].
  assert (Hsz63 : size space <= 9223372036854775808).
  { destruct (Z.le_gt_cases k 63) as [Hle | Hgt].
    - rewrite Hsz. change 9223372036854775808 with (2 ^ 63).
      apply Z.pow_le_mono_r; lia.
    - exfalso. assert (2 ^ 64 <= 2 ^ k) by (apply Z.pow_le_mono_r; lia).
      pose proof modulus_value.
      change (2 ^ 64) with 18446744073709551616 in *. lia. }
  pose proof modulus_value as HM.
  pose proof (steal_half_size_exact ps n Hn ltac:(lia) Hfit) as Ehalf.
  pose proof (half_bytes_nonneg ps n ltac:(lia) ltac:(lia)) as Hnn.
  unfold semi_space_steal_pages. rewrite Ehalf.
  set (half := half_bytes ps n) in *.
  unfold Word.sub at 1. rewrite wrap_small by lia.
  destruct (Z.ltb_spec (limit space - hp space) half) as [Hlt | Hge].
  - repeat split; auto; lia.
  - cbn [hp limit base size count set_limit].
    assert (E1 : Word.sub (limit space) half = limit space - half)
      by (unfold Word.sub; apply wrap_small; lia).
    rewrite !E1.
    assert (E2 : Word.sub (limit space - half) (base space)
                 = limit space - half - base space)
      by (unfold Word.sub; apply wrap_small; lia).
    rewrite !E2.
    assert (E3 : Word.add (base space) (limit space - half - base space)
                 = limit space - half)
      by (unfold Word.add; rewrite wrap_small by lia; lia).
    rewrite E3.
    assert (E4 : Word.shr (size space) 1 = size space / 2)
      by (unfold Word.shr; rewrite Z.shiftr_div_pow2 by lia; reflexivity).
    rewrite E4.
    assert (E5 : Word.add (limit space - half - base space) (size space / 2)
                 = limit space - half - base space + size space / 2)
      by (unfold Word.add; apply wrap_small; lia).
    rewrite E5.
    set (off := (limit space - half - base space + size space / 2)
                mod size space).
    assert (E6 : Word.and
                   (limit space - half - base space + size space / 2)
                   (Word.sub (size space) 1) = off).
    { unfold Word.and, Word.sub. rewrite wrap_small by lia.
      replace (size space - 1) with (Z.ones k)
        by (rewrite Z.ones_equiv, Hsz; lia).
      rewrite Z.land_ones by lia. unfold off. rewrite Hsz. reflexivity. }
    rewrite E6.
    assert (Hoff : 0 <= off < size space)
      by (apply Z.mod_pos_bound; lia).
    assert (E7 : Word.add (base space) off = base space + off)
      by (unfold Word.add; apply wrap_small; lia).
    rewrite E7.
    assert (Eh : half = round_even n / 2 * ps) by reflexivity.
    repeat split; try lia.
    { intros Hp8 Hl8.
      pose proof (Z.div_mod ps 8 ltac:(lia)) as Dp.
      pose proof (Z.div_mod (limit space) 8 ltac:(lia)) as Dl.
      rewrite Hp8 in Dp. rewrite Hl8 in Dl.
      replace (limit space - half)
        with ((limit space / 8 - round_even n / 2 * (ps / 8)) * 8) by lia.
      apply Z.mod_mul. lia. }
    intros x Hx.
    rewrite Eh, !madvise_frame; auto; rewrite <- Eh.
    + lia.
    + destruct Ht as [Et | Et].
      * (* the tospace is the lower half *)
        destruct (Z.eq_dec half 0) as [E0 | Hnz]; [lia |].
        assert (off = size space - half).
        { unfold off. rewrite Z.mod_small; lia. }
        lia.
      * (* the tospace is the upper half *)
        assert (off = size space / 2 - half).
        { unfold off. symmetry.
          apply Z.mod_unique with (q := 1); lia. }
        lia.
Qed.

(** ** More fuel changes nothing *)

Section Fuel.

Context {layout : ObjectLayout}.
Context {los : Type} {large_objects : LargeObjectSpace los}.
Variable page_size : Z.

Lemma visit_with_mono (s s' : heap -> Z -> outcome (Z * heap)) :
  refines s s' ->
  forall h loc r, visit_with s h loc = Done r -> visit_with s' h loc = Done r.
Proof.
  intros Hs h loc r. unfold visit_with.
  destruct (load (memory h) loc =? 0); [auto |].
  destruct (semi_space_contains _ _); [auto |].
  destruct (large_object_space_contains _ _); [| auto].
  unfold visit_large_object_space.
  destruct (large_object_space_copy _ _) as [first l].
  destruct first; [| auto].
  intros E. apply bind_done in E. destruct E as ([x h2] & E1 & E2).
  rewrite (Hs _ _ _ E1). exact E2.
Qed.

Lemma visit_each_mono (s s' : heap -> Z -> outcome (Z * heap)) :
  refines s s' ->
  forall locs h r,
    visit_each s h locs = Done r -> visit_each s' h locs = Done r.
Proof.
  intros Hs locs. induction locs as [| loc locs IH]; intros h r; cbn; [auto |].
  intros E. apply bind_done in E. destruct E as (h1 & E1 & E2).
  rewrite (visit_with_mono s s' Hs _ _ _ E1). cbn. auto.
Qed.

Lemma scan_with_mono (s s' : heap -> Z -> outcome (Z * heap)) :
  refines s s' -> refines (scan_with s) (scan_with s').
Proof.
  intros Hs h a r. unfold scan_with.
  destruct (is_kind _); [| auto].
  intros E. apply bind_done in E. destruct E as (h1 & E1 & E2).
  rewrite (visit_each_mono s s' Hs _ _ _ E1). exact E2.
Qed.

Lemma scan_mono_step (n : nat) : refines (scan n) (scan (S n)).
Proof.
  induction n as [| n IH].
  - intros h a r. discriminate.
  - change (scan (S (S n))) with (scan_with (scan (S n))).
    change (scan (S n)) with (scan_with (scan n)) at 1.
    apply scan_with_mono. exact IH.
Qed.

Lemma scan_mono (n n' : nat) : (n <= n')%nat -> refines (scan n) (scan n').
Proof.
  induction 1 as [| n' _ IH]; [intros h a r; auto |].
  intros h a r E. apply scan_mono_step. exact (IH _ _ _ E).
Qed.

Lemma scan_loop_mono (steps steps' fuel fuel' : nat) :
  (steps <= steps')%nat -> (fuel <= fuel')%nat ->
  forall h grey r,
    scan_loop steps fuel h grey = Done r ->
    scan_loop steps' fuel' h grey = Done r.
Proof.
  intros Hsteps Hfuel. revert steps' Hsteps.
  induction steps as [| steps IH]; intros steps' Hsteps h grey r;
    [discriminate |].
  destruct steps' as [| steps']; [lia |]. cbn [scan_loop].
  destruct (grey <? hp (heap_semi_space h)); [| auto].
  intros E. apply bind_done in E. destruct E as ([grey1 h1] & E1 & E2).
  rewrite (scan_mono fuel fuel' Hfuel _ _ _ E1). cbn [bind].
  apply IH; [lia | exact E2].
Qed.

Lemma collect_mono (fuel fuel' : nat) (mut mut' : mutator) :
  (fuel <= fuel')%nat ->
  collect page_size fuel mut = Done mut' ->
  collect page_size fuel' mut = Done mut'.
Proof.
  intros Hfuel. unfold collect.
  intros E. apply bind_done in E. destruct E as (h1 & E1 & E2).
  apply bind_done in E2. destruct E2 as (h2 & E2 & E3).
  unfold visit_roots in *.
  rewrite (visit_each_mono _ _ (scan_mono fuel fuel' Hfuel) _ _ _ E1).
  cbn [bind].
  rewrite (scan_loop_mono fuel fuel' fuel fuel' Hfuel Hfuel _ _ _ E2).
  exact E3.
Qed.

End Fuel.

(** ** A collection, from a well-formed heap *)

Section Collection.

Context {layout : ObjectLayout}.
Context {los : Type} {large_objects : LargeObjectSpace los}.
Variable page_size : Z.
Variable marked : los -> Z -> bool.
Variable pages_ok : los -> Prop.
Hypothesis contract : large_object_space_contract page_size marked pages_ok.

Lemma well_formed_start (mut : mutator (los := los)) (F L : list Z) :
  well_formed page_size pages_ok mut F L ->
  let space := mutator_semi_space mut in
  let m0 := memory (mutator_heap mut) in
  let T := to_start space in
  let HALF := size space / 2 in
  placement m0 F L (roots mut) (base space) (size space) HALF T
    (from_start space) (hp space)
  /\ flip space
     = mk_semi_space T (T + HALF) (base space) (size space)
         (Word.signed (count space + 1))
  /\ tracing marked pages_ok m0 F L (roots mut) (base space) (size space)
       HALF T [] (mk_progress [] F []) (flipped mut)
  /\ T mod 8 = 0 /\ HALF mod 8 = 0
  /\ base space <= T /\ T + HALF <= base space + size space
  /\ 0 <= HALF.
Proof.
  intros WF. open_well_formed WF.
  destruct mut as [[m0 space l] rts].
  unfold flipped, mutator_semi_space in *.
  cbn [mutator_heap heap_semi_space memory roots heap_large_object_space] in *.
  destruct wf_page_size as [Hps Hps8]. destruct wf_base as [Hb Hb8].
  destruct wf_power_of_two as (k & Hk & Hsz).
  destruct (power_of_two_even _ k ltac:(lia) Hsz) as [Hpos Heven].
  destruct wf_capacity as (Hc1 & Hc2 & Hc3).
  unfold LARGE_OBJECT_THRESHOLD, ALIGNMENT in wf_top.
  cbv zeta.
  set (B := base space) in *. set (SZ := size space) in *.
  set (HALF := SZ / 2) in *.
  set (T := to_start space) in *. set (FS := from_start space) in *.
  assert (Hhalf8 : HALF mod 8 = 0).
  { unfold HALF. rewrite Hsz. replace k with (3 + 1 + (k - 4)) by lia.
    rewrite !Z.pow_add_r by lia. change (2 ^ 3) with 8. change (2 ^ 1) with 2.
    replace (8 * 2 * 2 ^ (k - 4)) with (2 ^ (k - 4) * 8 * 2) by lia.
    rewrite Z.div_mul by lia. apply Z.mod_mul. lia. }
  assert (HT : (T = B + HALF /\ FS = B /\ hp space <= B + HALF)
               \/ (T = B /\ FS = B + HALF /\ B + HALF < hp space)).
  { unfold T, FS, to_start, from_start. fold B SZ HALF.
    destruct (Z.leb_spec (hp space) (B + HALF)); [left | right]; lia. }
  assert (HT8 : T mod 8 = 0).
  { destruct HT as [(-> & _) | (-> & _)]; [| exact Hb8].
    rewrite Z.add_mod, Hb8, Hhalf8 by lia. reflexivity. }
  assert (Eflip : flip space
                  = mk_semi_space T (T + HALF) B SZ
                      (Word.signed (count space + 1))).
  { apply flip_halves; fold B SZ; lia. }
  split. { constructor; auto; lia. }
  split; [exact Eflip |].
  split.
  { apply tracing_initial; rewrite ?Eflip; try reflexivity.
    - intros o Ho. rewrite (start_gc_contains _ _ _ contract).
      rewrite Forall_forall in wf_large_known. auto.
    - intros x. apply (start_gc_marks _ _ _ contract).
    - apply (start_gc_pages_ok _ _ _ contract). exact wf_pages. }
  repeat split; auto; lia.
Qed.

Lemma collect_trace (fuel : nat) (mut : mutator (los := los)) :
  collect page_size fuel mut
  = (h <- trace fuel fuel mut ;; Done (finish page_size h (roots mut))).
Proof.
  unfold collect, trace, finish, flipped, set_semi_space,
    set_large_object_space, mutator_semi_space.
  cbn [memory heap_semi_space heap_large_object_space].
  destruct (visit_roots fuel _ (roots mut)) as [h1 | d |]; cbn [bind];
    try reflexivity.
  destruct (scan_loop fuel fuel h1 _) as [h2 | d |]; cbn [bind];
    try reflexivity.
  destruct (semi_space_steal_pages _ _ _ _) as [[ok space] m]. reflexivity.
Qed.

Lemma trace_mono (steps steps' fuel fuel' : nat) (mut : mutator (los := los))
    (h : heap) :
  (steps <= steps')%nat -> (fuel <= fuel')%nat ->
  trace steps fuel mut = Done h -> trace steps' fuel' mut = Done h.
Proof.
  intros Hsteps Hfuel. unfold trace. intros E.
  apply bind_done in E. destruct E as (h1 & E1 & E2).
  unfold visit_roots in *.
  rewrite (visit_each_mono _ _ (scan_mono fuel fuel' Hfuel) _ _ _ E1).
  cbn [bind].
  exact (scan_loop_mono steps steps' fuel fuel' Hsteps Hfuel _ _ _ E2).
Qed.

Lemma trace_done (fuel : nat) (mut : mutator (los := los)) (F L : list Z) :
  well_formed page_size pages_ok mut F L ->
  (length L < fuel)%nat ->
  exists g h,
    let space := mutator_semi_space mut in
    (forall steps,
       (length (copied g) < steps)%nat -> trace steps fuel mut = Done h)
    /\ tracing marked pages_ok (memory (mutator_heap mut)) F L (roots mut)
         (base space) (size space) (size space / 2) (to_start space) [] g h
    /\ (forall r, In r (roots mut) -> In r (done g))
    /\ (forall o f, In o (copied g) ->
          In f (fields_of (memory (mutator_heap mut)) o) -> In f (done g)).
Proof.
  intros WF Hfuel.
  destruct (well_formed_start mut F L WF) as (Hplaced & Eflip & HI0 & _).
  destruct (trace_ok page_size marked pages_ok contract _ F L _ _ _ _ _ _ _
              Hplaced fuel _ HI0 Hfuel)
    as (g & h & Etrace & HI & Hroots & Hfields).
  exists g, h. cbv zeta. split; [| auto].
  intros steps Hsteps.
  unfold trace. unfold flipped at 2. cbn [heap_semi_space].
  rewrite Eflip. cbn [hp]. exact (Etrace steps Hsteps).
Qed.

(** the scan loop of a collection makes one round per reachable object of
    the condemned half, and one more to find the cursor at [hp] *)
Lemma trace_live (mut : mutator (los := los)) (F L : list Z) :
  well_formed page_size pages_ok mut F L ->
  exists survivors h,
    NoDup survivors
    /\ (forall o,
          In o survivors
          <-> In o F
              /\ reachable (memory (mutator_heap mut)) F L (roots mut) o)
    /\ forall steps fuel,
         (length survivors < steps)%nat -> (length L < fuel)%nat ->
         trace steps fuel mut = Done h.
Proof.
  intros WF.
  destruct (well_formed_start mut F L WF) as (Hplaced & _).
  destruct (trace_done (S (length L)) mut F L WF (Nat.lt_succ_diag_r _))
    as (g & h & Etrace & HI & Hroots & Hfields).
  cbv zeta in *.
  exists (copied g), h. split; [| split].
  - pose proof (progress_NoDup _ _ _ _ _ _ _ _ _ _ Hplaced g
                  (tracing_progress_ok _ _ _ _ _ _ _ _ _ _ _ _ _ HI)) as H.
    apply NoDup_app_remove_r in H. exact H.
  - exact (survivors_reachable _ _ _ _ _ _ _ _ _ _ _ _ Hplaced g h HI Hroots
             Hfields).
  - intros steps fuel Hsteps Hfuel.
    apply (trace_mono steps steps (S (length L)) fuel); [lia | lia |].
    exact (Etrace steps Hsteps).
Qed.

Lemma collect_ok (mut : mutator (los := los)) (F L : list Z) (fuel : nat) :
  well_formed page_size pages_ok mut F L ->
  (length F + length L < fuel)%nat ->
  exists mut' survivors live fwd,
    let space := mutator_semi_space mut in
    let space' := mutator_semi_space mut' in
    collect page_size fuel mut = Done mut'
    /\ relocated (memory (mutator_heap mut)) (memory (mutator_heap mut'))
         F L (roots mut) (to_start space) (hp space') survivors live fwd
    /\ roots mut' = roots mut
    /\ base space' = base space /\ size space' = size space
    /\ to_start space <= hp space' /\ hp space' <= limit space'
    /\ limit space' <= to_start space + size space / 2
    /\ hp space' mod 8 = 0 /\ limit space' mod 8 = 0.
Proof.
  intros WF Hfuel.
  destruct (well_formed_start mut F L WF)
    as (Hplaced & Eflip & _ & HT8 & Hhalf8 & HBT & HTtop & Hhalf).
  destruct (trace_done fuel mut F L WF ltac:(lia))
    as (g & h & Etrace & HI & Hroots & Hfields).
  cbv zeta in *.
  assert (Hlen : (length (copied g) <= length F)%nat).
  { rewrite <- (Permutation_length
                  (tr_perm _ _ _ _ _ _ _ _ _ _ _ _ _ HI)), length_app.
    lia. }
  rewrite collect_trace, (Etrace fuel) by lia. cbn [bind].
  open_well_formed WF.
  destruct wf_page_size as [Hps Hps8]. destruct wf_base as [Hb Hb8].
  destruct wf_power_of_two as (k & Hk & Hsz).
  unfold LARGE_OBJECT_THRESHOLD, ALIGNMENT in wf_top.
  set (space := mutator_semi_space mut) in *.
  set (m0 := memory (mutator_heap mut)) in *.
  set (B := base space) in *. set (SZ := size space) in *.
  set (HALF := SZ / 2) in *. set (T := to_start space) in *.
  pose proof (tr_base _ _ _ _ _ _ _ _ _ _ _ _ _ HI) as Ebase.
  pose proof (tr_size _ _ _ _ _ _ _ _ _ _ _ _ _ HI) as Esize.
  pose proof (tr_limit _ _ _ _ _ _ _ _ _ _ _ _ _ HI) as Elimit.
  pose proof (tr_pages _ _ _ _ _ _ _ _ _ _ _ _ _ HI) as Hpages.
  set (n := live_pages_at_last_collection
              (large_object_space_finish_gc (heap_large_object_space h))).
  destruct (finish_gc_pages _ _ _ contract _ Hpages) as [Hn Hfit].
  fold n in Hn, Hfit.
  assert (Hsum0 := fun m' =>
            trace_summary marked pages_ok m0 F L (roots mut) B SZ HALF T _ _
              Hplaced g h m' HI Hroots Hfields).
  pose proof (steal_after_trace page_size (memory h) (heap_semi_space h) n k T
                Hps) as Hsteal.
  rewrite Ebase, Esize, Elimit in Hsteal.
  destruct (Hsum0 (memory h) (fun x _ => eq_refl))
    as (_ & _ & Ehp & Htot8 & Hhp & _).
  specialize (Hsteal Hb ltac:(lia) ltac:(lia) Hsz).
  assert (HTcases : T = B \/ T = B + SZ / 2).
  { unfold T, to_start. fold B SZ.
    destruct (hp space <=? B + SZ / 2); auto. }
  specialize (Hsteal HTcases eq_refl ltac:(lia) ltac:(fold HALF; lia) Hn Hfit).
  unfold finish. fold n.
  destruct (semi_space_steal_pages page_size (memory h) (heap_semi_space h) n)
    as [[ok space'] m'].
  destruct Hsteal as (Shp & Sbase & Ssize & Scount & Slimit & Salign & Sframe).
  destruct (Hsum0 m' Sframe)
    as (Hnd & Hincl & _ & _ & _ & Hother & Hcopy & Hinj & Hr & Hf & Hl).
  exists (mk_mutator
            (mk_heap m' space'
               (large_object_space_finish_gc (heap_large_object_space h)))
            (roots mut)).
  exists (copied g).
  exists (filter (marked (heap_large_object_space h)) L).
  exists (forwarded m0 F T g).
  unfold mutator_semi_space.
  cbn [mutator_heap heap_semi_space memory roots heap_large_object_space].
  assert (Hkept : forall v, kept marked F L g h v ->
            kept_by F L (copied g)
              (filter (marked (heap_large_object_space h)) L) v).
  { intros v [K1 K2]. split; [exact K1 |]. intros Hv.
    apply filter_In. auto. }
  split; [reflexivity |]. split.
  - constructor.
    + auto.
    + intros o Ho. apply filter_In in Ho. tauto.
    + intros o [Ho | Ho].
      * exact (tr_reached _ _ _ _ _ _ _ _ _ _ _ _ _ HI o Ho).
      * apply filter_In in Ho. destruct Ho as [Ho Hmk].
        exact (tr_reached_large _ _ _ _ _ _ _ _ _ _ _ _ _ HI o Ho Hmk).
    + rewrite Shp. exact Ehp.
    + exact Hother.
    + intros o Ho. rewrite Shp. auto.
    + exact Hinj.
    + intros r Hr'. destruct (Hr r Hr'). auto.
    + intros o f Ho Hf'. destruct (Hf o f Ho Hf'). auto.
    + intros o f Ho Hf'. apply filter_In in Ho. destruct Ho as [Ho Hmk].
      destruct (Hl o f Ho Hmk Hf'). auto.
  - fold HALF in Slimit.
    repeat split; try lia; try congruence.
    + rewrite Shp, Ehp, Z.add_mod, HT8, Htot8 by lia. reflexivity.
    + apply Salign; [exact Hps8 |].
      rewrite Z.add_mod, HT8, Hhalf8 by lia. reflexivity.
Qed.

End Collection.

(** ** Relocation and termination *)

Section Relocation.

Context {layout : ObjectLayout}.
Context {los : Type} {large_objects : LargeObjectSpace los}.
Variable page_size : Z.
Variable marked : los -> Z -> bool.
Variable pages_ok : los -> Prop.

(** whatever fuel a collection of a well-formed heap returned with, it
    returned what [collect_ok] describes *)
Lemma collect_done (mut mut' : mutator (los := los)) (F L : list Z)
    (fuel : nat) :
  large_object_space_contract page_size marked pages_ok ->
  well_formed page_size pages_ok mut F L ->
  collect page_size fuel mut = Done mut' ->
  exists survivors live fwd,
    let space := mutator_semi_space mut in
    let space' := mutator_semi_space mut' in
    relocated (memory (mutator_heap mut)) (memory (mutator_heap mut'))
      F L (roots mut) (to_start space) (hp space') survivors live fwd
    /\ roots mut' = roots mut
    /\ base space' = base space /\ size space' = size space
    /\ to_start space <= hp space' /\ hp space' <= limit space'
    /\ limit space' <= to_start space + size space / 2
    /\ hp space' mod 8 = 0 /\ limit space' mod 8 = 0.
Proof.
  intros contract WF E.
  assert (Hbig : (length F + length L < S (fuel + length F + length L))%nat)
    by lia.
  destruct (collect_ok page_size marked pages_ok contract mut F L _ WF Hbig)
    as (mut1 & survivors & live & fwd & E1 & H).
  cbv zeta in E1.
  assert (Hle : (fuel <= S (fuel + length F + length L))%nat) by lia.
  rewrite (collect_mono page_size fuel _ mut mut' Hle E) in E1.
  injection E1 as <-. exists survivors, live, fwd. exact H.
Qed.

(** C2.  The collection of a well-formed heap -- any finite object graph,
    cyclic or not -- terminates: with fuel beyond the number of objects,
    [collect] returns, and always the same heap.  The scan loop makes one
    round per live object of the condemned half -- the objects copied are
    exactly the reachable ones, each copied once -- and one more round to find
    the grey cursor at [hp]: with more steps than live objects the trace
    returns.  The recursion through large objects is at most one level per
    large object. *)
Theorem collect_terminates (mut : mutator (los := los)) (F L : list Z) :
  large_object_space_contract page_size marked pages_ok ->
  well_formed page_size pages_ok mut F L ->
  (exists mut',
     forall fuel, (length F + length L < fuel)%nat ->
       collect page_size fuel mut = Done mut')
  /\ (exists survivors h,
        NoDup survivors
        /\ (forall o,
              In o survivors
              <-> In o F
                  /\ reachable (memory (mutator_heap mut)) F L (roots mut) o)
        /\ forall steps fuel,
             (length survivors < steps)%nat -> (length L < fuel)%nat ->
             trace steps fuel mut = Done h).
Proof.
  intros contract WF. split.
  - assert (Hbig : (length F + length L < S (length F + length L))%nat)
      by lia.
    destruct (collect_ok page_size marked pages_ok contract mut F L _ WF Hbig)
      as (mut' & _ & _ & _ & E & _).
    exists mut'. intros fuel Hfuel.
    apply (collect_mono page_size (S (length F + length L)) fuel);
      [lia | exact E].
  - exact (trace_live page_size marked pages_ok contract mut F L WF).
Qed.

(** the first [forward] of an object copies it to [hp] -- a [memcpy], so
    between ranges that do not overlap -- and leaves [hp] in its header; the
    next one reads the header and copies nothing *)
Lemma forward_memoized (h : heap (los := los)) (o : Z) :
  let bytes := object_size (load (memory h) o) (memory h) o in
  is_kind (load (memory h) o) = true ->
  0 <= hp (heap_semi_space h) < Word.modulus ->
  is_kind (hp (heap_semi_space h)) = false ->
  hp (heap_semi_space h) + bytes <= Word.modulus ->
  o + bytes <= Word.modulus ->
  hp (heap_semi_space h) + bytes <= o \/ o + bytes <= hp (heap_semi_space h) ->
  exists h1,
    forward h o = Done (hp (heap_semi_space h), h1)
    /\ load (memory h1) o = hp (heap_semi_space h)
    /\ hp (heap_semi_space h1)
       = Word.add (hp (heap_semi_space h)) (align_up bytes ALIGNMENT)
    /\ forward h1 o = Done (hp (heap_semi_space h), h1).
Proof.
  intros bytes Hk Hhp Hnk Hdst Hsrc Hapart.
  unfold forward at 1. rewrite Hk. unfold copy. rewrite Hk. fold bytes.
  rewrite (memcpy_apart _ _ _ _ Hdst Hsrc Hapart). cbn [bind].
  eexists. split; [reflexivity |].
  assert (E : load (store (blit (memory h) (hp (heap_semi_space h)) o bytes)
                      o (hp (heap_semi_space h))) o
              = hp (heap_semi_space h)).
  { rewrite load_store_same. apply wrap_small. exact Hhp. }
  split; [exact E |]. split; [reflexivity |].
  unfold forward. cbn [memory]. rewrite E, Hnk. reflexivity.
Qed.

(** C1.  A collection of a well-formed heap relocates the object graph:
    there is a forwarding map [fwd] -- the identity on null and on large
    objects -- such that every live slot (a root, a field of a survivor's
    copy, a field of a live large object) holds [fwd] of the reference it
    held before.  So two live slots that referenced the same fromspace object
    hold the same tospace address afterwards.  Every survivor has one copy:
    distinct survivors have distinct copies and [hp] has advanced by the
    sizes of the survivors, each counted once.  This rests on [forward]:
    its first call on an object copies it -- with [memcpy], between ranges
    that do not overlap -- and stores the copy's address in the original's
    header, every later call returns that address and copies nothing. *)
Theorem identity_preservation (mut mut' : mutator (los := los))
    (F L : list Z) (fuel : nat) :
  large_object_space_contract page_size marked pages_ok ->
  well_formed page_size pages_ok mut F L ->
  collect page_size fuel mut = Done mut' ->
  let m := memory (mutator_heap mut) in
  let m' := memory (mutator_heap mut') in
  let T := to_start (mutator_semi_space mut) in
  let top := hp (mutator_semi_space mut') in
  (exists survivors live fwd,
     relocated m m' F L (roots mut) T top survivors live fwd
     /\ (forall key loc key' loc',
           live_slot m (roots mut) survivors live fwd key loc ->
           live_slot m (roots mut) survivors live fwd key' loc' ->
           load m key = load m key' -> In (load m key) F ->
           load m' loc = load m' loc' /\ T <= load m' loc < top))
  /\ (forall (h : heap (los := los)) (o : Z),
        let bytes := object_size (load (memory h) o) (memory h) o in
        is_kind (load (memory h) o) = true ->
        0 <= hp (heap_semi_space h) < Word.modulus ->
        is_kind (hp (heap_semi_space h)) = false ->
        hp (heap_semi_space h) + bytes <= Word.modulus ->
        o + bytes <= Word.modulus ->
        hp (heap_semi_space h) + bytes <= o
        \/ o + bytes <= hp (heap_semi_space h) ->
        exists h1,
          forward h o = Done (hp (heap_semi_space h), h1)
          /\ load (memory h1) o = hp (heap_semi_space h)
          /\ hp (heap_semi_space h1)
             = Word.add (hp (heap_semi_space h)) (align_up bytes ALIGNMENT)
          /\ forward h1 o = Done (hp (heap_semi_space h), h1)).
Proof.
  intros contract WF E. cbv zeta. split; [| exact forward_memoized].
  destruct (collect_done mut mut' F L fuel contract WF E)
    as (survivors & live & fwd & Hrel & _).
  exists survivors, live, fwd. split; [exact Hrel |].
  assert (Hsz : forall o, In o F ->
            0 < aligned_size_of (memory (mutator_heap mut)) o).
  { intros o Ho. open_well_formed WF. rewrite Forall_forall in wf_small.
    pose proof (ok_size _ _ _ (wf_small o Ho)) as Hs.
    pose proof (aligned_size_bounds _ o Hs). lia. }
  destruct Hrel as [[Hnd Hincl] Hlive Hreach Etop Hother Hcopy Hinj Hroots
                    Hfields Hlarge].
  assert (Hto : forall v, In v F -> kept_by F L survivors live v ->
            to_start (mutator_semi_space mut) <= fwd v
              < hp (mutator_semi_space mut')).
  { intros v Hv [Hk _]. pose proof (Hcopy v (Hk Hv)). pose proof (Hsz v Hv).
    lia. }
  assert (Hslot : forall key loc,
            live_slot (memory (mutator_heap mut)) (roots mut) survivors live
              fwd key loc ->
            load (memory (mutator_heap mut')) loc
            = fwd (load (memory (mutator_heap mut)) key)
            /\ kept_by F L survivors live
                 (load (memory (mutator_heap mut)) key)).
  { intros key loc Hs. destruct Hs as [r Hr | o f Ho Hf | o f Ho Hf].
    - exact (Hroots r Hr).
    - exact (Hfields o f Ho Hf).
    - exact (Hlarge o f Ho Hf). }
  intros key loc key' loc' Hs Hs' Eq Hv.
  destruct (Hslot key loc Hs) as [E1 K1].
  destruct (Hslot key' loc' Hs') as [E2 _].
  rewrite E1, E2, <- Eq. split; [reflexivity | auto].
Qed.

End Relocation.

(** ** The capacity invariant *)

Lemma flip_capacity (space : semi_space) :
  0 <= base space -> 0 <= size space ->
  base space + size space < Word.modulus ->
  capacity_ok (flip space).
Proof.
  intros Hb Hs Htop. unfold flip, capacity_ok.
  unfold Word.shr. rewrite Z.shiftr_div_pow2 by lia. change (2 ^ 1) with 2.
  pose proof (Z.div_mod (size space) 2 ltac:(lia)).
  pose proof (Z.mod_pos_bound (size space) 2 ltac:(lia)).
  unfold Word.add. rewrite !wrap_small by lia.
  destruct (hp space <=? base space + size space / 2); cbn; lia.
Qed.

Lemma steal_capacity (page_size : Z) (m : mem) (space : semi_space) (n : Z) :
  capacity_ok space -> 0 <= hp space -> limit space < Word.modulus ->
  capacity_ok (snd (fst (semi_space_steal_pages page_size m space n))).
Proof.
  intros (H1 & H2 & H3) Hhp Hlim. unfold semi_space_steal_pages.
  assert (Hhalf : 0 <= steal_half_size page_size n).
  { unfold steal_half_size, Word.shr. apply Z.shiftr_nonneg.
    unfold Word.mul. apply wrap_range. }
  unfold Word.sub at 1. rewrite wrap_small by lia.
  destruct (Z.ltb_spec (limit space - hp space) (steal_half_size page_size n))
    as [Hlt | Hge]; cbn [fst snd]; [unfold capacity_ok; lia |].
  unfold capacity_ok, set_limit. cbn [hp limit base size].
  unfold Word.sub. rewrite wrap_small by lia. lia.
Qed.

Section Capacity.

Context {layout : ObjectLayout}.
Context {los : Type} {large_objects : LargeObjectSpace los}.
Variable page_size : Z.
Variable marked : los -> Z -> bool.
Variable pages_ok : los -> Prop.
Hypothesis contract : large_object_space_contract page_size marked pages_ok.

Lemma collect_capacity (mut mut' : mutator (los := los)) (F L : list Z)
    (fuel : nat) :
  well_formed page_size pages_ok mut F L ->
  collect page_size fuel mut = Done mut' ->
  let space := mutator_semi_space mut in
  let space' := mutator_semi_space mut' in
  capacity_ok space'
  /\ base space' = base space /\ size space' = size space
  /\ hp space' mod 8 = 0 /\ limit space' mod 8 = 0
  /\ 0 < base space'
  /\ base space' + size space' + LARGE_OBJECT_THRESHOLD + ALIGNMENT
     < Word.modulus.
Proof.
  intros WF E.
  destruct (collect_done page_size marked pages_ok mut mut' F L fuel contract
              WF E)
    as (survivors & live & fwd & _ & _ & Eb & Es & H1 & H2 & H3 & H4 & H5).
  destruct (well_formed_start page_size marked pages_ok contract mut F L WF)
    as (_ & _ & _ & _ & _ & HBT & HTtop & _).
  open_well_formed WF. destruct wf_base as [Hb _].
  cbv zeta in *. unfold capacity_ok. rewrite Eb, Es.
  repeat split; auto; lia.
Qed.

Lemma steal_from_capacity (mut : mutator (los := los)) (n : Z) :
  capacity_ok (mutator_semi_space mut) ->
  0 <= hp (mutator_semi_space mut) ->
  limit (mutator_semi_space mut) < Word.modulus ->
  capacity_ok (mutator_semi_space (snd (steal_from page_size mut n))).
Proof.
  intros Hc Hhp Hlim.
  pose proof (steal_capacity page_size (memory (mutator_heap mut))
                (mutator_semi_space mut) n Hc Hhp Hlim) as H.
  unfold steal_from, mutator_semi_space in *.
  destruct (semi_space_steal_pages _ _ _ _) as [[ok space'] m'].
  exact H.
Qed.

(** a bump that fits keeps the invariant *)
Lemma bump_capacity (space : semi_space) (bytes : Z) :
  capacity_ok space -> 0 < base space ->
  base space + size space + LARGE_OBJECT_THRESHOLD + ALIGNMENT
    < Word.modulus ->
  0 <= bytes < LARGE_OBJECT_THRESHOLD ->
  align_up (Word.add (hp space) bytes) ALIGNMENT <= limit space ->
  capacity_ok (set_hp space (align_up (Word.add (hp space) bytes) ALIGNMENT)).
Proof.
  intros (H1 & H2 & H3) Hb Htop Hbytes Hfit.
  unfold LARGE_OBJECT_THRESHOLD, ALIGNMENT in *.
  assert (E : Word.add (hp space) bytes = hp space + bytes)
    by (unfold Word.add; apply wrap_small; lia).
  rewrite E in *.
  pose proof (align_up_8_bounds (hp space + bytes) ltac:(lia) ltac:(lia))
    as [Hbd _].
  unfold ALIGNMENT in Hbd.
  unfold capacity_ok, set_hp. cbn [hp limit base size]. lia.
Qed.

(** after a collection that left [bytes] free, the bump fits *)
Lemma aligned_room (space : semi_space) (bytes : Z) :
  capacity_ok space -> 0 < base space ->
  base space + size space + LARGE_OBJECT_THRESHOLD + ALIGNMENT
    < Word.modulus ->
  hp space mod 8 = 0 -> limit space mod 8 = 0 ->
  0 <= bytes ->
  (Word.sub (limit space) (hp space) <? bytes) = false ->
  (limit space <? align_up (Word.add (hp space) bytes) ALIGNMENT) = false.
Proof.
  intros (H1 & H2 & H3) Hb Htop Hh8 Hl8 Hbytes Hfree.
  unfold LARGE_OBJECT_THRESHOLD, ALIGNMENT in *.
  apply Z.ltb_ge in Hfree. apply Z.ltb_ge.
  unfold Word.sub in Hfree. rewrite wrap_small in Hfree by lia.
  assert (E : Word.add (hp space) bytes = hp space + bytes)
    by (unfold Word.add; apply wrap_small; lia).
  rewrite E. change 8 with ALIGNMENT.
  rewrite align_up_8_small by lia.
  pose proof (Z.div_mod (limit space) 8 ltac:(lia)) as Dl.
  rewrite Hl8, Z.add_0_r in Dl.
  assert ((hp space + bytes + 7) / 8 < limit space / 8 + 1).
  { apply Z.div_lt_upper_bound; lia. }
  lia.
Qed.

Lemma allocate_capacity (mut mut' : mutator (los := los)) (F L : list Z)
    (fuel : nat) (kind bytes addr : Z) :
  well_formed page_size pages_ok mut F L ->
  0 <= bytes < Word.modulus ->
  allocate page_size fuel mut kind bytes = Done (addr, mut') ->
  capacity_ok (mutator_semi_space mut').
Proof.
  intros WF Hbytes. unfold allocate.
  assert (Hc : capacity_ok (mutator_semi_space mut)) by (open_well_formed WF; auto).
  assert (Hb : 0 < base (mutator_semi_space mut))
    by (open_well_formed WF; tauto).
  assert (Htop : base (mutator_semi_space mut) + size (mutator_semi_space mut)
                 + LARGE_OBJECT_THRESHOLD + ALIGNMENT < Word.modulus)
    by (open_well_formed WF; auto).
  destruct (Z.leb_spec LARGE_OBJECT_THRESHOLD bytes) as [Hbig | Hsmall].
  - (* the large path *)
    unfold allocate_large. intros E. apply bind_done in E.
    destruct E as (mutR & ER & EP).
    assert (HR : capacity_ok (mutator_semi_space mutR)).
    { unfold reserve_large in ER.
      pose proof (steal_from_capacity mut
                    (large_object_space_npages
                       (heap_large_object_space (mutator_heap mut)) bytes))
        as Hs1.
      pose proof (steal_from_failed_same page_size mut
                    (large_object_space_npages
                       (heap_large_object_space (mutator_heap mut)) bytes))
        as Hsame.
      destruct (steal_from page_size mut _) as [ok mut1].
      cbn [fst snd] in *. destruct ok.
      - injection ER as <-. apply Hs1; auto.
        + destruct Hc. lia.
        + destruct Hc as (? & ? & ?).
          unfold LARGE_OBJECT_THRESHOLD, ALIGNMENT in Htop. lia.
      - rewrite (Hsame eq_refl) in ER. apply bind_done in ER.
        destruct ER as (mut2 & E2 & E3).
        destruct (collect_capacity mut mut2 F L fuel WF E2)
          as (Hc2 & Eb2 & Es2 & _ & _ & Hb2 & Htop2).
        pose proof (steal_from_capacity mut2
                      (large_object_space_npages
                         (heap_large_object_space (mutator_heap mut)) bytes))
          as Hs2.
        destruct (steal_from page_size mut2 _) as [ok2 mut3].
        cbn [fst snd] in *. destruct ok2; [| discriminate].
        injection E3 as <-. apply Hs2; auto.
        + destruct Hc2. lia.
        + destruct Hc2 as (? & ? & ?).
          unfold LARGE_OBJECT_THRESHOLD, ALIGNMENT in Htop2. lia. }
    unfold place_large in EP.
    destruct (obtain_large _ _) as [ret l].
    destruct (ret =? 0); [discriminate |].
    injection EP as _ <-. exact HR.
  - (* the small path *)
    destruct fuel as [| tries]; [discriminate |].
    cbn [allocate_small].
    destruct (Z.ltb_spec (limit (heap_semi_space (mutator_heap mut)))
                (align_up
                   (Word.add (hp (heap_semi_space (mutator_heap mut))) bytes)
                   ALIGNMENT)) as [Hfull | Hfit].
    + intros E. apply bind_done in E. destruct E as (mut1 & E1 & E2).
      unfold collect_for_alloc in E1. apply bind_done in E1.
      destruct E1 as (mut1' & Ec & Ef).
      destruct (Word.sub _ _ <? bytes) eqn:Efree; [discriminate |].
      injection Ef as <-.
      destruct (collect_capacity mut mut1' F L (S tries) WF Ec)
        as (Hc1 & Eb1 & Es1 & Hh8 & Hl8 & Hb1 & Htop1).
      pose proof (aligned_room (mutator_semi_space mut1') bytes Hc1 Hb1 Htop1
                    Hh8 Hl8 ltac:(lia) Efree) as Hroom.
      destruct tries as [| tries]; [discriminate |].
      cbn [allocate_small] in E2. unfold mutator_semi_space in Hroom.
      rewrite Hroom in E2.
      destruct (clear_memory _ _ _) as [m1 | d |]; cbn [bind] in E2;
        try discriminate.
      injection E2 as _ <-.
      cbn [mutator_heap heap_semi_space].
      apply bump_capacity; auto; [lia |].
      apply Z.ltb_ge. exact Hroom.
    + destruct (clear_memory _ _ _) as [m1 | d |]; cbn [bind];
        try discriminate.
      intros E. injection E as _ <-.
      cbn [mutator_heap heap_semi_space].
      apply bump_capacity; auto. lia.
Qed.

End Capacity.

Section CapacityInvariant.

Context {layout : ObjectLayout}.
Context {los : Type} {large_objects : LargeObjectSpace los}.
Variable page_size : Z.
Variable marked : los -> Z -> bool.
Variable pages_ok : los -> Prop.

(** C8.  [base <= hp <= limit <= base + size] holds after a successful
    initialisation and is kept by every operation on the space: by [flip]
    and by [semi_space_steal_pages] on any space inside the address space,
    and, on a heap that holds a well-formed object graph, by every [collect]
    and by every [allocate] that returns. *)
Theorem capacity_invariant :
  (forall (m : mem) (calloc : option los) (mapping : option Z)
          (heap_size : Z) (mut : mutator (los := los)),
     0 <= heap_size ->
     (forall addr, mapping = Some addr ->
        0 <= addr /\ addr + heap_size < Word.modulus) ->
     initialize_gc m calloc mapping heap_size = Done (true, mut) ->
     capacity_ok (mutator_semi_space mut))
  /\ (forall space : semi_space,
        0 <= base space -> 0 <= size space ->
        base space + size space < Word.modulus ->
        capacity_ok (flip space))
  /\ (forall (m : mem) (space : semi_space) (npages : Z),
        capacity_ok space -> 0 <= hp space -> limit space < Word.modulus ->
        capacity_ok
          (snd (fst (semi_space_steal_pages page_size m space npages))))
  /\ (forall (mut mut' : mutator (los := los)) (F L : list Z) (fuel : nat),
        large_object_space_contract page_size marked pages_ok ->
        well_formed page_size pages_ok mut F L ->
        collect page_size fuel mut = Done mut' ->
        capacity_ok (mutator_semi_space mut'))
  /\ (forall (mut mut' : mutator (los := los)) (F L : list Z) (fuel : nat)
             (kind bytes addr : Z),
        large_object_space_contract page_size marked pages_ok ->
        well_formed page_size pages_ok mut F L ->
        0 <= bytes < Word.modulus ->
        allocate page_size fuel mut kind bytes = Done (addr, mut') ->
        capacity_ok (mutator_semi_space mut')).
Proof.
  split; [| split; [| split; [| split]]].
  - intros m calloc mapping heap_size mut Hs Hmap Hok.
    destruct (initialize_gc_space m calloc mapping heap_size mut Hs Hmap Hok)
      as (addr & _ & ->).
    unfold capacity_ok. cbn [hp limit base size].
    pose proof (Z.div_mod heap_size 2 ltac:(lia)).
    pose proof (Z.mod_pos_bound heap_size 2 ltac:(lia)). lia.
  - exact flip_capacity.
  - intros m space npages. apply steal_capacity.
  - intros mut mut' F L fuel contract WF E.
    exact (proj1 (collect_capacity page_size marked pages_ok contract
                    mut mut' F L fuel WF E)).
  - intros mut mut' F L fuel kind bytes addr contract.
    exact (allocate_capacity page_size marked pages_ok contract mut mut' F L
             fuel kind bytes addr).
Qed.

End CapacityInvariant.

(** ** The benchmark's heap satisfies the hypotheses *)

Lemma pages_of_filter (p : Z * Z -> bool) (objs : list (Z * Z)) :
  Forall (fun o => 0 <= snd o) objs ->
  0 <= Bench.pages_of (filter p objs) <= Bench.pages_of objs.
Proof.
  unfold Bench.pages_of.
  induction objs as [| o objs IH]; intros H; cbn [filter fold_right]; [lia |].
  inversion H as [| ? ? Ho Hrest]; subst. specialize (IH Hrest).
  destruct (p o); cbn [fold_right]; lia.
Qed.

Lemma bench_contract :
  large_object_space_contract Bench.page_size Bench.is_marked bench_pages_ok.
Proof.
  constructor.
  - intros l x. cbn. destruct (Bench.is_marked l x); reflexivity.
  - intros l x y. cbn. destruct (Bench.is_marked l x) eqn:E; cbn.
    + destruct (Z.eqb_spec y x) as [-> | _]; [exact E | reflexivity].
    + unfold Bench.is_marked. cbn. reflexivity.
  - intros l x y. cbn. destruct (Bench.is_marked l x); reflexivity.
  - intros l x H. cbn. destruct (Bench.is_marked l x); exact H.
  - intros l x. reflexivity.
  - intros l x. reflexivity.
  - intros l H. exact H.
  - intros l [Hnn Hfit]. cbn.
    pose proof (pages_of_filter (fun o => Bench.is_marked l (fst o))
                  (Bench.objects l) Hnn) as Hle.
    set (n := Bench.pages_of (filter _ _)) in *.
    assert (Hre : n <= round_even n <= n + 1).
    { unfold round_even. pose proof (Z.mod_pos_bound n 2 ltac:(lia)). lia. }
    unfold Bench.page_size in *. rewrite modulus_value in *.
    split; nia.
Qed.

Lemma load_shift (m m' : mem) (a a' : Z) :
  (forall i, 0 <= i < 8 -> m' (a' + i) = m (a + i)) -> load m' a' = load m a.
Proof.
  intros H. unfold load, byte_at.
  pose proof (H 0 ltac:(lia)) as H0. rewrite !Z.add_0_r in H0.
  rewrite H0, (H 1), (H 2), (H 3), (H 4), (H 5), (H 6), (H 7) by lia.
  reflexivity.
Qed.

Lemma bench_node_layout (m : mem) (o : Z) :
  load m o = Bench.ALLOC_KIND_NODE -> position_independent m o.
Proof.
  intros Hk m' o' _. unfold size_of, fields_of, kind_of. rewrite Hk. cbn.
  split; [reflexivity |]. f_equal; [lia |]. f_equal. lia.
Qed.

Lemma bench_array_layout (m : mem) (o : Z) :
  load m o = Bench.ALLOC_KIND_DOUBLE_ARRAY ->
  16 <= size_of m o -> position_independent m o.
Proof.
  intros Hk Hs m' o' Hm.
  assert (Hf : fields_of m o = []) by (unfold fields_of, kind_of; now rewrite Hk).
  unfold size_of, kind_of in *. rewrite Hk in *. cbn in *.
  unfold fields_of, kind_of. rewrite Hk. cbn. split; [| reflexivity].
  unfold Bench.double_array_size. f_equal. f_equal.
  apply load_shift. intros i Hi. rewrite <- !Z.add_assoc. apply Hm; [lia |].
  intros (f & Hin & _). revert Hin. unfold fields_of, kind_of. rewrite Hk.
  cbn. tauto.
Qed.

Ltac compare_all :=
  vm_compute; repeat split; try reflexivity; try congruence;
  try (intro; discriminate).

Ltac find_disjunct :=
  solve [reflexivity | compare_all | left; find_disjunct
         | right; find_disjunct].

Ltac for_each tac := repeat (apply Forall_cons; [tac |]); apply Forall_nil.

Ltac decide_reference := unfold reference; vm_compute; find_disjunct.

Ltac node_ok :=
  constructor;
  [ vm_compute; reflexivity
  | compare_all
  | for_each compare_all
  | cbn; repeat split; for_each find_disjunct
  | for_each decide_reference
  | apply bench_node_layout; vm_compute; reflexivity ].

Ltac array_ok :=
  constructor;
  [ vm_compute; reflexivity
  | compare_all
  | for_each compare_all
  | cbn; repeat split; for_each find_disjunct
  | for_each decide_reference
  | apply bench_array_layout; [vm_compute; reflexivity | compare_all] ].

Lemma sample_well_formed :
  well_formed Bench.page_size bench_pages_ok Sample.mut
    Sample.small_objects Sample.large_objects.
Proof.
  constructor.
  - compare_all.
  - compare_all.
  - compare_all.
  - exists 16. compare_all.
  - compare_all.
  - intros x Hx. cbn in Hx. cbn. unfold Bench.ALLOC_KIND_NODE,
      Bench.ALLOC_KIND_DOUBLE_ARRAY.
    destruct (Z.eqb_spec x 0); [lia |]. destruct (Z.eqb_spec x 1); [lia |].
    reflexivity.
  - compare_all.
  - apply Forall_cons; [node_ok |]. apply Forall_cons; [node_ok |].
    apply Forall_cons; [array_ok |]. apply Forall_cons; [node_ok |].
    apply Forall_nil.
  - apply Forall_cons; [node_ok |]. apply Forall_nil.
  - for_each ltac:(split; [compare_all | split; [compare_all | find_disjunct]]).
  - cbn. repeat split; for_each find_disjunct.
  - for_each ltac:(vm_compute; reflexivity).
  - split; [for_each compare_all | compare_all].
  - cbn. repeat split; for_each find_disjunct.
  - for_each ltac:(split; [compare_all |
                   split; [compare_all |
                   split; [find_disjunct | for_each find_disjunct]]]).
  - for_each decide_reference.
Qed.

(** the node nobody references is not reachable *)
Lemma sample_reachable (v : Z) :
  reachable Sample.memory Sample.small_objects Sample.large_objects
    Sample.root_slots v ->
  In v [Sample.a; Sample.b; Sample.c; Sample.d].
Proof.
  intros H. induction H as [r v Hr E Hin | o f v Ho IH Hf E Hin].
  - cbn in Hr. destruct Hr as [<- | [<- | [<- | []]]];
      subst v; vm_compute; auto.
  - cbn in IH. destruct IH as [<- | [<- | [<- | [<- | []]]]];
      vm_compute in Hf;
      repeat match type of Hf with
             | _ \/ _ => destruct Hf as [<- | Hf]
             | False => destruct Hf
             end;
      subst v;
      first [ solve [vm_compute; auto 10]
            | exfalso; vm_compute in Hin; intuition discriminate ].
Qed.

(** ** The collection of the sample heap *)

Lemma sample_fuel :
  (length Sample.small_objects + length Sample.large_objects < 6)%nat.
Proof. cbn. lia. Qed.

Lemma identity_preservation_witness :
  exists mut',
    collect Bench.page_size 6 Sample.mut = Done mut'
    /\ load (memory (mutator_heap mut')) 4096
       = load (memory (mutator_heap mut')) 4104
    /\ 65536 <= load (memory (mutator_heap mut')) 4096
         < hp (mutator_semi_space mut').
Proof.
  destruct (collect_ok Bench.page_size Bench.is_marked bench_pages_ok
              bench_contract Sample.mut Sample.small_objects
              Sample.large_objects 6 sample_well_formed sample_fuel)
    as (mut' & _ & _ & _ & E & _).
  exists mut'. split; [exact E |].
  destruct (identity_preservation Bench.page_size Bench.is_marked
              bench_pages_ok Sample.mut mut' Sample.small_objects
              Sample.large_objects 6 bench_contract sample_well_formed E)
    as [(survivors & live & fwd & _ & Hslots) _].
  apply (Hslots 4096 4096 4104 4104).
  - apply live_root. vm_compute. auto.
  - apply live_root. vm_compute. auto.
  - vm_compute. reflexivity.
  - vm_compute. auto.
Defined.

Lemma collect_terminates_witness :
  (exists mut',
     forall fuel, (5 < fuel)%nat ->
       collect Bench.page_size fuel Sample.mut = Done mut')
  /\ (exists h, trace 4 2 Sample.mut = Done h).
Proof.
  destruct (collect_terminates Bench.page_size Bench.is_marked bench_pages_ok
              Sample.mut Sample.small_objects Sample.large_objects
              bench_contract sample_well_formed)
    as [Hcollect (survivors & h & Hnd & Hlive & Htrace)].
  split; [exact Hcollect |].
  exists h. apply Htrace; [| cbn; lia].
  assert (Hincl : incl survivors [Sample.a; Sample.b; Sample.c]).
  { intros o Ho. apply Hlive in Ho. destruct Ho as [HoF Hreach].
    apply sample_reachable in Hreach.
    cbn in HoF, Hreach |- *.
    destruct HoF as [<- | [<- | [<- | [<- | []]]]]; auto.
    destruct Hreach as [E | [E | [E | [E | []]]]]; vm_compute in E;
      discriminate. }
  pose proof (NoDup_incl_length Hnd Hincl) as Hlen. cbn in Hlen. lia.
Defined.

Lemma capacity_invariant_witness :
  (exists mut',
     collect Bench.page_size 6 Sample.mut = Done mut'
     /\ capacity_ok (mutator_semi_space mut'))
  /\ capacity_ok (flip Sample.space)
  /\ (exists addr mut',
        allocate Bench.page_size 6 Sample.mut Bench.ALLOC_KIND_NODE 32
        = Done (addr, mut')
        /\ capacity_ok (mutator_semi_space mut')).
Proof.
  destruct (capacity_invariant (los := Bench.space) Bench.page_size
              Bench.is_marked bench_pages_ok)
    as (_ & Hflip & _ & Hcollect & Hallocate).
  split; [| split].
  - destruct (collect_ok Bench.page_size Bench.is_marked bench_pages_ok
                bench_contract Sample.mut Sample.small_objects
                Sample.large_objects 6 sample_well_formed sample_fuel)
      as (mut' & _ & _ & _ & E & _).
    exists mut'. split; [exact E |].
    exact (Hcollect Sample.mut mut' Sample.small_objects Sample.large_objects
             6%nat bench_contract sample_well_formed E).
  - apply Hflip; vm_compute; congruence.
  - eexists. eexists. split; [reflexivity |].
    refine (Hallocate Sample.mut _ Sample.small_objects Sample.large_objects
              6%nat Bench.ALLOC_KIND_NODE 32 _ bench_contract
              sample_well_formed _ eq_refl).
    vm_compute. split; congruence.
Defined.

(** ** More of the primitives *)

Lemma land_clears_low (x k : Z) :
  0 <= k < 64 -> 0 <= x < Word.modulus ->
  Z.land x (Word.not (Word.sub (2 ^ k) 1)) = x / 2 ^ k * 2 ^ k.
Proof.
  intros Hk Hx.
  assert (Hpow : 0 < 2 ^ k <= 2 ^ 63).
  { split; [apply Z.pow_pos_nonneg; lia |].
    apply Z.pow_le_mono_r; lia. }
  assert (HM : Word.modulus = 2 ^ 64) by reflexivity.
  assert (H63 : 2 ^ 64 = 2 * 2 ^ 63) by reflexivity.
  assert (E1 : Word.sub (2 ^ k) 1 = Z.ones k).
  { unfold Word.sub. rewrite wrap_small by lia.
    rewrite Z.ones_equiv. lia. }
  rewrite E1. unfold Word.not, Word.wrap. rewrite HM.
  rewrite <- (Z.land_ones (Z.lnot (Z.ones k)) 64) by lia.
  rewrite Z.land_assoc.
  rewrite <- Z.ldiff_land, Z.ldiff_ones_r by lia.
  rewrite Z.land_ones by lia.
  rewrite Z.shiftl_mul_pow2, Z.shiftr_div_pow2 by lia.
  apply Z.mod_small.
  pose proof (Z.mul_div_le x (2 ^ k) ltac:(lia)).
  pose proof (Z.div_pos x (2 ^ k) ltac:(lia) ltac:(lia)).
  nia.
Qed.

(** X1.  [align_up] with a power-of-two alignment: the least multiple of the
    alignment that is not below [addr], as long as that fits a word; above
    the last multiple the sum wraps and the answer is 0. *)
Theorem align_up_power_of_two (addr k : Z) :
  0 <= k < 64 -> 0 <= addr < Word.modulus ->
  (addr + 2 ^ k - 1 < Word.modulus ->
   align_up addr (2 ^ k) mod 2 ^ k = 0
   /\ addr <= align_up addr (2 ^ k) < addr + 2 ^ k
   /\ (addr mod 2 ^ k = 0 -> align_up addr (2 ^ k) = addr))
  /\ (Word.modulus <= addr + 2 ^ k - 1 -> align_up addr (2 ^ k) = 0).
Proof.
  intros Hk Ha.
  assert (Hpow : 0 < 2 ^ k <= 2 ^ 63).
  { split; [apply Z.pow_pos_nonneg; lia |].
    apply Z.pow_le_mono_r; lia. }
  assert (HM : Word.modulus = 2 * 2 ^ 63) by reflexivity.
  assert (Ex : Word.sub (Word.add addr (2 ^ k)) 1
               = Word.wrap (addr + 2 ^ k - 1)).
  { unfold Word.sub, Word.add, Word.wrap.
    rewrite Zminus_mod_idemp_l. reflexivity. }
  unfold align_up, Word.and. rewrite Ex.
  rewrite land_clears_low by (try apply wrap_range; lia).
  split.
  - intros Hfit. rewrite wrap_small by lia.
    set (q := (addr + 2 ^ k - 1) / 2 ^ k).
    pose proof (Z.div_mod (addr + 2 ^ k - 1) (2 ^ k) ltac:(lia)) as Hdm.
    pose proof (Z.mod_pos_bound (addr + 2 ^ k - 1) (2 ^ k) ltac:(lia)) as Hb.
    fold q in Hdm.
    split; [apply Z.mod_mul; lia |]. split; [lia |].
    intros Hal.
    pose proof (Z.div_mod addr (2 ^ k) ltac:(lia)) as Hdm'.
    rewrite Hal, Z.add_0_r in Hdm'.
    assert (q = addr / 2 ^ k); [| lia].
    unfold q. symmetry. apply (Z.div_unique _ _ _ (2 ^ k - 1)); lia.
  - intros Hwrap.
    assert (Ew : Word.wrap (addr + 2 ^ k - 1) = addr + 2 ^ k - 1 - Word.modulus).
    { unfold Word.wrap. symmetry.
      apply (Z.mod_unique _ _ 1); lia. }
    rewrite Ew. rewrite Z.div_small by lia. reflexivity.
Qed.

(** X2.  [semi_space_contains] is one unsigned comparison, and it is the
    range test: an address below [base] wraps to a large difference. *)
Theorem semi_space_contains_range (space : semi_space) (obj : Z) :
  0 <= base space -> 0 <= size space ->
  base space + size space <= Word.modulus ->
  0 <= obj < Word.modulus ->
  semi_space_contains space obj = true
  <-> base space <= obj < base space + size space.
Proof.
  intros Hb Hs Hfit Ho. unfold semi_space_contains, Word.sub.
  rewrite Z.ltb_lt.
  destruct (Z.le_gt_cases (base space) obj) as [Hle | Hgt].
  - rewrite wrap_small by lia. lia.
  - assert (E : Word.wrap (obj - base space)
                = obj - base space + Word.modulus).
    { unfold Word.wrap. symmetry. apply (Z.mod_unique _ _ (-1)); lia. }
    rewrite E. lia.
Qed.

(** X3.  Which half [flip] makes the tospace: the upper one unless [hp] is
    beyond the split.  So a flip from the lower half always goes up, a flip
    from the upper half goes down only if something was allocated there, and
    two flips in a row always end in the upper half. *)
Theorem flip_selects_half (space : semi_space) :
  0 <= base space -> 0 <= size space ->
  base space + size space < Word.modulus ->
  let split := base space + size space / 2 in
  let counted := Word.signed (count space + 1) in
  (hp space <= split ->
   flip space
   = mk_semi_space split (base space + size space) (base space) (size space)
       counted)
  /\ (split < hp space ->
      flip space
      = mk_semi_space (base space) split (base space) (size space) counted)
  /\ hp (flip (flip space)) = split
  /\ limit (flip (flip space)) = base space + size space.
Proof.
  intros Hb Hs Hfit split counted.
  pose proof (Z.div_mod (size space) 2 ltac:(lia)) as Hdm.
  pose proof (Z.mod_pos_bound (size space) 2 ltac:(lia)) as Hmb.
  assert (Esplit : Word.add (base space) (Word.shr (size space) 1) = split).
  { unfold Word.shr. rewrite Z.shiftr_div_pow2 by lia. change (2 ^ 1) with 2.
    unfold Word.add. apply wrap_small. unfold split. lia. }
  assert (Etop : Word.add (base space) (size space) = base space + size space)
    by (unfold Word.add; apply wrap_small; lia).
  assert (Hup : hp space <= split ->
            flip space
            = mk_semi_space split (base space + size space) (base space)
                (size space) counted).
  { intros H. unfold flip. rewrite Esplit, Etop.
    destruct (Z.leb_spec (hp space) split); [reflexivity | lia]. }
  assert (Hdown : split < hp space ->
            flip space
            = mk_semi_space (base space) split (base space) (size space)
                counted).
  { intros H. unfold flip. rewrite Esplit.
    destruct (Z.leb_spec (hp space) split); [lia | reflexivity]. }
  split; [exact Hup |]. split; [exact Hdown |].
  assert (Hsecond : forall s : semi_space,
            base s = base space -> size s = size space -> hp s <= split ->
            hp (flip s) = split /\ limit (flip s) = base space + size space).
  { intros s Eb Es Hh. unfold flip. rewrite Eb, Es, Esplit, Etop.
    destruct (Z.leb_spec (hp s) split); [| lia]. split; reflexivity. }
  destruct (Z.le_gt_cases (hp space) split) as [H | H].
  - rewrite (Hup H).
    destruct (Hsecond (mk_semi_space split (base space + size space)
                         (base space) (size space) counted)
                eq_refl eq_refl) as [E1 E2]; [cbn; lia | auto].
  - rewrite (Hdown H).
    destruct (Hsecond (mk_semi_space (base space) split (base space)
                         (size space) counted)
                eq_refl eq_refl) as [E1 E2]; [cbn; unfold split; lia | auto].
Qed.

Section Primitives.

Context {layout : ObjectLayout}.
Context {los : Type} {large_objects : LargeObjectSpace los}.
Variable page_size : Z.

(** X6.  The first [forward] of an object copies it byte for byte to [hp]
    and advances [hp] by the aligned size, provided the copy is one that
    [memcpy] defines: the object and its destination lie in the address
    space and do not overlap.  In the original only the header word
    changes, to the address of the copy, and no other byte of memory does.
    The large-object space and the bounds of the semi-space are left
    alone. *)
Theorem forward_copies_object (h : heap (los := los)) (o : Z) :
  let bytes := object_size (load (memory h) o) (memory h) o in
  let to := hp (heap_semi_space h) in
  is_kind (load (memory h) o) = true ->
  8 <= bytes ->
  0 <= to -> to + bytes <= Word.modulus -> o + bytes <= Word.modulus ->
  o + bytes <= to \/ to + bytes <= o ->
  exists h1,
    forward h o = Done (to, h1)
    /\ (forall i, 0 <= i < bytes -> memory h1 (to + i) = memory h (o + i))
    /\ load (memory h1) o = to
    /\ (forall x,
          (x < to \/ to + bytes <= x) -> (x < o \/ o + 8 <= x) ->
          memory h1 x = memory h x)
    /\ hp (heap_semi_space h1) = Word.add to (align_up bytes ALIGNMENT)
    /\ heap_large_object_space h1 = heap_large_object_space h
    /\ limit (heap_semi_space h1) = limit (heap_semi_space h)
    /\ base (heap_semi_space h1) = base (heap_semi_space h)
    /\ size (heap_semi_space h1) = size (heap_semi_space h)
    /\ count (heap_semi_space h1) = count (heap_semi_space h).
Proof.
  intros bytes to Hk Hb Hto Hdst Hsrc Hapart. unfold forward. rewrite Hk.
  unfold copy. rewrite Hk. fold bytes to.
  rewrite (memcpy_apart _ _ _ _ Hdst Hsrc) by lia. cbn [bind].
  eexists. split; [reflexivity |].
  cbn [memory heap_semi_space heap_large_object_space set_hp limit base
       size count hp].
  split.
  { intros i Hi. rewrite store_byte_out by lia.
    apply blit_byte_in. lia. }
  split.
  { rewrite load_store_same. apply wrap_small. lia. }
  split.
  { intros x Hx Hx'. rewrite store_byte_out by lia.
    apply blit_byte_out. lia. }
  repeat split.
Qed.

End Primitives.

(** ** What a steal does to memory *)

Lemma madvise_zero (ps : Z) (m : mem) (addr q x : Z) :
  0 < ps -> addr mod ps = 0 -> addr <= x < addr + q * ps ->
  madvise_dontneed ps m addr (q * ps) x = 0.
Proof.
  intros Hps Ha Hx. unfold madvise_dontneed.
  rewrite Ha, Z.eqb_refl, round_up_multiple by exact Hps.
  apply fill_byte_in. exact Hx.
Qed.

(** X7.  A successful steal on a page-aligned semi-space whose size is a
    power of two drops two ranges of [half_size] bytes, the donated tail of
    the tospace and its mirror image in the other half, which read as zero
    afterwards; every other byte of memory is as it was.  A failed steal
    changes nothing. *)
Theorem steal_pages_releases (ps : Z) (m : mem) (space : semi_space)
    (n k t : Z) :
  0 < ps -> 0 < base space -> base space + size space < Word.modulus ->
  1 <= k -> size space = 2 ^ k ->
  base space mod ps = 0 -> (size space / 2) mod ps = 0 ->
  limit space mod ps = 0 ->
  t = base space \/ t = base space + size space / 2 ->
  t <= hp space -> hp space <= limit space ->
  limit space <= t + size space / 2 ->
  0 <= n < Word.modulus -> round_even n * ps < Word.modulus ->
  let half := half_bytes ps n in
  let mirror :=
    if t =? base space then limit space - half + size space / 2
    else limit space - half - size space / 2 in
  let '(ok, space', m') := semi_space_steal_pages ps m space n in
  (ok = false -> m' = m /\ space' = space)
  /\ (ok = true ->
      limit space' = limit space - half
      /\ (forall x, limit space' <= x < limit space -> m' x = 0)
      /\ (forall x, mirror <= x < mirror + half -> m' x = 0)
      /\ (forall x,
            (x < limit space' \/ limit space <= x) ->
            (x < mirror \/ mirror + half <= x) -> m' x = m x)).
Proof.
  intros Hps Hb Htop Hk Hsz Hbase Hhalfps Hlimps Ht Hlo Hhi Hlim Hn Hfit.
  destruct (power_of_two_even _ k Hk Hsz) as [Hpos Heven].
  assert (Hsz63 : size space <= 9223372036854775808).
  { destruct (Z.le_gt_cases k 63) as [Hle | Hgt].
    - rewrite Hsz. change 9223372036854775808 with (2 ^ 63).
      apply Z.pow_le_mono_r; lia.
    - exfalso. assert (2 ^ 64 <= 2 ^ k) by (apply Z.pow_le_mono_r; lia).
      pose proof modulus_value.
      change (2 ^ 64) with 18446744073709551616 in *. lia. }
  pose proof modulus_value as HM.
  pose proof (steal_half_size_exact ps n Hn ltac:(lia) Hfit) as Ehalf.
  pose proof (half_bytes_nonneg ps n ltac:(lia) ltac:(lia)) as Hnn.
  cbv zeta. unfold semi_space_steal_pages. rewrite Ehalf.
  set (half := half_bytes ps n) in *.
  unfold Word.sub at 1. rewrite wrap_small by lia.
  destruct (Z.ltb_spec (limit space - hp space) half) as [Hlt | Hge].
  - split; [auto | discriminate].
  - split; [discriminate |]. intros _.
    cbn [hp limit base size count set_limit].
    assert (E1 : Word.sub (limit space) half = limit space - half)
      by (unfold Word.sub; apply wrap_small; lia).
    rewrite !E1.
    assert (E2 : Word.sub (limit space - half) (base space)
                 = limit space - half - base space)
      by (unfold Word.sub; apply wrap_small; lia).
    rewrite !E2.
    assert (E3 : Word.add (base space) (limit space - half - base space)
                 = limit space - half)
      by (unfold Word.add; rewrite wrap_small by lia; lia).
    rewrite E3.
    assert (E4 : Word.shr (size space) 1 = size space / 2)
      by (unfold Word.shr; rewrite Z.shiftr_div_pow2 by lia; reflexivity).
    rewrite E4.
    assert (E5 : Word.add (limit space - half - base space) (size space / 2)
                 = limit space - half - base space + size space / 2)
      by (unfold Word.add; apply wrap_small; lia).
    rewrite E5.
    set (off := (limit space - half - base space + size space / 2)
                mod size space).
    assert (E6 : Word.and
                   (limit space - half - base space + size space / 2)
                   (Word.sub (size space) 1) = off).
    { unfold Word.and, Word.sub. rewrite wrap_small by lia.
      replace (size space - 1) with (Z.ones k)
        by (rewrite Z.ones_equiv, Hsz; lia).
      rewrite Z.land_ones by lia. unfold off. rewrite Hsz. reflexivity. }
    rewrite E6.
    assert (Hoff : 0 <= off < size space)
      by (apply Z.mod_pos_bound; lia).
    assert (E7 : Word.add (base space) off = base space + off)
      by (unfold Word.add; apply wrap_small; lia).
    rewrite E7.
    assert (Eh : half = round_even n / 2 * ps) by reflexivity.
    set (mirror := if t =? base space
                   then limit space - half + size space / 2
                   else limit space - half - size space / 2).
    assert (Emirror : 0 < half -> base space + off = mirror).
    { intros Hpos'. unfold mirror. destruct Ht as [Et | Et].
      - rewrite Et, Z.eqb_refl.
        assert (off = limit space - half - base space + size space / 2);
          [| lia].
        unfold off. apply Z.mod_small. lia.
      - destruct (Z.eqb_spec t (base space)) as [Eq | _]; [lia |].
        assert (off = limit space - half - base space - size space / 2);
          [| lia].
        unfold off. symmetry. apply Z.mod_unique with (q := 1); lia. }
    (* divisibility of the two addresses *)
    assert (Dhalf : half mod ps = 0) by (rewrite Eh; apply Z.mod_mul; lia).
    assert (Dl : (limit space - half) mod ps = 0).
    { rewrite Zminus_mod, Hlimps, Dhalf. reflexivity. }
    assert (Dm : 0 < half -> (base space + off) mod ps = 0).
    { intros Hpos'. rewrite (Emirror Hpos'). unfold mirror.
      destruct (t =? base space).
      - rewrite Z.add_mod, Dl, Hhalfps by lia. reflexivity.
      - rewrite Zminus_mod, Dl, Hhalfps. reflexivity. }
    split; [reflexivity |].
    destruct (Z.eq_dec half 0) as [E0 | Hnz].
    { (* nothing is donated *)
      assert (Eq0 : round_even n / 2 * ps = 0) by lia.
      split; [intros x Hx; lia |]. split; [intros x Hx; lia |].
      intros x _ _. rewrite Eh, !madvise_frame; auto; lia. }
    assert (Hpos' : 0 < half) by lia.
    specialize (Emirror Hpos'). specialize (Dm Hpos').
    split; [| split].
    + intros x Hx.
      assert (Efirst : madvise_dontneed ps m (limit space - half) half x = 0)
        by (rewrite Eh; apply madvise_zero; auto; lia).
      rewrite Eh. unfold madvise_dontneed at 1.
      rewrite Dm, Z.eqb_refl, round_up_multiple by exact Hps.
      unfold fill.
      destruct ((base space + off <=? x)
                && (x <? base space + off + round_even n / 2 * ps));
        [reflexivity |].
      rewrite <- Eh. exact Efirst.
    + intros x Hx. rewrite Eh. apply madvise_zero; auto. lia.
    + intros x Hx Hx'. rewrite Eh, !madvise_frame; auto; lia.
Qed.

Section Interface.

Context {layout : ObjectLayout}.
Context {los : Type} {large_objects : LargeObjectSpace los}.
Variable page_size : Z.

(** ** What no operation does: move the mapping or touch the root chain *)

Lemma visit_with_mapping (s : heap (los := los) -> Z -> outcome (Z * heap)) :
  (forall h a x h', s h a = Done (x, h') ->
     base (heap_semi_space h') = base (heap_semi_space h)
     /\ size (heap_semi_space h') = size (heap_semi_space h)) ->
  forall h loc h',
    visit_with s h loc = Done h' ->
    base (heap_semi_space h') = base (heap_semi_space h)
    /\ size (heap_semi_space h') = size (heap_semi_space h).
Proof.
  intros Hs h loc h'. unfold visit_with.
  destruct (load (memory h) loc =? 0);
    [intros E; injection E as <-; auto |].
  destruct (semi_space_contains _ _).
  - unfold visit_semi_space, forward.
    destruct (is_kind (load (memory h) (load (memory h) loc))) eqn:Ek.
    + unfold copy. rewrite Ek.
      destruct (memcpy _ _ _ _) as [m1 | d |]; cbn [bind];
        try discriminate.
      intros E. injection E as <-. auto.
    + cbn [bind]. intros E. injection E as <-. auto.
  - destruct (large_object_space_contains _ _); [| discriminate].
    unfold visit_large_object_space.
    destruct (large_object_space_copy _ _) as [first l].
    destruct first.
    + intros E. apply bind_done in E. destruct E as ([x h2] & E1 & E2).
      injection E2 as <-. exact (Hs _ _ _ _ E1).
    + intros E. injection E as <-. auto.
Qed.

Lemma visit_each_mapping (s : heap (los := los) -> Z -> outcome (Z * heap)) :
  (forall h a x h', s h a = Done (x, h') ->
     base (heap_semi_space h') = base (heap_semi_space h)
     /\ size (heap_semi_space h') = size (heap_semi_space h)) ->
  forall locs h h',
    visit_each s h locs = Done h' ->
    base (heap_semi_space h') = base (heap_semi_space h)
    /\ size (heap_semi_space h') = size (heap_semi_space h).
Proof.
  intros Hs locs. induction locs as [| loc locs IH]; intros h h'; cbn.
  - intros E. injection E as <-. auto.
  - intros E. apply bind_done in E. destruct E as (h1 & E1 & E2).
    destruct (IH _ _ E2) as [-> ->].
    exact (visit_with_mapping s Hs _ _ _ E1).
Qed.

Lemma scan_mapping (fuel : nat) :
  forall (h : heap (los := los)) a x h',
    scan fuel h a = Done (x, h') ->
    base (heap_semi_space h') = base (heap_semi_space h)
    /\ size (heap_semi_space h') = size (heap_semi_space h).
Proof.
  induction fuel as [| fuel IH]; intros h a x h'; cbn [scan];
    [discriminate |].
  unfold scan_with. destruct (is_kind _); [| discriminate].
  intros E. apply bind_done in E. destruct E as (h1 & E1 & E2).
  injection E2 as _ <-. exact (visit_each_mapping _ IH _ _ _ E1).
Qed.

Lemma scan_loop_mapping (steps fuel : nat) :
  forall (h : heap (los := los)) grey h',
    scan_loop steps fuel h grey = Done h' ->
    base (heap_semi_space h') = base (heap_semi_space h)
    /\ size (heap_semi_space h') = size (heap_semi_space h).
Proof.
  induction steps as [| steps IH]; intros h grey h'; cbn [scan_loop];
    [discriminate |].
  destruct (grey <? hp (heap_semi_space h)).
  - intros E. apply bind_done in E. destruct E as ([grey1 h1] & E1 & E2).
    destruct (IH _ _ _ E2) as [-> ->]. exact (scan_mapping fuel _ _ _ _ E1).
  - intros E. injection E as <-. auto.
Qed.

Lemma flip_mapping (space : semi_space) :
  base (flip space) = base space /\ size (flip space) = size space.
Proof. unfold flip. destruct (_ <=? _); auto. Qed.

Lemma collect_mapping (fuel : nat) (mut mut' : mutator (los := los)) :
  collect page_size fuel mut = Done mut' ->
  base (mutator_semi_space mut') = base (mutator_semi_space mut)
  /\ size (mutator_semi_space mut') = size (mutator_semi_space mut)
  /\ roots mut' = roots mut.
Proof.
  unfold collect. intros E.
  apply bind_done in E. destruct E as (h1 & E1 & E2).
  apply bind_done in E2. destruct E2 as (h2 & E2 & E3).
  apply (visit_each_mapping _ (scan_mapping fuel)) in E1.
  apply scan_loop_mapping in E2.
  cbn [heap_semi_space set_semi_space set_large_object_space] in *.
  pose proof (steal_fields page_size (memory h2) (heap_semi_space h2)
                (live_pages_at_last_collection
                   (large_object_space_finish_gc
                      (heap_large_object_space h2)))) as Hst.
  destruct (semi_space_steal_pages _ _ _ _) as [[ok space'] m'].
  destruct Hst as (_ & Hb & Hs & _).
  injection E3 as <-. unfold mutator_semi_space.
  cbn [mutator_heap heap_semi_space roots].
  destruct (flip_mapping (heap_semi_space (mutator_heap mut))) as [Fb Fs].
  destruct E1 as [B1 S1]. destruct E2 as [B2 S2].
  repeat split; congruence.
Qed.

Lemma steal_from_mapping (mut : mutator (los := los)) (n : Z) :
  let mut' := snd (steal_from page_size mut n) in
  base (mutator_semi_space mut') = base (mutator_semi_space mut)
  /\ size (mutator_semi_space mut') = size (mutator_semi_space mut)
  /\ roots mut' = roots mut.
Proof.
  unfold steal_from.
  pose proof (steal_fields page_size (memory (mutator_heap mut))
                (heap_semi_space (mutator_heap mut)) n) as Hst.
  destruct (semi_space_steal_pages _ _ _ _) as [[ok space'] m'].
  destruct Hst as (_ & Hb & Hs & _). cbn. auto.
Qed.

(** X8.  Neither a collection nor an allocation ever moves or resizes the
    mapping: whenever [collect], [allocate] or [allocate_pointerless]
    returns, the [base] and the [size] of the semi-space are the ones it
    started with, whatever the heap holds.  There is no growth policy. *)
Theorem mapping_is_fixed (fuel : nat) (mut : mutator (los := los)) :
  (forall mut',
     collect page_size fuel mut = Done mut' ->
     base (mutator_semi_space mut') = base (mutator_semi_space mut)
     /\ size (mutator_semi_space mut') = size (mutator_semi_space mut))
  /\ (forall kind bytes addr mut',
        allocate page_size fuel mut kind bytes = Done (addr, mut')
        \/ allocate_pointerless page_size fuel mut kind bytes
           = Done (addr, mut') ->
        base (mutator_semi_space mut') = base (mutator_semi_space mut)
        /\ size (mutator_semi_space mut') = size (mutator_semi_space mut)).
Proof.
  split.
  { intros mut' E. destruct (collect_mapping _ _ _ E) as (Hb & Hs & _).
    auto. }
  intros kind bytes addr mut' E.
  assert (E' : allocate page_size fuel mut kind bytes = Done (addr, mut'))
    by (destruct E as [E | E]; exact E).
  clear E. revert E'. unfold allocate.
  destruct (LARGE_OBJECT_THRESHOLD <=? bytes).
  - unfold allocate_large, reserve_large. intros E.
    apply bind_done in E. destruct E as (mut1 & E1 & E2).
    assert (H1 : base (mutator_semi_space mut1) = base (mutator_semi_space mut)
                 /\ size (mutator_semi_space mut1)
                    = size (mutator_semi_space mut)).
    { revert E1.
      set (np := large_object_space_npages _ _).
      pose proof (steal_from_mapping mut np) as S1.
      destruct (steal_from page_size mut np) as [ok mutA].
      cbn [snd] in S1. destruct ok.
      - intros E. injection E as <-. tauto.
      - intros E. apply bind_done in E. destruct E as (mutB & EB & EC).
        pose proof (collect_mapping _ _ _ EB) as S2.
        pose proof (steal_from_mapping mutB np) as S3.
        destruct (steal_from page_size mutB np) as [ok2 mutC].
        cbn [snd] in S3. destruct ok2; [| discriminate].
        injection EC as <-.
        destruct S1 as (? & ? & ?). destruct S2 as (? & ? & ?).
        destruct S3 as (? & ? & ?). split; congruence. }
    revert E2. unfold place_large.
    destruct (obtain_large _ _) as [ret l].
    destruct (ret =? 0); [discriminate |].
    intros E. injection E as _ <-. exact H1.
  - generalize fuel at 1. intros tries. revert mut.
    induction tries as [| tries IH]; intros mut; [discriminate |].
    cbn [allocate_small].
    destruct (_ <? _).
    + intros E. apply bind_done in E. destruct E as (mut1 & E1 & E2).
      unfold collect_for_alloc in E1.
      apply bind_done in E1. destruct E1 as (mut2 & E1 & E3).
      destruct (_ <? _) in E3; [discriminate |]. injection E3 as ->.
      destruct (IH _ E2) as (-> & ->).
      destruct (collect_mapping _ _ _ E1) as (Hb & Hs & _). auto.
    + destruct (clear_memory _ _ _) as [m1 | d |]; cbn [bind];
        try discriminate.
      intros E. injection E as _ <-. cbn. auto.
Qed.

(** ** A collection without roots *)

(** X9.  With no roots a collection copies nothing and never aborts,
    whatever the heap holds: it flips, finds the grey cursor at [hp] at
    once, closes the cycle of the large-object space and makes its steal, so
    that the new tospace is empty. *)
Theorem collect_without_roots (fuel : nat) (mut : mutator (los := los)) :
  roots mut = [] ->
  exists mut',
    collect page_size (S fuel) mut = Done mut'
    /\ hp (mutator_semi_space mut') = hp (flip (mutator_semi_space mut))
    /\ heap_large_object_space (mutator_heap mut')
       = large_object_space_finish_gc
           (large_object_space_start_gc
              (heap_large_object_space (mutator_heap mut)))
    /\ roots mut' = [].
Proof.
  intros Hr.
  assert (E : collect page_size (S fuel) mut
              = Done (finish page_size (flipped mut) [])).
  { rewrite collect_trace. unfold trace. rewrite Hr.
    cbn [visit_roots visit_each bind scan_loop].
    rewrite Z.ltb_irrefl. reflexivity. }
  exists (finish page_size (flipped mut) []).
  split; [exact E |]. split; [| split].
  - unfold finish, flipped, mutator_semi_space.
    cbn [memory heap_semi_space heap_large_object_space].
    pose proof (steal_fields page_size (memory (mutator_heap mut))
                  (flip (heap_semi_space (mutator_heap mut)))
                  (live_pages_at_last_collection
                     (large_object_space_finish_gc
                        (large_object_space_start_gc
                           (heap_large_object_space (mutator_heap mut))))))
      as Hst.
    destruct (semi_space_steal_pages _ _ _ _) as [[ok space'] m'].
    destruct Hst as (Hh & _). exact Hh.
  - unfold finish, flipped.
    cbn [memory heap_semi_space heap_large_object_space].
    destruct (semi_space_steal_pages _ _ _ _) as [[ok space'] m'].
    reflexivity.
  - unfold finish.
    destruct (semi_space_steal_pages _ _ _ _) as [[ok space'] m'].
    reflexivity.
Qed.

(** ** Fresh objects and their fields *)

Lemma load_zero (m : mem) (a : Z) :
  (forall i, 0 <= i < 8 -> m (a + i) = 0) -> load m a = 0.
Proof.
  intros H. rewrite (load_ext (fun _ => 0) m a) by (intros; now apply H).
  reflexivity.
Qed.

(** X10.  Every field of an object that the bump allocator has just returned
    reads as null, so a collection may run before the mutator has
    initialised it; [set_field] followed by [get_field] gives back the word
    stored, and changes no other field and not the header. *)
Theorem fresh_object_fields (fuel : nat) (mut mut' : mutator (los := los))
    (kind bytes addr : Z) :
  8 <= bytes < LARGE_OBJECT_THRESHOLD ->
  0 <= kind < Word.modulus ->
  0 <= addr -> addr + bytes < Word.modulus ->
  allocate page_size fuel mut kind bytes = Done (addr, mut') ->
  let m' := memory (mutator_heap mut') in
  get_field m' addr = kind
  /\ (forall f, addr + 8 <= f -> f + 8 <= addr + bytes -> get_field m' f = 0)
  /\ (forall f v,
        addr + 8 <= f -> 0 <= v < Word.modulus ->
        get_field (set_field m' f v) f = v
        /\ get_field (set_field m' f v) addr = kind
        /\ forall f', f' + 8 <= f \/ f + 8 <= f' ->
             get_field (set_field m' f v) f' = get_field m' f').
Proof.
  intros Hb Hk Ha Hfit. unfold allocate.
  destruct (Z.leb_spec LARGE_OBJECT_THRESHOLD bytes) as [Hl | _]; [lia |].
  intros E. apply allocate_small_done in E.
  destruct E as (mut0 & m1 & _ & _ & Ec & ->).
  cbn [mutator_heap memory]. cbv zeta.
  set (m0 := memory (mutator_heap mut0)) in *.
  assert (E8 : Word.add addr 8 = addr + 8)
    by (unfold Word.add; apply wrap_small; lia).
  assert (Eb : Word.sub bytes 8 = bytes - 8)
    by (unfold Word.sub; apply wrap_small;
        unfold LARGE_OBJECT_THRESHOLD in Hb; pose proof modulus_value; lia).
  rewrite E8, Eb in Ec. apply clear_memory_done in Ec.
  destruct Ec as [-> _]. unfold get_field, set_field.
  assert (Hhdr : load (fill (store m0 addr kind) (addr + 8) 0 (bytes - 8))
                   addr = kind).
  { rewrite load_fill_out by lia. rewrite load_store_same.
    apply wrap_small. exact Hk. }
  split; [exact Hhdr |]. split.
  - intros f Hf Hf'. apply load_zero. intros i Hi.
    apply fill_byte_in. lia.
  - intros f v Hf Hv. split; [| split].
    + rewrite load_store_same. apply wrap_small. exact Hv.
    + rewrite load_store_other by lia. exact Hhdr.
    + intros f' Hf'. apply load_store_other. lia.
Qed.

End Interface.

(** ** After a collection *)

Section Aftermath.

Context {layout : ObjectLayout}.
Context {los : Type} {large_objects : LargeObjectSpace los}.
Variable page_size : Z.
Variable marked : los -> Z -> bool.
Variable pages_ok : los -> Prop.
Hypothesis contract : large_object_space_contract page_size marked pages_ok.

Lemma collect_anatomy (mut mut' : mutator (los := los)) (F L : list Z)
    (fuel : nat) :
  well_formed page_size pages_ok mut F L ->
  collect page_size fuel mut = Done mut' ->
  exists g h, collected marked pages_ok mut mut' F L g h.
Proof.
  intros WF E.
  destruct (well_formed_start page_size marked pages_ok contract mut F L WF)
    as (Hplaced & Eflip & _ & HT8 & Hhalf8 & HBT & HTtop & Hhalf).
  set (big := S (fuel + length F + length L)).
  destruct (trace_done page_size marked pages_ok contract big mut F L WF
              ltac:(unfold big; lia))
    as (g & h & Etrace & HI & Hroots & Hfields).
  cbv zeta in *.
  assert (Hlen : (length (copied g) <= length F)%nat).
  { rewrite <- (Permutation_length
                  (tr_perm _ _ _ _ _ _ _ _ _ _ _ _ _ HI)), length_app.
    lia. }
  apply (collect_mono page_size fuel big) in E; [| unfold big; lia].
  rewrite collect_trace, (Etrace big) in E by (unfold big; lia).
  cbn [bind] in E. injection E as <-.
  exists g, h.
  destruct WF as [wf_page_size wf_base wf_top wf_power_of_two wf_capacity
                  wf_tags wf_tiled wf_small wf_large wf_large_outside
                  wf_large_apart wf_large_known wf_pages wf_roots_apart
                  wf_roots_outside wf_roots_refs].
  destruct wf_page_size as [Hps Hps8]. destruct wf_base as [Hb Hb8].
  destruct wf_power_of_two as (k & Hk & Hsz).
  unfold LARGE_OBJECT_THRESHOLD, ALIGNMENT in wf_top.
  set (space := mutator_semi_space mut) in *.
  set (m0 := memory (mutator_heap mut)) in *.
  set (B := base space) in *. set (SZ := size space) in *.
  set (HALF := SZ / 2) in *. set (T := to_start space) in *.
  pose proof (tr_base _ _ _ _ _ _ _ _ _ _ _ _ _ HI) as Ebase.
  pose proof (tr_size _ _ _ _ _ _ _ _ _ _ _ _ _ HI) as Esize.
  pose proof (tr_limit _ _ _ _ _ _ _ _ _ _ _ _ _ HI) as Elimit.
  pose proof (tr_pages _ _ _ _ _ _ _ _ _ _ _ _ _ HI) as Hpages.
  set (n := live_pages_at_last_collection
              (large_object_space_finish_gc (heap_large_object_space h))).
  destruct (finish_gc_pages _ _ _ contract _ Hpages) as [Hn Hfit].
  fold n in Hn, Hfit.
  pose proof (steal_after_trace page_size (memory h) (heap_semi_space h) n k T
                Hps) as Hsteal.
  rewrite Ebase, Esize, Elimit in Hsteal.
  destruct (trace_summary marked pages_ok m0 F L (roots mut) B SZ HALF T _ _
              Hplaced g h (memory h) HI Hroots Hfields (fun x _ => eq_refl))
    as (_ & _ & Ehp & Htot8 & Hhp & _).
  specialize (Hsteal Hb ltac:(lia) ltac:(lia) Hsz).
  assert (HTcases : T = B \/ T = B + SZ / 2).
  { unfold T, to_start. fold B SZ.
    destruct (hp space <=? B + SZ / 2); auto. }
  specialize (Hsteal HTcases eq_refl ltac:(lia) ltac:(fold HALF; lia) Hn Hfit).
  unfold finish. fold n.
  destruct (semi_space_steal_pages page_size (memory h) (heap_semi_space h) n)
    as [[ok space'] m'].
  destruct Hsteal as (Shp & Sbase & Ssize & Scount & Slimit & Salign & Sframe).
  assert (Ehp8 : hp space' mod 8 = 0).
  { rewrite Shp, Ehp, Z.add_mod, HT8, Htot8 by lia. reflexivity. }
  assert (Elim8 : limit space' mod 8 = 0).
  { apply Salign; [exact Hps8 |].
    rewrite Z.add_mod, HT8, Hhalf8 by lia. reflexivity. }
  fold HALF in Slimit.
  constructor;
    change (mutator_semi_space
              (mk_mutator
                 (mk_heap m' space'
                    (large_object_space_finish_gc
                       (heap_large_object_space h)))
                 (roots mut))) with space';
    cbn [mutator_heap heap_semi_space memory roots heap_large_object_space];
    fold space; fold B SZ; fold HALF T;
    auto; try congruence; try lia.
  intros x Hx. apply Sframe. rewrite <- Shp. exact Hx.
Qed.

(** *** What a returned collection has done, read off the trace *)

Section Collected.

Variables (mut mut' : mutator (los := los)) (F L : list Z).
Variables (g : progress) (h : heap (los := los)).
Hypothesis done_ : collected marked pages_ok mut mut' F L g h.

Local Abbreviation m0 := (memory (mutator_heap mut)).
Local Abbreviation m' := (memory (mutator_heap mut')).
Local Abbreviation B := (base (mutator_semi_space mut)).
Local Abbreviation SZ := (size (mutator_semi_space mut)).
Local Abbreviation T := (to_start (mutator_semi_space mut)).
Local Abbreviation top := (hp (mutator_semi_space mut')).
Local Abbreviation survivors := (copied g).
Local Abbreviation live :=
  (filter (marked (heap_large_object_space h)) L).
Local Abbreviation fwd := (forwarded m0 F T g).

Let placed := col_placed _ _ _ _ _ _ _ _ done_.
Let traced := col_traced _ _ _ _ _ _ _ _ done_.
Let partition := tracing_progress_ok _ _ _ _ _ _ _ _ _ _ _ _ _ traced.

Lemma collected_top : top = T + total m0 survivors.
Proof.
  rewrite (col_hp _ _ _ _ _ _ _ _ done_).
  exact (tr_hp _ _ _ _ _ _ _ _ _ _ _ _ _ traced).
Qed.

Lemma collected_copy_range (o : Z) :
  In o survivors ->
  fwd o = T + offset_in m0 survivors o
  /\ T <= fwd o /\ fwd o + aligned_size_of m0 o <= top
  /\ 8 <= size_of m0 o <= aligned_size_of m0 o.
Proof.
  intros Ho.
  pose proof (copied_in_F F g o partition Ho) as HoF.
  pose proof (copy_facts _ _ _ _ _ _ _ _ _ _ placed g o partition Ho) as Hc.
  pose proof (small_facts _ _ _ _ _ _ _ _ _ _ placed o HoF) as Hs.
  rewrite (forwarded_small _ _ _ _ _ _ _ _ _ _ placed g o HoF).
  rewrite collected_top. unfold copy_address in *. repeat split; lia.
Qed.

Lemma collected_relocated :
  relocated m0 m' F L (roots mut) T top survivors live fwd.
Proof.
  destruct (trace_summary marked pages_ok m0 F L (roots mut) _ _ _ _ _ _
              placed g h m' traced
              (col_roots_done _ _ _ _ _ _ _ _ done_)
              (col_fields_done _ _ _ _ _ _ _ _ done_))
    as (Hnd & Hincl & Ehp & _ & _ & Hother & Hcopy & Hinj & Hr & Hf & Hl).
  { intros x Hx. apply (col_frame _ _ _ _ _ _ _ _ done_).
    rewrite (col_hp _ _ _ _ _ _ _ _ done_). exact Hx. }
  assert (Hkept : forall v, kept marked F L g h v ->
            kept_by F L survivors live v).
  { intros v [K1 K2]. split; [exact K1 |]. intros Hv.
    apply filter_In. auto. }
  constructor.
  - auto.
  - intros o Ho. apply filter_In in Ho. tauto.
  - intros o [Ho | Ho].
    + exact (tr_reached _ _ _ _ _ _ _ _ _ _ _ _ _ traced o Ho).
    + apply filter_In in Ho. destruct Ho as [Ho Hmk].
      exact (tr_reached_large _ _ _ _ _ _ _ _ _ _ _ _ _ traced o Ho Hmk).
  - exact collected_top.
  - exact Hother.
  - intros o Ho. rewrite (col_hp _ _ _ _ _ _ _ _ done_). auto.
  - exact Hinj.
  - intros r Hr'. destruct (Hr r Hr'). auto.
  - intros o f Ho Hf'. destruct (Hf o f Ho Hf'). auto.
  - intros o f Ho Hf'. apply filter_In in Ho. destruct Ho as [Ho Hmk].
    destruct (Hl o f Ho Hmk Hf'). auto.
Qed.

Lemma collected_payload (o i : Z) :
  In o survivors -> 8 <= i < size_of m0 o -> ~ in_field m0 o i ->
  m' (fwd o + i) = m0 (o + i).
Proof.
  intros Ho Hi Hnf.
  destruct (collected_copy_range o Ho) as (E & Hlo & Hhi & Hsz).
  rewrite (col_frame _ _ _ _ _ _ _ _ done_) by lia.
  rewrite (forwarded_small _ _ _ _ _ _ _ _ _ _ placed g o
             (copied_in_F F g o partition Ho)).
  exact (tr_copy_body _ _ _ _ _ _ _ _ _ _ _ _ _ traced o i Ho Hi Hnf).
Qed.

Lemma collected_shape (o : Z) :
  In o survivors ->
  kind_of m' (fwd o) = kind_of m0 o
  /\ size_of m' (fwd o) = size_of m0 o
  /\ aligned_size_of m' (fwd o) = aligned_size_of m0 o
  /\ fields_of m' (fwd o) = map (fun f => f - o + fwd o) (fields_of m0 o).
Proof.
  intros Ho.
  pose proof (copied_in_F F g o partition Ho) as HoF.
  assert (Ek : kind_of m' (fwd o) = kind_of m0 o)
    by (destruct (rel_copy _ _ _ _ _ _ _ _ _ _ collected_relocated o Ho)
          as (_ & _ & E); exact E).
  destruct (layout_at _ _ _ _ _ _ _ _ _ _ placed o m' (fwd o)
              (or_introl HoF))
    as [Es Ef].
  { intros i Hi Hnf. now apply collected_payload. }
  assert (Esz : size_of m' (fwd o) = size_of m0 o).
  { unfold size_of at 1. rewrite Ek. exact Es. }
  split; [exact Ek |]. split; [exact Esz |]. split.
  - unfold aligned_size_of. rewrite Esz. reflexivity.
  - unfold fields_of at 1. rewrite Ek. exact Ef.
Qed.

Lemma collected_large (o : Z) :
  In o L ->
  kind_of m' o = kind_of m0 o
  /\ (forall i, 8 <= i < size_of m0 o -> ~ in_field m0 o i ->
        m' (o + i) = m0 (o + i))
  /\ size_of m' o = size_of m0 o
  /\ fields_of m' o = fields_of m0 o.
Proof.
  intros Ho.
  pose proof (large_facts _ _ _ _ _ _ _ _ _ _ placed o Ho)
    as (Hpos & Hsz & Htop & Hout).
  assert (Hsame : forall i, 0 <= i < size_of m0 o ->
            m' (o + i) = memory h (o + i)).
  { intros i Hi. apply (col_frame _ _ _ _ _ _ _ _ done_). lia. }
  assert (Ek : kind_of m' o = kind_of m0 o).
  { unfold kind_of at 1.
    rewrite (load_ext (memory h) m' o) by (intros i Hi; apply Hsame; lia).
    exact (tr_large_header _ _ _ _ _ _ _ _ _ _ _ _ _ traced o Ho). }
  assert (Hbody : forall i, 8 <= i < size_of m0 o -> ~ in_field m0 o i ->
            m' (o + i) = m0 (o + i)).
  { intros i Hi Hnf. rewrite Hsame by lia.
    exact (tr_large_body _ _ _ _ _ _ _ _ _ _ _ _ _ traced o i Ho Hi Hnf). }
  destruct (layout_at _ _ _ _ _ _ _ _ _ _ placed o m' o (or_intror Ho) Hbody)
    as [Es Ef].
  split; [exact Ek |]. split; [exact Hbody |].
  unfold size_of, fields_of. rewrite Ek.
  fold (size_of m0 o) (fields_of m0 o). rewrite Es, Ef.
  split; [reflexivity |].
  rewrite <- (map_id (fields_of m0 o)) at 2.
  apply map_ext. intros f. lia.
Qed.

Lemma collected_tiled : tiled m' T (map fwd survivors) top.
Proof.
  pose proof (progress_NoDup _ _ _ _ _ _ _ _ _ _ placed g partition) as Hnd.
  apply NoDup_app_remove_r in Hnd.
  pose proof (copied_sized _ _ _ _ _ _ _ _ _ _ placed g partition) as Hsz.
  rewrite collected_top.
  assert (H : forall suf pre,
            survivors = pre ++ suf ->
            tiled m' (T + total m0 pre) (map fwd suf)
              (T + total m0 survivors)).
  { induction suf as [| o suf IH]; intros pre E.
    - rewrite E, app_nil_r. cbn. lia.
    - assert (Ho : In o survivors)
        by (rewrite E; apply in_or_app; right; now left).
      assert (Hnin : ~ In o pre).
      { intros Hin. rewrite E in Hnd. apply NoDup_remove_2 in Hnd.
        apply Hnd. apply in_or_app. now left. }
      destruct (collected_copy_range o Ho) as (Ea & _).
      destruct (collected_shape o Ho) as (_ & _ & Eas & _).
      cbn [map tiled]. rewrite Ea.
      rewrite E at 1. rewrite offset_in_app_new by exact Hnin.
      split; [lia |].
      rewrite <- Ea, Eas, Ea.
      rewrite E at 1. rewrite offset_in_app_new by exact Hnin.
      replace (T + total m0 pre + aligned_size_of m0 o)
        with (T + total m0 (pre ++ [o]))
        by (rewrite total_app; cbn; lia).
      apply IH. rewrite E, <- app_assoc. reflexivity. }
  specialize (H survivors [] eq_refl). cbn [total] in H.
  rewrite Z.add_0_r in H. exact H.
Qed.

Lemma collected_survivors (o : Z) :
  In o survivors <-> In o F /\ reachable m0 F L (roots mut) o.
Proof.
  exact (survivors_reachable _ _ _ _ _ _ _ _ _ _ _ _ placed g h traced
           (col_roots_done _ _ _ _ _ _ _ _ done_)
           (col_fields_done _ _ _ _ _ _ _ _ done_) o).
Qed.

End Collected.

End Aftermath.

(** ** The heap a collection leaves is well-formed again *)

Section Moved.

Context {layout : ObjectLayout}.

Lemma slots_apart_shift (d : Z) (l : list Z) :
  slots_apart l -> slots_apart (map (fun f => f + d) l).
Proof.
  induction l as [| s l IH]; cbn; [auto |].
  intros [Hs Hl]. split; [| auto].
  rewrite Forall_map. revert Hs. apply Forall_impl. intros s'. lia.
Qed.

(** an object whose header and payload have been carried from [o] in [m]
    to [o'] in [m'], its reference fields holding what [refs'] admits, is
    an object again *)
Lemma object_ok_moved (m m' : mem) (refs refs' : Z -> Prop) (o o' : Z) :
  object_ok m refs o ->
  kind_of m' o' = kind_of m o ->
  (forall i, 8 <= i < size_of m o -> ~ in_field m o i ->
     m' (o' + i) = m (o + i)) ->
  (forall f, In f (fields_of m o) -> refs (load m f) ->
     refs' (load m' (f - o + o'))) ->
  object_ok m' refs' o'
  /\ size_of m' o' = size_of m o
  /\ fields_of m' o' = map (fun f => f - o + o') (fields_of m o).
Proof.
  intros [Hk Hs Hin Hap Hrefs Hlay] Ek Hbody Hfields.
  destruct (Hlay m' o' Hbody) as [Es Ef].
  assert (Esz : size_of m' o' = size_of m o)
    by (unfold size_of at 1; rewrite Ek; exact Es).
  assert (Efs : fields_of m' o' = map (fun f => f - o + o') (fields_of m o))
    by (unfold fields_of at 1; rewrite Ek; exact Ef).
  assert (Hinf : forall i, in_field m' o' i <-> in_field m o i).
  { intros i. unfold in_field. rewrite Efs. split.
    - intros (f' & Hf' & Hi). apply in_map_iff in Hf'.
      destruct Hf' as (f & <- & Hf). exists f. split; [exact Hf | lia].
    - intros (f & Hf & Hi). exists (f - o + o'). split; [| lia].
      apply in_map_iff. exists f. auto. }
  split; [| auto].
  constructor.
  - rewrite Ek. exact Hk.
  - rewrite Esz. exact Hs.
  - rewrite Efs, Esz, Forall_map. revert Hin. apply Forall_impl.
    intros f. lia.
  - rewrite Efs.
    rewrite (map_ext _ (fun f => f + (o' - o))) by (intros; lia).
    apply slots_apart_shift. exact Hap.
  - rewrite Efs, Forall_map. rewrite Forall_forall in *.
    intros f Hf. apply Hfields; auto.
  - intros m'' o'' Hbody''.
    destruct (Hlay m'' o'') as [Es'' Ef''].
    { intros i Hi Hnf. rewrite Hbody'' by (rewrite ?Esz, ?Hinf; auto).
      apply Hbody; auto. }
    rewrite Ek, Esz, Efs, map_map. split; [exact Es'' |].
    rewrite Ef''. apply map_ext. intros f. lia.
Qed.

Lemma extents_apart_filter (m m' : mem) (p : Z -> bool) (l : list Z) :
  (forall o, In o l -> size_of m' o = size_of m o) ->
  extents_apart m l -> extents_apart m' (filter p l).
Proof.
  induction l as [| o l IH]; intros Hs; cbn [extents_apart filter]; [auto |].
  intros [Ho Hl].
  assert (IH' : extents_apart m' (filter p l))
    by (apply IH; [intros x Hx; apply Hs; now right | exact Hl]).
  destruct (p o); [| exact IH'].
  cbn [extents_apart]. split; [| exact IH'].
  rewrite Forall_forall in *. intros x Hx. apply filter_In in Hx.
  destruct Hx as [Hx _].
  rewrite (Hs o (or_introl eq_refl)), (Hs x (or_intror Hx)). auto.
Qed.

End Moved.

Section Aftermath.

Context {layout : ObjectLayout}.
Context {los : Type} {large_objects : LargeObjectSpace los}.
Variable page_size : Z.
Variable marked : los -> Z -> bool.
Variable pages_ok : los -> Prop.
Hypothesis contract : large_object_space_contract page_size marked pages_ok.
Hypothesis sweeps : large_object_space_sweeps marked pages_ok.

Lemma collected_well_formed (mut mut' : mutator (los := los)) (F L : list Z)
    (g : progress) (h : heap (los := los)) :
  well_formed page_size pages_ok mut F L ->
  collected marked pages_ok mut mut' F L g h ->
  well_formed page_size pages_ok mut'
    (map (forwarded (memory (mutator_heap mut)) F
            (to_start (mutator_semi_space mut)) g) (copied g))
    (filter (marked (heap_large_object_space h)) L).
Proof.
  intros WF C.
  destruct (well_formed_start page_size marked pages_ok contract mut F L WF)
    as (_ & _ & _ & HT8 & Hhalf8 & HBT & HTtop & Hhalf).
  cbv zeta in *.
  pose proof (col_placed _ _ _ _ _ _ _ _ C) as placed.
  pose proof (col_traced _ _ _ _ _ _ _ _ C) as traced.
  pose proof (tracing_progress_ok _ _ _ _ _ _ _ _ _ _ _ _ _ traced)
    as partition.
  pose proof (collected_relocated _ _ _ _ _ _ _ _ C) as Hrel.
  pose proof (collected_top _ _ _ _ _ _ _ _ C) as Etop.
  pose proof (collected_tiled _ _ _ _ _ _ _ _ C) as Htiled.
  destruct (col_limit _ _ _ _ _ _ _ _ C) as [Hl1 Hl2].
  pose proof (col_base _ _ _ _ _ _ _ _ C) as Ebase.
  pose proof (col_size _ _ _ _ _ _ _ _ C) as Esize.
  destruct WF as [wf_page_size wf_base wf_top wf_power_of_two wf_capacity
                  wf_tags wf_tiled wf_small wf_large wf_large_outside
                  wf_large_apart wf_large_known wf_pages wf_roots_apart
                  wf_roots_outside wf_roots_refs].
  set (m0 := memory (mutator_heap mut)) in *.
  set (m' := memory (mutator_heap mut')) in *.
  set (T := to_start (mutator_semi_space mut)) in *.
  set (fwd := forwarded m0 F T g) in *.
  set (survivors := copied g) in *.
  set (live := filter (marked (heap_large_object_space h)) L) in *.
  destruct Hrel as [[Hnd Hincl] Hlive Hreach _ Hother Hcopy Hinj Hroots
                    Hfields Hlarge].
  assert (Href : forall v, reference F L v ->
            kept_by F L survivors live v ->
            reference (map fwd survivors) live (fwd v)).
  { intros v [-> | [HvF | HvL]] [K1 K2].
    - left. apply Hother.
      exact (zero_not_small _ _ _ _ _ _ _ _ _ _ placed).
    - right. left. apply in_map. auto.
    - right. right. rewrite Hother; [auto |].
      intros HvF. exact (small_not_large _ _ _ _ _ _ _ _ _ _ placed v HvF HvL). }
  assert (Hsmall' : forall o, In o survivors ->
            object_ok m' (reference (map fwd survivors) live) (fwd o)).
  { intros o Ho.
    pose proof (small_ok _ _ _ _ _ _ _ _ _ _ placed o (Hincl o Ho)) as Hok.
    destruct (collected_shape _ _ _ _ _ _ _ _ C o Ho) as (Ek & _).
    apply (object_ok_moved m0 m' (reference F L) _ o (fwd o) Hok Ek).
    - intros i Hi Hnf. exact (collected_payload _ _ _ _ _ _ _ _ C o i Ho Hi Hnf).
    - intros f Hf Hr. destruct (Hfields o f Ho Hf) as [E K].
      replace (f - o + fwd o) with (fwd o + (f - o)) by lia.
      rewrite E. auto. }
  assert (Hlarge' : forall o, In o live ->
            object_ok m' (reference (map fwd survivors) live) o
            /\ size_of m' o = size_of m0 o).
  { intros o Ho. pose proof (Hlive o Ho) as HoL.
    pose proof (large_ok _ _ _ _ _ _ _ _ _ _ placed o HoL) as Hok.
    destruct (collected_large _ _ _ _ _ _ _ _ C o HoL) as (Ek & Hbody & Es & _).
    split; [| exact Es].
    apply (object_ok_moved m0 m' (reference F L) _ o o Hok Ek Hbody).
    intros f Hf Hr. destruct (Hlarge o f Ho Hf) as [E K].
    replace (f - o + o) with f by lia. rewrite E. auto. }
  assert (Hsize_L : forall o, In o L -> size_of m' o = size_of m0 o).
  { intros o Ho.
    destruct (collected_large _ _ _ _ _ _ _ _ C o Ho) as (_ & _ & Es & _).
    exact Es. }
  constructor; rewrite ?Ebase, ?Esize; fold m'; auto.
  - (* capacity *)
    unfold capacity_ok. rewrite Ebase, Esize.
    pose proof (total_copied _ _ _ _ _ _ _ _ _ _ placed g partition).
    fold survivors in H. lia.
  - (* the copies tile the active half *)
    unfold from_start. rewrite Ebase, Esize.
    pose proof (total_copied _ _ _ _ _ _ _ _ _ _ placed g partition) as Ht.
    fold survivors in Ht.
    assert (HTc : T = base (mutator_semi_space mut)
                  \/ T = base (mutator_semi_space mut)
                         + size (mutator_semi_space mut) / 2).
    { unfold T, to_start. destruct (_ <=? _); auto. }
    destruct (Z.leb_spec (hp (mutator_semi_space mut'))
                (base (mutator_semi_space mut)
                 + size (mutator_semi_space mut) / 2)) as [Hle | Hgt].
    + destruct HTc as [Et | Et]; [rewrite <- Et; exact Htiled |].
      (* nothing survived in the upper half *)
      assert (Es : survivors = []).
      { destruct survivors as [| o rest] eqn:E; [reflexivity |].
        exfalso.
        pose proof (copied_sized _ _ _ _ _ _ _ _ _ _ placed g partition)
          as Hsz.
        fold survivors in Hsz. rewrite E in Hsz.
        inversion Hsz as [| ? ? Ho Hrest]; subst.
        pose proof (aligned_size_bounds m0 o Ho).
        pose proof (total_nonneg m0 rest Hrest).
        cbn [total] in Etop. lia. }
      rewrite Es. cbn. lia.
    + destruct HTc as [Et | Et]; [lia |]. rewrite <- Et. exact Htiled.
  - (* the copies are objects *)
    rewrite Forall_map, Forall_forall. exact Hsmall'.
  - (* the live large objects are objects *)
    rewrite Forall_forall. intros o Ho. exact (proj1 (Hlarge' o Ho)).
  - rewrite Forall_forall in *. intros o Ho.
    rewrite (Hsize_L o (Hlive o Ho)). exact (wf_large_outside o (Hlive o Ho)).
  - apply (extents_apart_filter m0); auto.
  - rewrite Forall_forall. intros o Ho.
    rewrite (col_large _ _ _ _ _ _ _ _ C).
    apply filter_In in Ho. destruct Ho as [HoL Hmk].
    apply (finish_gc_contains _ _ sweeps); [| exact Hmk].
    exact (tr_contains _ _ _ _ _ _ _ _ _ _ _ _ _ traced o HoL).
  - rewrite (col_large _ _ _ _ _ _ _ _ C).
    apply (finish_gc_pages_ok _ _ sweeps).
    exact (tr_pages _ _ _ _ _ _ _ _ _ _ _ _ _ traced).
  - rewrite (col_roots _ _ _ _ _ _ _ _ C). exact wf_roots_apart.
  - rewrite (col_roots _ _ _ _ _ _ _ _ C).
    rewrite Forall_forall in *. intros r Hr.
    destruct (wf_roots_outside r Hr) as (H1 & H2 & H3 & H4).
    repeat split; auto.
    rewrite Forall_forall in *. intros o Ho.
    rewrite (Hsize_L o (Hlive o Ho)). exact (H4 o (Hlive o Ho)).
  - rewrite (col_roots _ _ _ _ _ _ _ _ C).
    rewrite Forall_forall in *. intros r Hr.
    destruct (Hroots r Hr) as [E K]. fold m'. rewrite E. auto.
Qed.

End Aftermath.

Section Aftermath.

Context {layout : ObjectLayout}.
Context {los : Type} {large_objects : LargeObjectSpace los}.
Variable page_size : Z.
Variable marked : los -> Z -> bool.
Variable pages_ok : los -> Prop.

(** X11.  A collection carries the objects over unchanged.  The copy of a
    survivor has the kind, the size and the field offsets of the original,
    and every byte of its payload outside the reference fields is the
    original's; the fields hold the forwarded references.  A large object,
    live or not, keeps its header, its size, its fields' places and its
    payload, where it is. *)
Theorem collect_preserves_objects (mut mut' : mutator (los := los))
    (F L : list Z) (fuel : nat) :
  large_object_space_contract page_size marked pages_ok ->
  well_formed page_size pages_ok mut F L ->
  collect page_size fuel mut = Done mut' ->
  let m := memory (mutator_heap mut) in
  let m' := memory (mutator_heap mut') in
  exists survivors live fwd,
    relocated m m' F L (roots mut) (to_start (mutator_semi_space mut))
      (hp (mutator_semi_space mut')) survivors live fwd
    /\ (forall o, In o survivors ->
          kind_of m' (fwd o) = kind_of m o
          /\ size_of m' (fwd o) = size_of m o
          /\ fields_of m' (fwd o) = map (fun f => f - o + fwd o) (fields_of m o)
          /\ forall i, 8 <= i < size_of m o -> ~ in_field m o i ->
               m' (fwd o + i) = m (o + i))
    /\ (forall o, In o L ->
          kind_of m' o = kind_of m o
          /\ size_of m' o = size_of m o
          /\ fields_of m' o = fields_of m o
          /\ forall i, 8 <= i < size_of m o -> ~ in_field m o i ->
               m' (o + i) = m (o + i)).
Proof.
  intros contract WF E. cbv zeta.
  destruct (collect_anatomy page_size marked pages_ok contract mut mut' F L
              fuel WF E) as (g & h & C).
  exists (copied g), (filter (marked (heap_large_object_space h)) L),
    (forwarded (memory (mutator_heap mut)) F
       (to_start (mutator_semi_space mut)) g).
  split; [exact (collected_relocated _ _ _ _ _ _ _ _ C) |]. split.
  - intros o Ho.
    destruct (collected_shape _ _ _ _ _ _ _ _ C o Ho) as (Ek & Es & _ & Ef).
    repeat split; auto.
    intros i Hi Hnf. exact (collected_payload _ _ _ _ _ _ _ _ C o i Ho Hi Hnf).
  - intros o Ho.
    destruct (collected_large _ _ _ _ _ _ _ _ C o Ho) as (Ek & Hb & Es & Ef).
    auto.
Qed.

(** X12.  A collection compacts: the copies of the survivors lie back to
    back from the start of the tospace to [hp], in the order in which they
    were copied, and the survivors are exactly the objects that were
    reachable from the roots -- in the semi-space as among the large
    objects.  What was not reachable takes no room afterwards. *)
Theorem collect_compacts (mut mut' : mutator (los := los))
    (F L : list Z) (fuel : nat) :
  large_object_space_contract page_size marked pages_ok ->
  well_formed page_size pages_ok mut F L ->
  collect page_size fuel mut = Done mut' ->
  let m := memory (mutator_heap mut) in
  let m' := memory (mutator_heap mut') in
  exists survivors live fwd,
    relocated m m' F L (roots mut) (to_start (mutator_semi_space mut))
      (hp (mutator_semi_space mut')) survivors live fwd
    /\ tiled m' (to_start (mutator_semi_space mut)) (map fwd survivors)
         (hp (mutator_semi_space mut'))
    /\ (forall o, In o survivors <-> In o F /\ reachable m F L (roots mut) o)
    /\ (forall o, In o live <-> In o L /\ reachable m F L (roots mut) o)
    /\ hp (mutator_semi_space mut') - to_start (mutator_semi_space mut)
       = total m survivors.
Proof.
  intros contract WF E. cbv zeta.
  destruct (collect_anatomy page_size marked pages_ok contract mut mut' F L
              fuel WF E) as (g & h & C).
  exists (copied g), (filter (marked (heap_large_object_space h)) L),
    (forwarded (memory (mutator_heap mut)) F
       (to_start (mutator_semi_space mut)) g).
  pose proof (collected_relocated _ _ _ _ _ _ _ _ C) as Hrel.
  split; [exact Hrel |].
  split; [exact (collected_tiled _ _ _ _ _ _ _ _ C) |].
  split; [exact (collected_survivors _ _ _ _ _ _ _ _ C) |].
  split.
  - intros o. split.
    + intros Ho. split.
      * apply filter_In in Ho. tauto.
      * apply (rel_reachable _ _ _ _ _ _ _ _ _ _ Hrel). now right.
    + intros [HoL Hreach]. apply filter_In. split; [exact HoL |].
      exact (proj2 (kept_reachable _ _ _ _ _ _ _ _ _ _ _ _
                      (col_placed _ _ _ _ _ _ _ _ C) g h
                      (col_traced _ _ _ _ _ _ _ _ C)
                      (col_roots_done _ _ _ _ _ _ _ _ C)
                      (col_fields_done _ _ _ _ _ _ _ _ C) o Hreach) HoL).
  - rewrite (collected_top _ _ _ _ _ _ _ _ C). lia.
Qed.

Hypothesis contract : large_object_space_contract page_size marked pages_ok.
Hypothesis sweeps : large_object_space_sweeps marked pages_ok.

(** the graph after the collection is the graph before it, relocated *)
Lemma reachable_relocated (mut mut' : mutator (los := los)) (F L : list Z)
    (g : progress) (h : heap (los := los)) :
  collected marked pages_ok mut mut' F L g h ->
  let m := memory (mutator_heap mut) in
  let fwd := forwarded m F (to_start (mutator_semi_space mut)) g in
  forall v,
    reachable m F L (roots mut) v ->
    reachable (memory (mutator_heap mut'))
      (map fwd (copied g)) (filter (marked (heap_large_object_space h)) L)
      (roots mut) (fwd v).
Proof.
  intros C m fwd.
  pose proof (col_placed _ _ _ _ _ _ _ _ C) as placed.
  pose proof (collected_relocated _ _ _ _ _ _ _ _ C) as Hrel.
  fold m fwd in Hrel.
  destruct Hrel as [[Hnd Hincl] Hlive Hreach _ Hother Hcopy Hinj Hroots
                    Hfields Hlarge].
  assert (Hin : forall v, In v F \/ In v L ->
            kept_by F L (copied g)
              (filter (marked (heap_large_object_space h)) L) v ->
            In (fwd v) (map fwd (copied g))
            \/ In (fwd v) (filter (marked (heap_large_object_space h)) L)).
  { intros v [HvF | HvL] [K1 K2].
    - left. apply in_map. auto.
    - right. rewrite Hother; [auto |].
      intros HvF. exact (small_not_large _ _ _ _ _ _ _ _ _ _ placed v HvF HvL). }
  assert (Hkept : forall v, reachable m F L (roots mut) v ->
            kept_by F L (copied g)
              (filter (marked (heap_large_object_space h)) L) v).
  { intros v Hv.
    destruct (kept_reachable _ _ _ _ _ _ _ _ _ _ _ _ placed g h
                (col_traced _ _ _ _ _ _ _ _ C)
                (col_roots_done _ _ _ _ _ _ _ _ C)
                (col_fields_done _ _ _ _ _ _ _ _ C) v Hv) as [K1 K2].
    split; [exact K1 |]. intros HvL. apply filter_In. auto. }
  intros v Hv.
  induction Hv as [r v Hr E Hv | o f v Ho IH Hf E Hv].
  - subst v. destruct (Hroots r Hr) as [El K].
    apply (reach_root _ _ _ _ r); auto.
  - subst v. pose proof (Hkept o Ho) as [KF KL].
    destruct (reachable_in _ _ _ _ o Ho) as [HoF | HoL].
    + (* a field of a copy *)
      specialize (KF HoF).
      destruct (collected_shape _ _ _ _ _ _ _ _ C o KF) as (_ & _ & _ & Ef).
      destruct (Hfields o f KF Hf) as [El K]. fold m fwd in Ef, El.
      apply (reach_field _ _ _ _ (fwd o) (f - o + fwd o)); auto.
      * rewrite Ef. apply in_map_iff. exists f. auto.
      * replace (f - o + fwd o) with (fwd o + (f - o)) by lia. exact El.
    + (* a field of a large object *)
      specialize (KL HoL).
      assert (Eo : fwd o = o).
      { apply Hother. intros HoF.
        exact (small_not_large _ _ _ _ _ _ _ _ _ _ placed o HoF HoL). }
      rewrite Eo in IH.
      destruct (collected_large _ _ _ _ _ _ _ _ C o HoL) as (_ & _ & _ & Ef).
      destruct (Hlarge o f KL Hf) as [El K].
      apply (reach_field _ _ _ _ o f); auto.
      rewrite Ef. exact Hf.
Qed.

(** the heap that a collection leaves can be collected again *)
Lemma collect_again (mut mut' : mutator (los := los)) (F L : list Z)
    (fuel : nat) :
  well_formed page_size pages_ok mut F L ->
  collect page_size fuel mut = Done mut' ->
  exists F' L',
    well_formed page_size pages_ok mut' F' L'
    /\ (length F' <= length F)%nat /\ (length L' <= length L)%nat.
Proof.
  intros WF E.
  destruct (collect_anatomy page_size marked pages_ok contract mut mut' F L
              fuel WF E) as (g & h & C).
  pose proof (collected_relocated _ _ _ _ _ _ _ _ C) as Hrel.
  destruct (rel_survivors _ _ _ _ _ _ _ _ _ _ Hrel) as [Hnd Hincl].
  eexists _, _.
  split; [exact (collected_well_formed page_size marked pages_ok contract
                   sweeps mut mut' F L g h WF C) |].
  split.
  - rewrite length_map. exact (NoDup_incl_length Hnd Hincl).
  - apply filter_length_le_all.
Qed.

(** X13.  The heap that a collection leaves holds a well-formed object graph
    again -- the copies of the survivors in the new active half, the live
    large objects --, provided the large-object space keeps what it has
    marked when it closes the cycle.  So whatever is proved of a collection
    of a well-formed heap holds of the next one as well. *)
Theorem collect_keeps_well_formed (mut mut' : mutator (los := los))
    (F L : list Z) (fuel : nat) :
  well_formed page_size pages_ok mut F L ->
  collect page_size fuel mut = Done mut' ->
  exists survivors live fwd,
    relocated (memory (mutator_heap mut)) (memory (mutator_heap mut'))
      F L (roots mut) (to_start (mutator_semi_space mut))
      (hp (mutator_semi_space mut')) survivors live fwd
    /\ well_formed page_size pages_ok mut' (map fwd survivors) live
    /\ (length (map fwd survivors) <= length F)%nat
    /\ (length live <= length L)%nat.
Proof.
  intros WF E.
  destruct (collect_anatomy page_size marked pages_ok contract mut mut' F L
              fuel WF E) as (g & h & C).
  exists (copied g), (filter (marked (heap_large_object_space h)) L),
    (forwarded (memory (mutator_heap mut)) F
       (to_start (mutator_semi_space mut)) g).
  pose proof (collected_relocated _ _ _ _ _ _ _ _ C) as Hrel.
  split; [exact Hrel |].
  split; [exact (collected_well_formed page_size marked pages_ok contract
                   sweeps mut mut' F L g h WF C) |].
  split.
  - rewrite length_map.
    destruct (rel_survivors _ _ _ _ _ _ _ _ _ _ Hrel) as [Hnd Hincl].
    exact (NoDup_incl_length Hnd Hincl).
  - apply filter_length_le_all.
Qed.

(** X14.  Any number of collections in a row return, with the fuel that the
    first one needs: the heap stays well-formed and never holds more
    objects. *)
Theorem collections_return (n : nat) :
  forall (mut : mutator (los := los)) (F L : list Z) (fuel : nat),
    well_formed page_size pages_ok mut F L ->
    (length F + length L < fuel)%nat ->
    exists mut' F' L',
      collections page_size n fuel mut = Done mut'
      /\ well_formed page_size pages_ok mut' F' L'
      /\ (length F' <= length F)%nat /\ (length L' <= length L)%nat
      /\ roots mut' = roots mut.
Proof.
  induction n as [| n IH]; intros mut F L fuel WF Hfuel.
  - exists mut, F, L. cbn. auto.
  - destruct (collect_ok page_size marked pages_ok contract mut F L fuel WF
                Hfuel) as (mut1 & _ & _ & _ & E & _).
    cbv zeta in E.
    destruct (collect_anatomy page_size marked pages_ok contract mut mut1 F L
                fuel WF E) as (g & h & C).
    pose proof (collected_well_formed page_size marked pages_ok contract
                  sweeps mut mut1 F L g h WF C) as WF1.
    pose proof (collected_relocated _ _ _ _ _ _ _ _ C) as Hrel.
    destruct (rel_survivors _ _ _ _ _ _ _ _ _ _ Hrel) as [Hnd Hincl].
    pose proof (NoDup_incl_length Hnd Hincl) as HlenF.
    pose proof (filter_length_le_all (marked (heap_large_object_space h)) L)
      as HlenL.
    destruct (IH mut1 _ _ fuel WF1) as (mut' & F' & L' & En & WF' & HF & HL & Hr).
    { rewrite length_map. lia. }
    exists mut', F', L'. cbn [collections]. rewrite E. cbn [bind].
    rewrite length_map in HF.
    pose proof (col_roots _ _ _ _ _ _ _ _ C) as Hr1.
    split; [exact En |]. split; [exact WF' |].
    split; [lia |]. split; [lia | congruence].
Qed.

(** X15.  A second collection right after the first one finds every object
    live and copies exactly as many bytes as the first one did: nothing is
    lost by collecting again, and nothing more is freed. *)
Theorem second_collection_retains_all (mut mut1 mut2 : mutator (los := los))
    (F L : list Z) (fuel fuel' : nat) :
  well_formed page_size pages_ok mut F L ->
  collect page_size fuel mut = Done mut1 ->
  collect page_size fuel' mut1 = Done mut2 ->
  hp (mutator_semi_space mut2) - to_start (mutator_semi_space mut1)
  = hp (mutator_semi_space mut1) - to_start (mutator_semi_space mut).
Proof.
  intros WF E1 E2.
  destruct (collect_anatomy page_size marked pages_ok contract mut mut1 F L
              fuel WF E1) as (g & h & C).
  pose proof (collected_well_formed page_size marked pages_ok contract
                sweeps mut mut1 F L g h WF C) as WF1.
  set (m := memory (mutator_heap mut)) in *.
  set (fwd := forwarded m F (to_start (mutator_semi_space mut)) g) in *.
  set (F1 := map fwd (copied g)) in *.
  set (L1 := filter (marked (heap_large_object_space h)) L) in *.
  destruct (collect_anatomy page_size marked pages_ok contract mut1 mut2 F1 L1
              fuel' WF1 E2) as (g2 & h2 & C2).
  pose proof (collected_relocated _ _ _ _ _ _ _ _ C) as Hrel.
  fold m fwd in Hrel.
  destruct Hrel as [[Hnd Hincl] _ Hreach _ _ _ Hinj _ _ _].
  pose proof (collected_relocated _ _ _ _ _ _ _ _ C2) as Hrel2.
  destruct Hrel2 as [[Hnd2 Hincl2] _ _ _ _ _ _ _ _ _].
  (* every object of the new heap is reachable in it *)
  assert (Hall : forall o', In o' F1 -> In o' (copied g2)).
  { intros o' Ho'. apply (collected_survivors _ _ _ _ _ _ _ _ C2).
    split; [exact Ho' |].
    apply in_map_iff in Ho'. destruct Ho' as (o & <- & Ho).
    rewrite (col_roots _ _ _ _ _ _ _ _ C).
    apply (reachable_relocated mut mut1 F L g h C).
    apply Hreach. now left. }
  assert (HndF1 : NoDup F1).
  { unfold F1. clear - Hnd Hinj. induction (copied g) as [| o c IH];
      [constructor |].
    inversion Hnd as [| ? ? Hnin Hnd']; subst. cbn [map]. constructor.
    - intros Hin. apply in_map_iff in Hin. destruct Hin as (o' & Eq & Ho').
      assert (o' = o) by (apply Hinj; [now right | now left | exact Eq]).
      subst o'. contradiction.
    - apply IH; [exact Hnd' |].
      intros a b Ha Hb. apply Hinj; now right. }
  assert (Hperm : Permutation (copied g2) F1).
  { apply NoDup_Permutation; auto. intros x. split; auto. }
  rewrite (collected_top _ _ _ _ _ _ _ _ C2),
    (collected_top _ _ _ _ _ _ _ _ C).
  rewrite (total_perm _ _ _ Hperm).
  assert (Etot : total (memory (mutator_heap mut1)) F1
                 = total m (copied g)).
  { unfold F1.
    assert (H : forall c, incl c (copied g) ->
              total (memory (mutator_heap mut1)) (map fwd c) = total m c).
    { induction c as [| o c IH]; intros Hc; [reflexivity |].
      cbn [map total].
      destruct (collected_shape _ _ _ _ _ _ _ _ C o (Hc o (or_introl eq_refl)))
        as (_ & _ & Ea & _).
      fold m fwd in Ea. rewrite Ea, IH; [reflexivity |].
      intros x Hx. apply Hc. now right. }
    apply H. apply incl_refl. }
  rewrite Etot. unfold m. lia.
Qed.

End Aftermath.

(** ** Allocation always comes to an end *)

Section Allocation.

Context {layout : ObjectLayout}.
Context {los : Type} {large_objects : LargeObjectSpace los}.
Variable page_size : Z.
Variable marked : los -> Z -> bool.
Variable pages_ok : los -> Prop.
Hypothesis contract : large_object_space_contract page_size marked pages_ok.

(** behind the header of a block of at least 8 bytes the range to clear
    lies in the address space *)
Lemma clear_block (space : semi_space) (m : mem) (bytes : Z) :
  capacity_ok space -> 0 < base space ->
  base space + size space + LARGE_OBJECT_THRESHOLD + ALIGNMENT
    < Word.modulus ->
  8 <= bytes < LARGE_OBJECT_THRESHOLD ->
  clear_memory m (Word.add (hp space) 8) (Word.sub bytes 8)
  = Done (fill m (hp space + 8) 0 (bytes - 8)).
Proof.
  intros (H1 & H2 & H3) Hb Htop Hbytes.
  unfold LARGE_OBJECT_THRESHOLD, ALIGNMENT in *.
  pose proof modulus_value as HM.
  assert (E8 : Word.add (hp space) 8 = hp space + 8)
    by (unfold Word.add; apply wrap_small; lia).
  assert (Eb : Word.sub bytes 8 = bytes - 8)
    by (unfold Word.sub; apply wrap_small; lia).
  rewrite E8, Eb. apply clear_memory_inside. lia.
Qed.

(** the small path, round by round *)
Lemma allocate_small_rounds (mut : mutator (los := los)) (F L : list Z)
    (tries fuel : nat) (kind bytes : Z) :
  well_formed page_size pages_ok mut F L ->
  8 <= bytes < LARGE_OBJECT_THRESHOLD ->
  (length F + length L < fuel)%nat ->
  let space := mutator_semi_space mut in
  (align_up (Word.add (hp space) bytes) ALIGNMENT <= limit space ->
   exists mut',
     allocate_small page_size (S tries) fuel mut kind bytes
     = Done (hp space, mut'))
  /\ (limit space < align_up (Word.add (hp space) bytes) ALIGNMENT ->
      exists mut1,
        collect page_size fuel mut = Done mut1
        /\ (free_capacity (mutator_semi_space mut1) < bytes ->
            allocate_small page_size (S tries) fuel mut kind bytes
            = Fatal (ran_out_of_space (size space)))
        /\ (bytes <= free_capacity (mutator_semi_space mut1) ->
            exists mut',
              allocate_small page_size (S (S tries)) fuel mut kind bytes
              = Done (hp (mutator_semi_space mut1), mut'))).
Proof.
  intros WF Hb Hfuel space. split.
  - intros Hfit. cbn [allocate_small]. fold space.
    change (heap_semi_space (mutator_heap mut)) with space.
    destruct (Z.ltb_spec (limit space)
                (align_up (Word.add (hp space) bytes) ALIGNMENT));
      [lia |].
    rewrite (clear_block space) by (open_well_formed WF; tauto).
    cbn [bind]. eexists. reflexivity.
  - intros Hfull.
    destruct (collect_ok page_size marked pages_ok contract mut F L fuel WF
                Hfuel) as (mut1 & _ & _ & _ & E & _).
    cbv zeta in E.
    destruct (collect_capacity page_size marked pages_ok contract mut mut1 F L
                fuel WF E) as (Hc & Eb & Es & Hhp8 & Hl8 & Hb0 & Htop).
    exists mut1. split; [exact E |].
    assert (Hround : forall t,
              allocate_small page_size (S t) fuel mut kind bytes
              = (m <- collect_for_alloc page_size fuel mut bytes ;;
                 allocate_small page_size t fuel m kind bytes)).
    { intros t. cbn [allocate_small].
      change (heap_semi_space (mutator_heap mut)) with space.
      destruct (Z.ltb_spec (limit space)
                  (align_up (Word.add (hp space) bytes) ALIGNMENT));
        [reflexivity | lia]. }
    unfold free_capacity. split.
    + intros Hlt. rewrite Hround. unfold collect_for_alloc.
      rewrite E. cbn [bind].
      destruct (Z.ltb_spec
                  (Word.sub (limit (mutator_semi_space mut1))
                     (hp (mutator_semi_space mut1))) bytes); [| lia].
      cbn [bind]. rewrite Es. reflexivity.
    + intros Hge. rewrite Hround. unfold collect_for_alloc.
      rewrite E. cbn [bind].
      destruct (Z.ltb_spec
                  (Word.sub (limit (mutator_semi_space mut1))
                     (hp (mutator_semi_space mut1))) bytes) as [| Hroom];
        [lia |].
      cbn [bind allocate_small].
      change (heap_semi_space (mutator_heap mut1))
        with (mutator_semi_space mut1).
      rewrite (aligned_room (mutator_semi_space mut1) bytes Hc Hb0 Htop Hhp8
                 Hl8 ltac:(lia)).
      * rewrite (clear_block (mutator_semi_space mut1)) by assumption.
        cbn [bind]. eexists. reflexivity.
      * apply Z.ltb_ge. exact Hroom.
Qed.

(** X16.  An allocation of at least 8 bytes on a well-formed heap comes to
    an end, with fuel beyond the number of objects: the loop of the small
    path is left in its first round, or in its second one after the one
    collection it may cause, and the large path has no loop.  The call
    returns a block, or it aborts because the heap is exhausted or, on the
    large path, because no pages could be obtained; it never aborts on a
    corrupted heap and never leaves the contract of [memset]. *)
Theorem allocate_terminates (mut : mutator (los := los)) (F L : list Z)
    (fuel : nat) (kind bytes : Z) :
  well_formed page_size pages_ok mut F L ->
  8 <= bytes ->
  (length F + length L + 1 < fuel)%nat ->
  (exists addr mut',
     allocate page_size fuel mut kind bytes = Done (addr, mut'))
  \/ allocate page_size fuel mut kind bytes
     = Fatal (ran_out_of_space (size (mutator_semi_space mut)))
  \/ (LARGE_OBJECT_THRESHOLD <= bytes
      /\ allocate page_size fuel mut kind bytes = Fatal weird_mmap_failure).
Proof.
  intros WF Hb Hfuel. unfold allocate.
  destruct (Z.leb_spec LARGE_OBJECT_THRESHOLD bytes) as [Hlarge | Hsmall].
  - (* the large path *)
    unfold allocate_large.
    set (np := large_object_space_npages _ _).
    assert (Hplace : forall m : mutator (los := los),
              size (mutator_semi_space m) = size (mutator_semi_space mut) ->
              (exists addr mut',
                 place_large m np kind = Done (addr, mut'))
              \/ place_large m np kind = Fatal weird_mmap_failure).
    { intros m _. unfold place_large.
      destruct (obtain_large _ _) as [ret l].
      destruct (ret =? 0); [now right |]. left. eauto. }
    unfold reserve_large.
    destruct (steal_from page_size mut np) as [ok mut1] eqn:Es.
    destruct ok.
    + cbn [bind].
      assert (Hs : size (mutator_semi_space mut1)
                   = size (mutator_semi_space mut)).
      { pose proof (steal_from_mapping page_size mut np) as H.
        rewrite Es in H. cbn [snd] in H. tauto. }
      destruct (Hplace mut1 Hs) as [H | H]; [left; exact H |].
      right. right. auto.
    + assert (Esame : mut1 = mut).
      { pose proof (steal_from_failed_same page_size mut np) as H.
        rewrite Es in H. cbn [fst snd] in H. auto. }
      subst mut1.
      destruct (collect_ok page_size marked pages_ok contract mut F L fuel WF
                  ltac:(lia)) as (mut2 & _ & _ & _ & E & _).
      cbv zeta in E. rewrite E. cbn [bind].
      destruct (collect_mapping page_size fuel mut mut2 E) as (_ & Es2 & _).
      destruct (steal_from page_size mut2 np) as [ok2 mut3] eqn:Es3.
      destruct ok2.
      * cbn [bind].
        assert (Hs : size (mutator_semi_space mut3)
                     = size (mutator_semi_space mut)).
        { pose proof (steal_from_mapping page_size mut2 np) as H.
          rewrite Es3 in H. cbn [snd] in H. destruct H as (_ & H & _).
          congruence. }
        destruct (Hplace mut3 Hs) as [H | H]; [left; exact H |].
        right. right. auto.
      * cbn [bind]. right. left.
        pose proof (steal_from_failed_same page_size mut2 np) as H.
        rewrite Es3 in H. cbn [fst snd] in H. rewrite (H eq_refl), Es2.
        reflexivity.
  - (* the small path *)
    destruct fuel as [| [| tries]]; [lia | lia |].
    set (fuel := S (S tries)) in *.
    destruct (allocate_small_rounds mut F L (S tries) fuel kind bytes WF
                ltac:(lia) ltac:(lia)) as [Hfit Hfatal].
    destruct (allocate_small_rounds mut F L tries fuel kind bytes WF
                ltac:(lia) ltac:(lia)) as [_ Hdone].
    cbv zeta in *.
    destruct (Z.le_gt_cases
                (align_up (Word.add (hp (mutator_semi_space mut)) bytes)
                   ALIGNMENT)
                (limit (mutator_semi_space mut))) as [Hle | Hgt].
    + destruct (Hfit Hle) as (mut' & E). left. eauto.
    + destruct (Hfatal Hgt) as (mut1 & E1 & Hfatal' & _).
      destruct (Hdone Hgt) as (mut1' & E1' & _ & Hdone').
      assert (mut1' = mut1) by congruence. subst mut1'.
      destruct (Z.lt_ge_cases (free_capacity (mutator_semi_space mut1)) bytes)
        as [Hlt | Hge].
      * right. left. exact (Hfatal' Hlt).
      * destruct (Hdone' Hge) as (mut' & E). left. eauto.
Qed.

End Allocation.

Section Bumping.

Context {layout : ObjectLayout}.
Context {los : Type} {large_objects : LargeObjectSpace los}.
Variable page_size : Z.

(** one bump of an aligned allocation pointer *)
Lemma allocate_bump (fuel : nat) (mut : mutator (los := los))
    (kind bytes : Z) :
  let h := mutator_heap mut in
  let space := heap_semi_space h in
  let next := hp space + 8 * ((bytes + 7) / 8) in
  0 <= hp space -> hp space mod 8 = 0 ->
  8 <= bytes < LARGE_OBJECT_THRESHOLD ->
  hp space + bytes + 7 < Word.modulus ->
  next <= limit space ->
  allocate page_size (S fuel) mut kind bytes
  = Done (hp space,
          mk_mutator
            (mk_heap
               (fill (store (memory h) (hp space) kind) (hp space + 8) 0
                  (bytes - 8))
               (set_hp space next) (heap_large_object_space h))
            (roots mut)).
Proof.
  intros h space next Hhp Hal Hb Hfit Hroom. unfold allocate.
  destruct (Z.leb_spec LARGE_OBJECT_THRESHOLD bytes); [lia |].
  cbn [allocate_small]. fold h space.
  assert (En : align_up (Word.add (hp space) bytes) ALIGNMENT = next).
  { rewrite align_up_8. unfold Word.add.
    rewrite (wrap_small (hp space + bytes)) by lia.
    rewrite wrap_small by lia. unfold next.
    pose proof (Z.div_mod (hp space) 8 ltac:(lia)) as Hd.
    rewrite Hal, Z.add_0_r in Hd.
    replace (hp space + bytes + 7) with (bytes + 7 + hp space / 8 * 8) by lia.
    rewrite Z.div_add by lia. lia. }
  rewrite En.
  destruct (Z.ltb_spec (limit space) next); [lia |].
  assert (E8 : Word.add (hp space) 8 = hp space + 8)
    by (unfold Word.add; apply wrap_small; lia).
  assert (Eb : Word.sub bytes 8 = bytes - 8).
  { unfold Word.sub. apply wrap_small. pose proof modulus_value.
    unfold LARGE_OBJECT_THRESHOLD in Hb. lia. }
  rewrite E8, Eb, clear_memory_inside by lia. reflexivity.
Qed.

(** X17.  Two allocations in a row that fit are laid out back to back from
    the aligned [hp], each block taking its size rounded up to 8 bytes; the
    second allocation leaves the first block, header and payload, as the
    first one returned it. *)
Theorem allocations_are_contiguous (fuel : nat) (mut : mutator (los := los))
    (kind1 bytes1 kind2 bytes2 : Z) :
  let space := mutator_semi_space mut in
  let step1 := 8 * ((bytes1 + 7) / 8) in
  let step2 := 8 * ((bytes2 + 7) / 8) in
  0 <= hp space -> hp space mod 8 = 0 ->
  8 <= bytes1 < LARGE_OBJECT_THRESHOLD ->
  8 <= bytes2 < LARGE_OBJECT_THRESHOLD ->
  0 <= kind1 < Word.modulus ->
  hp space + step1 + step2 <= limit space ->
  limit space < Word.modulus ->
  exists mut1 mut2,
    allocate page_size (S fuel) mut kind1 bytes1 = Done (hp space, mut1)
    /\ allocate page_size (S fuel) mut1 kind2 bytes2
       = Done (hp space + step1, mut2)
    /\ bytes1 <= step1 < bytes1 + 8
    /\ hp (mutator_semi_space mut2) = hp space + step1 + step2
    /\ load (memory (mutator_heap mut2)) (hp space) = kind1
    /\ (forall x, x < hp space + step1 ->
          memory (mutator_heap mut2) x = memory (mutator_heap mut1) x).
Proof.
  intros space step1 step2 Hhp Hal Hb1 Hb2 Hk Hroom Hlim.
  assert (Hs1 : bytes1 <= step1 < bytes1 + 8).
  { unfold step1.
    pose proof (Z.div_mod (bytes1 + 7) 8 ltac:(lia)).
    pose proof (Z.mod_pos_bound (bytes1 + 7) 8 ltac:(lia)). lia. }
  assert (Hs2 : bytes2 <= step2 < bytes2 + 8).
  { unfold step2.
    pose proof (Z.div_mod (bytes2 + 7) 8 ltac:(lia)).
    pose proof (Z.mod_pos_bound (bytes2 + 7) 8 ltac:(lia)). lia. }
  pose proof modulus_value as HM.
  pose proof (allocate_bump fuel mut kind1 bytes1) as E1.
  cbv zeta in E1. fold space step1 in E1.
  change (heap_semi_space (mutator_heap mut)) with space in E1.
  specialize (E1 Hhp Hal Hb1 ltac:(lia) ltac:(lia)).
  eexists.
  pose proof (allocate_bump fuel
                (mk_mutator
                   (mk_heap
                      (fill
                         (store (memory (mutator_heap mut)) (hp space) kind1)
                         (hp space + 8) 0 (bytes1 - 8))
                      (set_hp space (hp space + step1))
                      (heap_large_object_space (mutator_heap mut)))
                   (roots mut)) kind2 bytes2) as E2.
  cbv zeta in E2. fold step2 in E2.
  cbn [mutator_heap heap_semi_space set_hp hp limit memory
       heap_large_object_space roots] in E2.
  assert (Hal1 : (hp space + step1) mod 8 = 0).
  { unfold step1. rewrite Z.add_mod, Hal by lia.
    rewrite (Z.mul_comm 8), Z.mod_mul by lia. reflexivity. }
  assert (Htop : hp space + step1 + bytes2 + 7 < Word.modulus).
  { pose proof (Z.div_mod (hp space) 8 ltac:(lia)) as Hd.
    rewrite Hal, Z.add_0_r in Hd. unfold step1, step2 in *. lia. }
  specialize (E2 ltac:(lia) Hal1 Hb2 Htop ltac:(lia)).
  eexists. split; [exact E1 |]. split; [exact E2 |].
  split; [exact Hs1 |].
  unfold mutator_semi_space.
  cbn [mutator_heap heap_semi_space set_hp hp memory].
  split; [lia |].
  split.
  - rewrite load_fill_out by lia.
    rewrite load_store_other by lia.
    rewrite load_fill_out by lia.
    rewrite load_store_same. apply wrap_small. exact Hk.
  - intros x Hx. rewrite fill_byte_out by lia.
    apply store_byte_out. lia.
Qed.

End Bumping.

(** ** The benchmark's large-object space keeps what it has marked *)

Lemma bench_sweeps :
  large_object_space_sweeps Bench.is_marked bench_pages_ok.
Proof.
  constructor.
  - intros l x Hc Hm. cbn in *.
    apply existsb_exists in Hc. destruct Hc as (o & Ho & Eo).
    apply existsb_exists. exists o. split; [| exact Eo].
    apply filter_In. split; [exact Ho |].
    apply Z.eqb_eq in Eo. subst x. exact Hm.
  - intros l [Hnn Hfit]. unfold bench_pages_ok.
    cbn [large_object_space_finish_gc Bench.large_objects Bench.objects].
    split.
    + rewrite Forall_forall in *. intros o Ho. apply filter_In in Ho.
      apply Hnn. tauto.
    + pose proof (pages_of_filter (fun o => Bench.is_marked l (fst o))
                    (Bench.objects l) Hnn) as Hp.
      unfold Bench.page_size in *.
      lia.
Qed.

(** ** The properties at concrete inputs *)

Lemma align_up_power_of_two_witness :
  align_up 13 (2 ^ 3) mod 2 ^ 3 = 0
  /\ 13 <= align_up 13 (2 ^ 3) < 13 + 2 ^ 3.
Proof.
  assert (H1 : 0 <= 3 < 64) by lia.
  assert (H2 : 0 <= 13 < Word.modulus) by (vm_compute; split; congruence).
  assert (H3 : 13 + 2 ^ 3 - 1 < Word.modulus) by (vm_compute; reflexivity).
  destruct (proj1 (align_up_power_of_two 13 3 H1 H2) H3) as (Hm & Hr & _).
  split; [exact Hm | exact Hr].
Defined.

Lemma semi_space_contains_range_witness :
  semi_space_contains Bench.fresh_space 100000 = true
  <-> base Bench.fresh_space <= 100000
      < base Bench.fresh_space + size Bench.fresh_space.
Proof.
  apply (semi_space_contains_range Bench.fresh_space 100000);
    vm_compute; try split; congruence.
Defined.

Lemma flip_selects_half_witness :
  hp (flip (flip Bench.fresh_space))
  = base Bench.fresh_space + size Bench.fresh_space / 2.
Proof.
  assert (H1 : 0 <= base Bench.fresh_space) by (vm_compute; congruence).
  assert (H2 : 0 <= size Bench.fresh_space) by (vm_compute; congruence).
  assert (H3 : base Bench.fresh_space + size Bench.fresh_space < Word.modulus)
    by (vm_compute; reflexivity).
  exact (proj1 (proj2 (proj2 (flip_selects_half Bench.fresh_space H1 H2 H3)))).
Defined.

Lemma forward_copies_object_witness :
  exists h1,
    forward (mutator_heap Sample.mut) Sample.a = Done (98432, h1)
    /\ load (memory h1) Sample.a = 98432
    /\ memory h1 (98432 + 8) = Sample.memory (Sample.a + 8).
Proof.
  destruct (forward_copies_object (mutator_heap Sample.mut) Sample.a)
    as (h1 & E & Ecopy & El & _).
  - vm_compute. reflexivity.
  - vm_compute. congruence.
  - vm_compute. congruence.
  - vm_compute. congruence.
  - vm_compute. congruence.
  - left. vm_compute. congruence.
  - exists h1. split; [exact E |]. split; [exact El |].
    apply (Ecopy 8). vm_compute. split; [congruence | reflexivity].
Defined.

Lemma steal_pages_releases_witness :
  let half := half_bytes 4096 2 in
  let mirror :=
    if 98304 =? base Bench.fresh_space
    then limit Bench.fresh_space - half + size Bench.fresh_space / 2
    else limit Bench.fresh_space - half - size Bench.fresh_space / 2 in
  let '(ok, space', m') :=
    semi_space_steal_pages 4096 Bench.zero_memory Bench.fresh_space 2 in
  (ok = false -> m' = Bench.zero_memory /\ space' = Bench.fresh_space)
  /\ (ok = true ->
      limit space' = limit Bench.fresh_space - half
      /\ (forall x, limit space' <= x < limit Bench.fresh_space -> m' x = 0)
      /\ (forall x, mirror <= x < mirror + half -> m' x = 0)
      /\ (forall x,
            (x < limit space' \/ limit Bench.fresh_space <= x) ->
            (x < mirror \/ mirror + half <= x) ->
            m' x = Bench.zero_memory x)).
Proof.
  apply (steal_pages_releases 4096 Bench.zero_memory Bench.fresh_space 2 16
           98304);
    vm_compute;
    first [reflexivity | congruence | split; congruence | right; reflexivity].
Defined.

Lemma collect_without_roots_witness :
  exists mut',
    collect Bench.page_size 1 Bench.fresh = Done mut'
    /\ hp (mutator_semi_space mut') = 98304.
Proof.
  destruct (collect_without_roots Bench.page_size 0 Bench.fresh eq_refl)
    as (mut' & E & Hhp & _).
  exists mut'. split; [exact E | exact Hhp].
Defined.

Lemma fresh_object_fields_witness :
  exists mut',
    allocate Bench.page_size 1 Bench.fresh Bench.ALLOC_KIND_NODE 32
    = Done (98304, mut')
    /\ get_field (memory (mutator_heap mut')) 98304 = Bench.ALLOC_KIND_NODE
    /\ get_field (memory (mutator_heap mut')) 98312 = 0.
Proof.
  eexists. split; [reflexivity |].
  assert (H1 : 8 <= 32 < LARGE_OBJECT_THRESHOLD)
    by (vm_compute; split; congruence).
  assert (H2 : 0 <= Bench.ALLOC_KIND_NODE < Word.modulus)
    by (vm_compute; split; congruence).
  assert (H3 : 0 <= 98304) by lia.
  assert (H4 : 98304 + 32 < Word.modulus) by (vm_compute; reflexivity).
  destruct (fresh_object_fields Bench.page_size 1 Bench.fresh _
              Bench.ALLOC_KIND_NODE 32 98304 H1 H2 H3 H4 eq_refl)
    as (Hk & Hz & _).
  split; [exact Hk |]. apply Hz; lia.
Defined.

Lemma allocations_are_contiguous_witness :
  exists mut1 mut2,
    allocate Bench.page_size 1 Bench.fresh Bench.ALLOC_KIND_NODE 32
    = Done (98304, mut1)
    /\ allocate Bench.page_size 1 mut1 Bench.ALLOC_KIND_DOUBLE_ARRAY 20
       = Done (98336, mut2)
    /\ hp (mutator_semi_space mut2) = 98360
    /\ load (memory (mutator_heap mut2)) 98304 = Bench.ALLOC_KIND_NODE.
Proof.
  destruct (allocations_are_contiguous Bench.page_size 0 Bench.fresh
              Bench.ALLOC_KIND_NODE 32 Bench.ALLOC_KIND_DOUBLE_ARRAY 20)
    as (mut1 & mut2 & E1 & E2 & _ & Hhp & Hk & _).
  - vm_compute. congruence.
  - vm_compute. reflexivity.
  - vm_compute. split; congruence.
  - vm_compute. split; congruence.
  - vm_compute. split; congruence.
  - vm_compute. congruence.
  - vm_compute. reflexivity.
  - exists mut1, mut2. auto.
Defined.

Lemma mapping_is_fixed_witness :
  exists mut',
    collect Bench.page_size 6 Sample.mut = Done mut'
    /\ base (mutator_semi_space mut') = 65536
    /\ size (mutator_semi_space mut') = 65536.
Proof.
  destruct (collect_ok Bench.page_size Bench.is_marked bench_pages_ok
              bench_contract Sample.mut Sample.small_objects
              Sample.large_objects 6 sample_well_formed sample_fuel)
    as (mut' & _ & _ & _ & E & _).
  exists mut'. split; [exact E |].
  exact (proj1 (mapping_is_fixed Bench.page_size 6 Sample.mut) mut' E).
Defined.

Lemma collect_preserves_objects_witness :
  exists mut',
    collect Bench.page_size 6 Sample.mut = Done mut'
    /\ kind_of (memory (mutator_heap mut')) Sample.d
       = kind_of Sample.memory Sample.d
    /\ fields_of (memory (mutator_heap mut')) Sample.d
       = fields_of Sample.memory Sample.d.
Proof.
  destruct (collect_ok Bench.page_size Bench.is_marked bench_pages_ok
              bench_contract Sample.mut Sample.small_objects
              Sample.large_objects 6 sample_well_formed sample_fuel)
    as (mut' & _ & _ & _ & E & _).
  exists mut'. split; [exact E |].
  destruct (collect_preserves_objects Bench.page_size Bench.is_marked
              bench_pages_ok Sample.mut mut' Sample.small_objects
              Sample.large_objects 6 bench_contract sample_well_formed E)
    as (survivors & live & fwd & _ & _ & Hlarge).
  destruct (Hlarge Sample.d (or_introl eq_refl)) as (Hk & _ & Hf & _).
  split; [exact Hk | exact Hf].
Defined.

Lemma collect_compacts_witness :
  exists mut' survivors,
    collect Bench.page_size 6 Sample.mut = Done mut'
    /\ hp (mutator_semi_space mut') - 65536
       = total Sample.memory survivors
    /\ (forall o, In o survivors ->
          reachable Sample.memory Sample.small_objects Sample.large_objects
            Sample.root_slots o).
Proof.
  destruct (collect_ok Bench.page_size Bench.is_marked bench_pages_ok
              bench_contract Sample.mut Sample.small_objects
              Sample.large_objects 6 sample_well_formed sample_fuel)
    as (mut' & _ & _ & _ & E & _).
  destruct (collect_compacts Bench.page_size Bench.is_marked
              bench_pages_ok Sample.mut mut' Sample.small_objects
              Sample.large_objects 6 bench_contract sample_well_formed E)
    as (survivors & live & fwd & _ & _ & Hs & _ & Htop).
  exists mut', survivors. split; [exact E |]. split; [exact Htop |].
  intros o Ho. exact (proj2 (proj1 (Hs o) Ho)).
Defined.

Lemma collect_keeps_well_formed_witness :
  exists mut' F' L',
    collect Bench.page_size 6 Sample.mut = Done mut'
    /\ well_formed Bench.page_size bench_pages_ok mut' F' L'
    /\ (length F' <= 4)%nat.
Proof.
  destruct (collect_ok Bench.page_size Bench.is_marked bench_pages_ok
              bench_contract Sample.mut Sample.small_objects
              Sample.large_objects 6 sample_well_formed sample_fuel)
    as (mut' & _ & _ & _ & E & _).
  destruct (collect_keeps_well_formed Bench.page_size Bench.is_marked
              bench_pages_ok bench_contract bench_sweeps Sample.mut mut'
              Sample.small_objects Sample.large_objects 6 sample_well_formed E)
    as (survivors & live & fwd & _ & WF' & HF & _).
  exists mut', (map fwd survivors), live.
  split; [exact E |]. split; [exact WF' | exact HF].
Defined.

Lemma collections_return_witness :
  exists mut',
    collections Bench.page_size 3 6 Sample.mut = Done mut'
    /\ roots mut' = [4096; 4104; 4112].
Proof.
  destruct (collections_return Bench.page_size Bench.is_marked bench_pages_ok
              bench_contract bench_sweeps 3 Sample.mut Sample.small_objects
              Sample.large_objects 6 sample_well_formed sample_fuel)
    as (mut' & F' & L' & E & _ & _ & _ & Hr).
  exists mut'. split; [exact E | exact Hr].
Defined.

Lemma second_collection_retains_all_witness :
  exists mut1 mut2,
    collect Bench.page_size 6 Sample.mut = Done mut1
    /\ collect Bench.page_size 6 mut1 = Done mut2
    /\ hp (mutator_semi_space mut2) - to_start (mutator_semi_space mut1)
       = hp (mutator_semi_space mut1) - 65536.
Proof.
  destruct (collect_ok Bench.page_size Bench.is_marked bench_pages_ok
              bench_contract Sample.mut Sample.small_objects
              Sample.large_objects 6 sample_well_formed sample_fuel)
    as (mut1 & _ & _ & _ & E1 & _).
  destruct (collect_again Bench.page_size Bench.is_marked bench_pages_ok
              bench_contract bench_sweeps Sample.mut mut1
              Sample.small_objects Sample.large_objects 6 sample_well_formed
              E1) as (F1 & L1 & WF1 & HF & HL).
  assert (Hfuel : (length F1 + length L1 < 6)%nat).
  { pose proof sample_fuel. lia. }
  destruct (collect_ok Bench.page_size Bench.is_marked bench_pages_ok
              bench_contract mut1 F1 L1 6 WF1 Hfuel)
    as (mut2 & _ & _ & _ & E2 & _).
  exists mut1, mut2. split; [exact E1 |]. split; [exact E2 |].
  exact (second_collection_retains_all Bench.page_size Bench.is_marked
           bench_pages_ok bench_contract bench_sweeps Sample.mut mut1 mut2
           Sample.small_objects Sample.large_objects 6 6 sample_well_formed
           E1 E2).
Defined.

Lemma allocate_terminates_witness :
  (exists addr mut',
     allocate Bench.page_size 7 Sample.mut Bench.ALLOC_KIND_NODE 32
     = Done (addr, mut'))
  \/ allocate Bench.page_size 7 Sample.mut Bench.ALLOC_KIND_NODE 32
     = Fatal (ran_out_of_space (size (mutator_semi_space Sample.mut)))
  \/ (LARGE_OBJECT_THRESHOLD <= 32
      /\ allocate Bench.page_size 7 Sample.mut Bench.ALLOC_KIND_NODE 32
         = Fatal weird_mmap_failure).
Proof.
  apply (allocate_terminates Bench.page_size Bench.is_marked bench_pages_ok
           bench_contract Sample.mut Sample.small_objects
           Sample.large_objects 7 Bench.ALLOC_KIND_NODE 32 sample_well_formed).
  - lia.
  - cbn. lia.
Defined.
